(** * sailor: a curses widget toolkit -- shallow embedding of [sailor.py]

    The Python module is embedded class by class.  Python integers are
    unbounded and are modelled by [Z]; Python strings are lists of
    characters; an object is identified by its address; a method that
    mutates [self] becomes a function returning the new state; a method
    that can raise returns [option] ([None] is the raised exception).

    Part I holds the definitions (in source order), Part II the
    theorems. *)

From Stdlib Require Import ZArith List Bool Lia Ascii String Permutation.
Import ListNotations.
Set Warnings "-register-all".
Local Open Scope Z_scope.

(* ====================================================================== *)
(** * Part I -- the embedding                                              *)
(* ====================================================================== *)

(** ** Key codes

    [CTRL_A] .. [SHIFT_TAB] are lines 12-16 of sailor.py.  The [curses]
    constants belong to the Python standard library (ncurses' [KEY_*]
    codes and [curses.ascii]); their values are the library's. *)

Definition CTRL_A : Z := 1.
Definition CTRL_E : Z := 5.
Definition ALT_BS : Z := 127.
Definition ALT_ENTER : Z := 10.
Definition SHIFT_TAB : Z := 353.

Module curses.
Definition KEY_DOWN : Z := 258.
Definition KEY_UP : Z := 259.
Definition KEY_LEFT : Z := 260.
Definition KEY_RIGHT : Z := 261.
Definition KEY_BACKSPACE : Z := 263.
Definition KEY_ENTER : Z := 343.
Definition COLOR_BLACK : Z := 0.
Definition COLOR_GREEN : Z := 2.
Definition COLOR_WHITE : Z := 7.
Definition A_STANDOUT : Z := 65536.
Definition A_UNDERLINE : Z := 131072.
Definition A_REVERSE : Z := 262144.
Definition A_BOLD : Z := 2097152.


Module ascii.
Definition TAB : Z := 9.
Definition ESC : Z := 27.
Definition DEL : Z := 127.
End ascii.
End curses.

Definition black : Z := curses.COLOR_BLACK.
Definition green : Z := curses.COLOR_GREEN.
Definition white : Z := curses.COLOR_WHITE.

(** ** Python strings and slices *)

Definition str := list Ascii.ascii.

(** A string literal. *)
Definition lit (s : String.string) : str := list_ascii_of_string s.

(** [len(s)] *)
Definition len {A} (s : list A) : Z := Z.of_nat (List.length s).
Arguments len {A} s : simpl never.

(** Bound of a slice with step one: a negative bound counts from the end,
    and the result is clamped to [0, len]. *)
Definition slice_bound (n i : Z) : Z :=
  if i <? 0 then Z.max 0 (i + n) else Z.min i n.

(** [s[:i]] *)
Definition slice_to {A} (s : list A) (i : Z) : list A :=
  firstn (Z.to_nat (slice_bound (len s) i)) s.

(** [s[i:]] *)
Definition slice_from {A} (s : list A) (i : Z) : list A :=
  skipn (Z.to_nat (slice_bound (len s) i)) s.

(** [s[i:j]] *)
Definition slice {A} (s : list A) (i j : Z) : list A :=
  let a := slice_bound (len s) i in
  let b := slice_bound (len s) j in
  firstn (Z.to_nat (b - a)) (skipn (Z.to_nat a) s).

(** [s[i]]: a negative index counts from the end; an IndexError outside
    the list. *)
Definition item_at {A} (s : list A) (i : Z) : option A :=
  let j := if i <? 0 then i + len s else i in
  if (0 <=? j) && (j <? len s) then nth_error s (Z.to_nat j) else None.

(** [chr(k)] for a code below 256. *)
Definition chr (k : Z) : Ascii.ascii := ascii_of_N (Z.to_N k).

(** [ord('t')] *)
Definition ord_t : Z := 116.

(** ** class Rect

    [app] and [screen] are handles every rectangle of a frame shares; the
    geometry is the four integers. *)

Record Rect := mkRect { x : Z; y : Z; w : Z; h : Z }.

(** [rect.sub_rect(dx, dy, w, h)] *)
Definition sub_rect (self : Rect) (dx dy w' h' : Z) : Rect :=
  mkRect (x self + dx) (y self + dy) w' h'.

(** [rect.adj_rect(dx, dy, dw, dh)] *)
Definition adj_rect (self : Rect) (dx dy dw dh : Z) : Rect :=
  sub_rect self dx dy (w self - dx - dw) (h self - dy - dh).

(** ** The View classes

    The screen is the list of [addstr] calls made on it, latest first; a
    call is recorded with the colours and attribute it was given. *)

Record Addstr := mkAddstr {
  at_y : Z; at_x : Z; shown : str; with_fg : Z; with_bg : Z; with_attr : Z
}.

Definition Screen := list Addstr.

(** What [Horizontal] asks of its children: [size(rect)] and
    [display(rect)]. *)
Module View.
Class t (V : Type) := {
  size : V -> Rect -> Z * Z;
  display : V -> Rect -> Screen -> Screen
}.
End View.

Module Display.

Record t := mk { text : str; min_width : Z; fg : Z; bg : Z; attr : Z }.

(** [Display.size] *)
Definition size (self : t) (rect : Rect) : Z * Z :=
  (Z.max (min_width self) (len (text self)), 1).

(** [Display.disp] *)
Definition disp (self : t) (rect : Rect) (scr : Screen) : Screen :=
  let print_width := Z.max 0 (w rect) in
  if (print_width >? 0) && (h rect >? 0) then
    mkAddstr (y rect) (x rect) (slice_to (text self) print_width)
             (fg self) (bg self) (attr self) :: scr
  else scr.

End Display.

#[export] Instance Display_View : View.t Display.t :=
  {| View.size := Display.size; View.display := Display.disp |}.

Module HFill.

Record t := mk { char : str; fg : Z; bg : Z }.

(** [HFill.size] *)
Definition size (self : t) (rect : Rect) : Z * Z := (w rect, 1).

(** [char * n] *)
Definition repeat_str (c : str) (n : Z) : str :=
  List.concat (repeat c (Z.to_nat n)).

(** [HFill.disp] *)
Definition disp (self : t) (rect : Rect) (scr : Screen) : Screen :=
  mkAddstr (y rect) (x rect) (repeat_str (char self) (w rect))
           (fg self) (bg self) 0 :: scr.

End HFill.

#[export] Instance HFill_View : View.t HFill.t :=
  {| View.size := HFill.size; View.display := HFill.disp |}.

(** [sum(l)] *)
Definition sum (l : list Z) : Z := fold_right Z.add 0 l.

(** [max(l)]; it raises a ValueError on the empty list. *)
Definition maximum (l : list Z) : option Z :=
  match l with
  | [] => None
  | a :: rest => Some (fold_left Z.max rest a)
  end.

Module Horizontal.

Record t (V : Type) := mk { views : list V; margin : Z }.
Arguments mk {V}.
Arguments views {V}.
Arguments margin {V}.

Section Methods.
Context {V : Type} `{View.t V}.

(** The first loop of [size]: the list [sizes], each child measured
    against the rectangle the children before it left. *)
Fixpoint measure (vs : list V) (rect : Rect) : list (Z * Z) :=
  match vs with
  | [] => []
  | v :: rest =>
      let s := View.size v rect in
      s :: measure rest (adj_rect rect (fst s) 0 0 0)
  end.

(** [Horizontal.size] *)
Definition size (self : t V) (rect : Rect) : option (Z * Z) :=
  let sizes := measure (views self) rect in
  let widths := map fst sizes in
  let heights := map snd sizes in
  match maximum heights with
  | None => None
  | Some mh =>
      Some (sum widths + Z.max (len (views self) - 1) 0 * margin self, mh)
  end.

(** The loop of [disp]. *)
Fixpoint disp_loop (vs : list V) (m : Z) (rect : Rect) (scr : Screen) : Screen :=
  match vs with
  | [] => scr
  | v :: rest =>
      let scr := View.display v rect scr in
      let dx := fst (View.size v rect) + m in
      disp_loop rest m (adj_rect rect dx 0 0 0) scr
  end.

(** [Horizontal.disp] *)
Definition disp (self : t V) (rect : Rect) (scr : Screen) : Screen :=
  disp_loop (views self) (margin self) rect scr.

(** The [v.display(rect)] calls the loop of [disp] makes, in order. *)
Fixpoint calls (vs : list V) (m : Z) (rect : Rect) : list (V * Rect) :=
  match vs with
  | [] => []
  | v :: rest =>
      (v, rect) :: calls rest m (adj_rect rect (fst (View.size v rect) + m) 0 0 0)
  end.

(** The measured size of each view is [(width v, height v)] whatever
    the rectangle. *)
Definition fixed_size (width height : V -> Z) (vs : list V) : Prop :=
  forall v r, In v vs -> View.size v r = (width v, height v).

End Methods.

End Horizontal.

Module Vertical.

Record t (V : Type) := mk { views : list V; margin : Z }.
Arguments mk {V}.
Arguments views {V}.
Arguments margin {V}.

Section Methods.
Context {V : Type} `{View.t V}.

(** The first loop of [size]: each child measured against the rectangle
    the children above it left. *)
Fixpoint measure (vs : list V) (rect : Rect) : list (Z * Z) :=
  match vs with
  | [] => []
  | v :: rest =>
      let s := View.size v rect in
      s :: measure rest (adj_rect rect 0 (snd s) 0 0)
  end.

(** [Vertical.size] *)
Definition size (self : t V) (rect : Rect) : option (Z * Z) :=
  let sizes := measure (views self) rect in
  let widths := map fst sizes in
  let heights := map snd sizes in
  match maximum widths with
  | None => None
  | Some mw =>
      Some (mw, sum heights + Z.max (len (views self) - 1) 0 * margin self)
  end.

(** The loop of [disp]. *)
Fixpoint disp_loop (vs : list V) (m : Z) (rect : Rect) (scr : Screen) : Screen :=
  match vs with
  | [] => scr
  | v :: rest =>
      let scr := View.display v rect scr in
      let dy := snd (View.size v rect) + m in
      disp_loop rest m (adj_rect rect 0 dy 0 0) scr
  end.

(** [Vertical.disp] *)
Definition disp (self : t V) (rect : Rect) (scr : Screen) : Screen :=
  disp_loop (views self) (margin self) rect scr.

(** The [v.display(rect)] calls the loop of [disp] makes, in order. *)
Fixpoint calls (vs : list V) (m : Z) (rect : Rect) : list (V * Rect) :=
  match vs with
  | [] => []
  | v :: rest =>
      (v, rect) :: calls rest m (adj_rect rect 0 (snd (View.size v rect) + m) 0 0)
  end.

End Methods.

End Vertical.

(** A list of results, when none of them is an exception. *)
Fixpoint all_some {A} (l : list (option A)) : option (list A) :=
  match l with
  | [] => Some []
  | None :: _ => None
  | Some a :: rest =>
      match all_some rest with
      | Some r => Some (a :: r)
      | None => None
      end
  end.

Module Grid.

(** [col_widths] and [row_heights] are the attributes [size] sets and
    [disp] reads; [None] as long as [size] has not been called. *)
Record t (V : Type) := mk {
  grid : list (list V);
  h_margin : Z;
  align_right : bool;
  col_widths : option (list Z);
  row_heights : option (list Z)
}.
Arguments mk {V}.
Arguments grid {V}.
Arguments h_margin {V}.
Arguments align_right {V}.
Arguments col_widths {V}.
Arguments row_heights {V}.

(** [Grid(grid, h_margin, align_right)] *)
Definition init {V} (g : list (list V)) (hm : Z) (ar : bool) : t V :=
  mk g hm ar None None.

Section Methods.
Context {V : Type} `{View.t V}.

(** [max(size_grid[i][col_nr][0] for i in range(len(size_grid)))]; an
    IndexError when a row has no cell [col_nr]. *)
Definition col_width (size_grid : list (list (Z * Z))) (col_nr : nat) : option Z :=
  match all_some (map (fun row => option_map fst (nth_error row col_nr)) size_grid) with
  | Some ws => maximum ws
  | None => None
  end.

(** [Grid.size]; it returns the Grid with its two attributes set. *)
Definition size (self : t V) (rect : Rect) : option (t V * (Z * Z)) :=
  let size_grid := map (map (fun col => View.size col rect)) (grid self) in
  match size_grid with
  | [] => None
  | row0 :: _ =>
      let cols := List.length row0 in
      match all_some (map (col_width size_grid) (seq 0 cols)) with
      | None => None
      | Some cws =>
          match all_some (map (fun row => maximum (map snd row)) size_grid) with
          | None => None
          | Some rhs =>
              Some (mk (grid self) (h_margin self) (align_right self)
                       (Some cws) (Some rhs),
                    (sum cws + (len cws - 1) * h_margin self, sum rhs))
          end
      end
  end.

(** The inner loop of [disp], over the cells of one row from column [i]
    on: the [cell.display(rrect)] calls it makes.  [rect] is the rectangle
    of the Grid, [rrect] the one the row has reached. *)
Fixpoint row_calls (self : t V) (rect : Rect) (cells : list V) (i : nat)
         (rrect : Rect) : option (list (V * Rect)) :=
  match cells with
  | [] => Some []
  | cell :: rest =>
      match col_widths self with
      | None => None
      | Some cws =>
          match nth_error cws i with
          | None => None
          | Some col_width =>
              let cell_size := View.size cell rect in
              let rrect :=
                if align_right self then adj_rect rrect (col_width - fst cell_size) 0 0 0
                else rrect in
              match row_calls self rect rest (S i)
                              (adj_rect rrect (fst cell_size + h_margin self) 0 0 0) with
              | None => None
              | Some cs => Some ((cell, rrect) :: cs)
              end
          end
      end
  end.

(** The outer loop of [disp], over the rows from row [j] on. *)
Fixpoint rows_calls (self : t V) (rect : Rect) (rows : list (list V)) (j : nat)
  : option (list (list (V * Rect))) :=
  match rows with
  | [] => Some []
  | row :: rest =>
      match row_heights self with
      | None => None
      | Some rhs =>
          let rrect := adj_rect rect 0 (sum (slice_to rhs (Z.of_nat j))) 0 0 in
          match row_calls self rect row 0 rrect with
          | None => None
          | Some cs =>
              match rows_calls self rect rest (S j) with
              | None => None
              | Some css => Some (cs :: css)
              end
          end
      end
  end.

(** The [cell.display(rrect)] calls of [disp], row by row. *)
Definition calls (self : t V) (rect : Rect) : option (list (list (V * Rect))) :=
  rows_calls self rect (grid self) 0.

(** [Grid.disp]: an exception of the loops leaves the screen as the
    calls before it made it; what is returned then is [None]. *)
Definition disp (self : t V) (rect : Rect) (scr : Screen) : option Screen :=
  match calls self rect with
  | None => None
  | Some css =>
      Some (fold_left (fun s c => View.display (fst c) (snd c) s) (List.concat css) scr)
  end.

End Methods.

End Grid.

(** A list of views of two classes. *)
#[export] Instance Sum_View {A B : Type} `{View.t A} `{View.t B} : View.t (A + B) :=
  {| View.size := fun v rect =>
       match v with inl a => View.size a rect | inr b => View.size b rect end;
     View.display := fun v rect scr =>
       match v with inl a => View.display a rect scr | inr b => View.display b rect scr end |}.

(** ** Object identity

    Every Python object has an address; [is] and the default [==] compare
    addresses.  An [App], a [Layer] and a [Control] are objects of three
    different classes. *)

Definition addr := Z.

Inductive ref :=
| AppRef
| LayerRef (l : addr)
| CtrlRef (a : addr).

Definition ref_eqb (r1 r2 : ref) : bool :=
  match r1, r2 with
  | AppRef, AppRef => true
  | LayerRef a, LayerRef b => a =? b
  | CtrlRef a, CtrlRef b => a =? b
  | _, _ => false
  end.

(** ** class Event *)

Inductive EventType := key_event | blur_event | focus_event.

Definition EventType_eqb (a b : EventType) : bool :=
  match a, b with
  | key_event, key_event | blur_event, blur_event | focus_event, focus_event => true
  | _, _ => false
  end.

(** [key] and [what] both start as the constructor's [what] argument; it
    is [None] for the blur and focus events that [Layer.focus] builds.
    [ev.app] is the application the event is dispatched in; it is passed
    to the handlers as an argument of its own. *)
Record Event := mkEvent {
  type : EventType;
  key : option Z;
  what : option Z;
  target : ref;
  last : option ref;
  propagating : bool
}.

(** [Event(type, what, target, app)] *)
Definition Event_init (ty : EventType) (w : option Z) (tgt : ref) : Event :=
  mkEvent ty w w tgt None true.

(** [ev.stop()] *)
Definition stop (ev : Event) : Event :=
  mkEvent (type ev) (key ev) (what ev) (target ev) (last ev) false.

Definition set_key (ev : Event) (k : Z) : Event :=
  mkEvent (type ev) (Some k) (what ev) (target ev) (last ev) (propagating ev).

Definition set_last (ev : Event) (r : ref) : Event :=
  mkEvent (type ev) (key ev) (what ev) (target ev) (Some r) (propagating ev).

(** [x == c] for an attribute that may be [None]. *)
Definition is_code (x : option Z) (c : Z) : bool :=
  match x with Some k => k =? c | None => false end.

(** [x in [c1, ..., cn]] *)
Definition code_in (x : option Z) (cs : list Z) : bool :=
  existsb (is_code x) cs.

(** [is_enter(ev)] *)
Definition is_enter (ev : Event) : bool :=
  code_in (key ev) [curses.KEY_ENTER; ALT_ENTER].

(** The event the run loop builds for a keystroke [c]:
    [Event('key', c, self.active_layer.focused, self)]. *)
Definition press (c : Z) (tgt : ref) : Event := Event_init key_event (Some c) tgt.

(** ** class Edit *)

Module Edit.

Record t := mk { value : str; cursor : Z }.

(** [Edit(value)] *)
Definition init (v : str) : t := mk v (len v).

Definition on_ctrl_a (st : t * Event) : t * Event :=
  let '(self, ev) := st in
  if is_code (key ev) CTRL_A then (mk (value self) 0, stop ev) else st.

Definition on_ctrl_e (st : t * Event) : t * Event :=
  let '(self, ev) := st in
  if is_code (key ev) CTRL_E then (mk (value self) (len (value self)), stop ev)
  else st.

Definition on_backspace (st : t * Event) : t * Event :=
  let '(self, ev) := st in
  if code_in (key ev) [curses.KEY_BACKSPACE; ALT_BS] then
    let v := slice_to (value self) (cursor self) ++ slice_from (value self) (cursor self) in
    (mk v (Z.max 0 (cursor self - 1)), stop ev)
  else st.

Definition on_delete (st : t * Event) : t * Event :=
  let '(self, ev) := st in
  if is_code (key ev) curses.ascii.DEL then
    let v := slice_to (value self) (cursor self)
             ++ slice_from (value self) (cursor self + 1) in
    (mk v (cursor self), stop ev)
  else st.

Definition on_left (st : t * Event) : t * Event :=
  let '(self, ev) := st in
  if is_code (key ev) curses.KEY_LEFT && (cursor self >? 0) then
    (mk (value self) (cursor self - 1), stop ev)
  else st.

Definition on_right (st : t * Event) : t * Event :=
  let '(self, ev) := st in
  if is_code (key ev) curses.KEY_RIGHT && (cursor self <? len (value self)) then
    (mk (value self) (cursor self + 1), stop ev)
  else st.

Definition on_enter (st : t * Event) : t * Event :=
  let '(self, ev) := st in
  if is_enter ev then (self, set_key ev curses.ascii.TAB) else st.

(** [32 <= ev.key < 127] raises a TypeError when the key is [None]. *)
Definition on_printable (st : t * Event) : option (t * Event) :=
  let '(self, ev) := st in
  match key ev with
  | None => None
  | Some k =>
      if (32 <=? k) && (k <? 127) then
        let v := slice_to (value self) (cursor self) ++ [chr k]
                 ++ slice_from (value self) (cursor self) in
        Some (mk v (cursor self + 1), stop ev)
      else Some st
  end.

(** [Edit.on_event]: the eight [if] statements run one after the other
    on the state the previous ones left. *)
Definition on_event (self : t) (ev : Event) : option (t * Event) :=
  if EventType_eqb (type ev) key_event then
    on_printable
      (on_enter (on_right (on_left (on_delete (on_backspace
        (on_ctrl_e (on_ctrl_a (self, ev))))))))
  else Some (self, ev).

(** Delivering a list of events in order. *)
Fixpoint run (self : t) (evs : list Event) : option t :=
  match evs with
  | [] => Some self
  | ev :: rest =>
      match on_event self ev with
      | Some (self', _) => run self' rest
      | None => None
      end
  end.

(** [0 <= cursor <= len(value)] *)
Definition cursor_ok (self : t) : Prop := 0 <= cursor self <= len (value self).

(** A key event carries a key code (the run loop passes [getch()]'s integer). *)
Definition has_code (ev : Event) : Prop := type ev = key_event -> key ev <> None.

(** [Edit.render(app)]; [focus] is [app.contains_focus(self)]. *)
Definition render (focus : bool) (self : t)
  : option (Horizontal.t Display.t + Display.t) :=
  if focus then
    match (if cursor self <? len (value self)
           then option_map (fun c => [c]) (item_at (value self) (cursor self))
           else Some (lit " ")) with
    | None => None
    | Some hi =>
        Some (inl (Horizontal.mk
                     [Display.mk (slice_to (value self) (cursor self)) 0 white black
                                 curses.A_UNDERLINE;
                      Display.mk hi 0 white black curses.A_REVERSE;
                      Display.mk (slice_from (value self) (cursor self + 1)) 0 white black
                                 curses.A_UNDERLINE]
                     0))
    end
  else Some (inr (Display.mk (value self) 0 white black 0)).

End Edit.

(** ** class SelectList *)

Module SelectList.

Record t := mk {
  choices : list str;
  index : Z;
  width : Z;
  height : Z;
  scroll_offset : Z
}.

(** [SelectList(choices, index, width, height)] *)
Definition init (cs : list str) (i w h : Z) : t :=
  mk cs i w h (Z.max 0 (Z.min i (len cs - h))).

(** The defaults [width=30, height=10]. *)
Definition init_default (cs : list str) (i : Z) : t := init cs i 30 10.

Definition on_up (st : t * Event) : t * Event :=
  let '(self, ev) := st in
  if is_code (key ev) curses.KEY_UP && (0 <? index self) then
    let i := index self - 1 in
    (mk (choices self) i (width self) (height self) (Z.min (scroll_offset self) i),
     stop ev)
  else st.

Definition on_down (st : t * Event) : t * Event :=
  let '(self, ev) := st in
  if is_code (key ev) curses.KEY_DOWN && (index self <? len (choices self) - 1) then
    let i := index self + 1 in
    (mk (choices self) i (width self) (height self)
        (Z.max (scroll_offset self) (i - height self + 1)),
     stop ev)
  else st.

(** [SelectList.on_event] *)
Definition on_event (self : t) (ev : Event) : t * Event :=
  if EventType_eqb (type ev) key_event then on_down (on_up (self, ev))
  else (self, ev).

(** Delivering a list of events in order. *)
Definition run (self : t) (evs : list Event) : t :=
  fold_left (fun s ev => fst (on_event s ev)) evs self.

(** The window invariant: [0 <= scroll_offset <= max(0, N - H)] and
    [scroll_offset <= index <= scroll_offset + H - 1], for N choices and
    height H. *)
Definition window_ok (self : t) : Prop :=
  0 <= scroll_offset self <= Z.max 0 (len (choices self) - height self) /\
  scroll_offset self <= index self <= scroll_offset self + height self - 1.

(** [SelectList.value] *)
Definition value (self : t) : option str := item_at (choices self) (index self).

(** [SelectList.render(app)] *)
Definition render (self : t) : option (Vertical.t Display.t) :=
  let lines := slice (choices self) (scroll_offset self)
                     (scroll_offset self + height self) in
  let lines := lines ++ repeat [] (Z.to_nat (height self - len lines)) in
  let i_hi := index self - scroll_offset self in
  let plain := fun l => Display.mk l (width self) white black 0 in
  match item_at lines i_hi with
  | None => None
  | Some hi =>
      Some (Vertical.mk
              (map plain (slice_to lines i_hi)
               ++ [Display.mk hi (width self) white black curses.A_STANDOUT]
               ++ map plain (slice_from lines (i_hi + 1)))
              0)
  end.

End SelectList.

(** ** The [datetime] module

    [datetime.datetime], [datetime.timedelta] and their addition belong to
    the Python standard library.  Dates are proleptic Gregorian; the
    conversions between a date and its ordinal (days since 0001-01-01,
    which is day 1) and the range check of the addition are the
    library's. *)

Module datetime.

Definition MINYEAR : Z := 1.
Definition MAXYEAR : Z := 9999.
Definition MAXORDINAL : Z := 3652059.

Definition DAYS_IN_MONTH : list Z :=
  [-1; 31; 28; 31; 30; 31; 30; 31; 31; 30; 31; 30; 31].
Definition DAYS_BEFORE_MONTH : list Z :=
  [-1; 0; 31; 59; 90; 120; 151; 181; 212; 243; 273; 304; 334].

(** [l[i]] for an index inside the list. *)
Definition item (l : list Z) (i : Z) : Z := nth (Z.to_nat i) l 0.

Definition is_leap (year : Z) : bool :=
  (year mod 4 =? 0) && (negb (year mod 100 =? 0) || (year mod 400 =? 0)).

Definition days_before_year (year : Z) : Z :=
  let y := year - 1 in y * 365 + y / 4 - y / 100 + y / 400.

Definition days_in_month (year month : Z) : Z :=
  if (month =? 2) && is_leap year then 29 else item DAYS_IN_MONTH month.

Definition days_before_month (year month : Z) : Z :=
  item DAYS_BEFORE_MONTH month + (if (month >? 2) && is_leap year then 1 else 0).

Definition ymd2ord (year month day : Z) : Z :=
  days_before_year year + days_before_month year month + day.

Definition DI400Y : Z := 146097.
Definition DI100Y : Z := 36524.
Definition DI4Y : Z := 1461.

(** The end of [_ord2ymd]: month and day of the [n]-th day, from 0, of a
    year. *)
Definition month_day (n : Z) (leapyear : bool) : Z * Z :=
  let month := Z.shiftr (n + 50) 5 in
  let preceding := item DAYS_BEFORE_MONTH month
                   + (if (month >? 2) && leapyear then 1 else 0) in
  let '(month, preceding) :=
    if preceding >? n then
      (month - 1,
       preceding - (item DAYS_IN_MONTH (month - 1)
                    + (if (month - 1 =? 2) && leapyear then 1 else 0)))
    else (month, preceding) in
  (month, n - preceding + 1).

Definition ord2ymd (n : Z) : Z * Z * Z :=
  let n := n - 1 in
  let n400 := n / DI400Y in
  let n := n mod DI400Y in
  let year := n400 * 400 + 1 in
  let n100 := n / DI100Y in
  let n := n mod DI100Y in
  let n4 := n / DI4Y in
  let n := n mod DI4Y in
  let n1 := n / 365 in
  let n := n mod 365 in
  let year := year + (n100 * 100 + n4 * 4 + n1) in
  if (n1 =? 4) || (n100 =? 4) then (year - 1, 12, 31)
  else
    let leapyear := (n1 =? 3) && (negb (n4 =? 24) || (n100 =? 3)) in
    let '(month, day) := month_day n leapyear in
    (year, month, day).

(** A check of [month_day] on one day of a year: the day found lies in
    the month found, whose first day is the right number of days into the
    year. *)
Definition month_day_check (leap : bool) (r : nat) : bool :=
  let n := Z.of_nat r in
  let '(m, d) := month_day n leap in
  (item DAYS_BEFORE_MONTH m + (if (m >? 2) && leap then 1 else 0) + d =? n + 1)
  && (1 <=? m) && (m <=? 12) && (1 <=? d)
  && (d <=? (if (m =? 2) && leap then 29 else item DAYS_IN_MONTH m)).

Record t := mk {
  year : Z; month : Z; day : Z;
  hour : Z; minute : Z; second : Z; microsecond : Z
}.

(** What the constructor of [datetime] checks. *)
Definition valid (d : t) : Prop :=
  MINYEAR <= year d <= MAXYEAR /\ 1 <= month d <= 12 /\
  1 <= day d <= days_in_month (year d) (month d) /\
  0 <= hour d < 24 /\ 0 <= minute d < 60 /\ 0 <= second d < 60 /\
  0 <= microsecond d < 1000000.

Definition toordinal (d : t) : Z := ymd2ord (year d) (month d) (day d).

(** A normalised [timedelta]. *)
Record timedelta := mkdelta { days : Z; seconds : Z; microseconds : Z }.

(** [timedelta(days=d)] and [timedelta(weeks=w)] *)
Definition timedelta_days (d : Z) : timedelta := mkdelta d 0 0.
Definition timedelta_weeks (w : Z) : timedelta := mkdelta (7 * w) 0 0.

(** [self + other]: the date and time become one timedelta, [other] is
    added, the sum is normalised and converted back; an OverflowError is
    raised when the day leaves [1, MAXORDINAL]. *)
Definition add (self : t) (other : timedelta) : option t :=
  let us := microsecond self + microseconds other in
  let s := hour self * 3600 + minute self * 60 + second self
           + seconds other + us / 1000000 in
  let d := toordinal self + days other + s / 86400 in
  let us := us mod 1000000 in
  let s := s mod 86400 in
  let rem := s mod 3600 in
  if (0 <? d) && (d <=? MAXORDINAL) then
    let '(y, m, dd) := ord2ymd d in
    Some (mk y m dd (s / 3600) (rem / 60) (rem mod 60) us)
  else None.

End datetime.

(** ** class SelectDate

    [now] is what [datetime.datetime.now()] returns when the event is
    handled. *)

Module SelectDate.

Record t := mk { value : datetime.t }.

(** [SelectDate(value)]: [value or datetime.datetime.now()] *)
Definition init (now : datetime.t) (v : option datetime.t) : t :=
  match v with Some d => mk d | None => mk now end.

(** One [if ev.what == c: self.value = ...; ev.stop()] statement. *)
Definition on_what (c : Z) (f : datetime.t -> option datetime.t)
           (st : t * Event) : option (t * Event) :=
  let '(self, ev) := st in
  if is_code (what ev) c then
    match f (value self) with
    | Some v => Some (mk v, stop ev)
    | None => None
    end
  else Some st.

Definition then_ {A B} (f : A -> option B) (x : option A) : option B :=
  match x with Some a => f a | None => None end.

(** [SelectDate.on_event] *)
Definition on_event (now : datetime.t) (self : t) (ev : Event) : option (t * Event) :=
  if EventType_eqb (type ev) key_event then
    let plus delta := fun v => datetime.add v delta in
    then_ (on_what curses.KEY_DOWN (plus (datetime.timedelta_weeks 1)))
    (then_ (on_what curses.KEY_UP (plus (datetime.timedelta_weeks (-1))))
    (then_ (on_what curses.KEY_RIGHT (plus (datetime.timedelta_days 1)))
    (then_ (on_what curses.KEY_LEFT (plus (datetime.timedelta_days (-1))))
    (on_what ord_t (fun _ => Some now) (self, ev)))))
  else Some (self, ev).

(** The handler moves the value by [k] days: to the valid datetime whose
    ordinal is [k] more, at the same time of day, stopping the event, when
    that ordinal is in [1, MAXORDINAL]; otherwise it raises. *)
Definition moves_by (now : datetime.t) (self : t) (ev : Event) (k : Z) : Prop :=
  let n := datetime.toordinal (value self) + k in
  (1 <= n <= datetime.MAXORDINAL ->
   exists v,
     on_event now self ev = Some (mk v, stop ev) /\
     datetime.toordinal v = n /\ datetime.valid v /\
     datetime.hour v = datetime.hour (value self) /\
     datetime.minute v = datetime.minute (value self) /\
     datetime.second v = datetime.second (value self) /\
     datetime.microsecond v = datetime.microsecond (value self)) /\
  (~ 1 <= n <= datetime.MAXORDINAL -> on_event now self ev = None).

(** [datetime.datetime(y, m, d)] *)
Definition date (y m d : Z) : datetime.t := datetime.mk y m d 0 0 0 0.

End SelectDate.

(** ** The Control classes

    A control is a node of the widget tree: its address, the attributes its
    class gives it, and its child controls.  The attributes only [render]
    reads ([fg], [bg], [id], a Panel's caption) are left out.  A bound
    method kept as a callback is the address of the object it is bound
    to. *)

Inductive callback :=
| Combo_cb (self : addr)       (* [combo.on_popup_close] *)
| DateCombo_cb (self : addr).  (* [date_combo.on_popup_close] *)

Module Combo.
(** [last_combo] is the rectangle the Display of the last [render] was
    displayed at; [None] before the first frame, when reading
    [self.last_combo.rect] raises an AttributeError. *)
Record t := mk { choices : list str; index : Z; last_combo : option Rect }.

(** [Combo(choices, index)] *)
Definition init (cs : list str) (i : Z) : t := mk cs i None.
End Combo.

Module DateCombo.
Record t := mk { value : datetime.t; last_combo : option Rect }.
End DateCombo.

Inductive Control :=
| Text (a : addr) (text : str)
| Panel (a : addr) (controls : list Control)
| Labeled (a : addr) (label : str) (control : Control)
| SelectList (a : addr) (s : SelectList.t)
| SelectDate (a : addr) (s : SelectDate.t)
| Composite (a : addr) (controls : list Control) (margin : Z)
| Popup (a : addr) (x y : Z) (inner : Control) (on_close : callback) (caption : str)
| Combo (a : addr) (s : Combo.t)
| DateCombo (a : addr) (s : DateCombo.t)
| Edit (a : addr) (s : Edit.t).

(** The address of a control. *)
Definition addr_of (c : Control) : addr :=
  match c with
  | Text a _ | Panel a _ | Labeled a _ _ | SelectList a _ | SelectDate a _
  | Composite a _ _ | Popup a _ _ _ _ _ | Combo a _ | DateCombo a _ | Edit a _ => a
  end.

(** [ctrl.can_focus], as the constructors set it. *)
Definition can_focus (c : Control) : bool :=
  match c with
  | SelectList _ _ | SelectDate _ _ | Combo _ _ | DateCombo _ _ | Edit _ _ => true
  | Text _ _ | Panel _ _ | Labeled _ _ _ | Composite _ _ _ | Popup _ _ _ _ _ _ => false
  end.

(** [ctrl.children()] *)
Definition children (c : Control) : list Control :=
  match c with
  | Panel _ cs | Composite _ cs _ => cs
  | Labeled _ _ ch | Popup _ _ _ ch _ _ => [ch]
  | Text _ _ | SelectList _ _ | SelectDate _ _ | Combo _ _ | DateCombo _ _
  | Edit _ _ => []
  end.

(** [self.contains(ctrl)], [ctrl] being the object at that address. *)
Fixpoint contains (self : Control) (ctrl : addr) : bool :=
  if addr_of self =? ctrl then true
  else
    match self with
    | Panel _ cs | Composite _ cs _ => existsb (fun child => contains child ctrl) cs
    | Labeled _ _ ch | Popup _ _ _ ch _ _ => existsb (fun child => contains child ctrl) [ch]
    | Text _ _ | SelectList _ _ | SelectDate _ _ | Combo _ _ | DateCombo _ _
    | Edit _ _ => false
    end.

(** Induction on a control with the hypothesis for all its children. *)
Fixpoint Control_children_ind (P : Control -> Prop)
         (H : forall c, Forall P (children c) -> P c) (c : Control) : P c :=
  let each :=
    fix each (l : list Control) : Forall P l :=
      match l with
      | [] => Forall_nil P
      | ch :: rest => Forall_cons ch (Control_children_ind P H ch) (each rest)
      end in
  H c (match c return Forall P (children c) with
       | Panel _ cs => each cs
       | Composite _ cs _ => each cs
       | Labeled _ _ ch => each [ch]
       | Popup _ _ _ ch _ _ => each [ch]
       | Text _ _ | SelectList _ _ | SelectDate _ _ | Combo _ _ | DateCombo _ _
       | Edit _ _ => Forall_nil P
       end).

(** ** class Layer and class App *)

Record Layer := mkLayer { lid : addr; root : Control; focused : addr }.

(** [exit] and the stack of layers, the active one last.  [next_addr] is
    the address the next object built while handling an event gets. *)
Record App := mkApp { exit : bool; layers : list Layer; next_addr : addr }.

(** The objects [object_tree] walks. *)
Inductive obj :=
| AppObj
| LayerObj (l : Layer)
| CtrlObj (c : Control).

Definition ref_of (o : obj) : ref :=
  match o with
  | AppObj => AppRef
  | LayerObj l => LayerRef (lid l)
  | CtrlObj c => CtrlRef (addr_of c)
  end.

(** [o.children()] for the three classes. *)
Definition obj_children (app : App) (o : obj) : list obj :=
  match o with
  | AppObj => map LayerObj (layers app)
  | LayerObj l => [CtrlObj (root l)]
  | CtrlObj c => map CtrlObj (children c)
  end.

(** ** object_tree

    The generator pops a parent, yields each [(parent, child)] and pushes
    the children so that the first one is popped next.  [object_tree_loop]
    is that loop, its stack with the top first. *)
Fixpoint object_tree_loop (fuel : nat) (app : App) (stack : list obj)
  : list (option ref * obj) :=
  match fuel with
  | O => []
  | S n =>
      match stack with
      | [] => []
      | parent :: stack' =>
          let cs := obj_children app parent in
          map (fun child => (Some (ref_of parent), child)) cs
          ++ object_tree_loop n app (cs ++ stack')
      end
  end.

(** What the loop yields below a control: the pairs of its children, then
    what is yielded below each child in turn. *)
Fixpoint expand (c : Control) : list (option ref * obj) :=
  map (fun child => (Some (CtrlRef (addr_of c)), CtrlObj child)) (children c)
  ++ match c with
     | Panel _ cs | Composite _ cs _ => flat_map expand cs
     | Labeled _ _ ch | Popup _ _ _ ch _ _ => expand ch ++ []
     | Text _ _ | SelectList _ _ | SelectDate _ _ | Combo _ _ | DateCombo _ _
     | Edit _ _ => []
     end.

Definition expand_layer (l : Layer) : list (option ref * obj) :=
  (Some (LayerRef (lid l)), CtrlObj (root l)) :: expand (root l).

(** [object_tree(layer)] and [object_tree(app)] *)
Definition object_tree_layer (l : Layer) : list (option ref * obj) :=
  (None, LayerObj l) :: expand_layer l.

Definition object_tree (app : App) : list (option ref * obj) :=
  (None, AppObj)
  :: map (fun l => (Some AppRef, LayerObj l)) (layers app)
  ++ flat_map expand_layer (layers app).

(** What the loop yields below any object, and the number of objects at
    and below it (the turns the loop takes for it). *)
Definition expand_obj (app : App) (o : obj) : list (option ref * obj) :=
  match o with
  | AppObj =>
      map (fun l => (Some AppRef, LayerObj l)) (layers app)
      ++ flat_map expand_layer (layers app)
  | LayerObj l => expand_layer l
  | CtrlObj c => expand c
  end.

Fixpoint count (c : Control) : nat :=
  S match c with
    | Panel _ cs | Composite _ cs _ => list_sum (map count cs)
    | Labeled _ _ ch | Popup _ _ _ ch _ _ => count ch + 0
    | Text _ _ | SelectList _ _ | SelectDate _ _ | Combo _ _ | DateCombo _ _
    | Edit _ _ => 0
    end.

Definition count_obj (app : App) (o : obj) : nat :=
  match o with
  | AppObj => S (list_sum (map (fun l => S (count (root l))) (layers app)))
  | LayerObj l => S (count (root l))
  | CtrlObj c => count c
  end.

(** [x.can_focus] for the objects [object_tree(layer)] yields; a Layer
    sets its own to False. *)
Definition obj_can_focus (o : obj) : bool :=
  match o with
  | CtrlObj c => can_focus c
  | LayerObj _ | AppObj => false
  end.

Module Layer.

(** [Layer.focus].  The blur and focus events it sends to the old and
    the new focused control are handled without any effect
    ([on_event_blur_focus] below), so they do not appear here. *)
Fixpoint focus (self : Layer) (ctrl : Control) : Layer * bool :=
  if can_focus ctrl then (mkLayer (lid self) (root self) (addr_of ctrl), true)
  else
    let each :=
      fix each (cs : list Control) : Layer * bool :=
        match cs with
        | [] => (self, false)
        | child :: rest =>
            let r := focus self child in
            if snd r then (fst r, true) else each rest
        end in
    match ctrl with
    | Panel _ cs | Composite _ cs _ => each cs
    | Labeled _ _ ch | Popup _ _ _ ch _ _ => each [ch]
    | Text _ _ | SelectList _ _ | SelectDate _ _ | Combo _ _ | DateCombo _ _
    | Edit _ _ => (self, false)
    end.

(** The first [child] of the pairs with [child.can_focus]. *)
Definition first_focusable (pairs : list (option ref * obj)) : option Control :=
  match find (fun pc => obj_can_focus (snd pc)) pairs with
  | Some (_, CtrlObj c) => Some c
  | _ => None
  end.

(** [Layer._focus_first] *)
Definition _focus_first (self : Layer) : Layer :=
  match first_focusable (object_tree_layer self) with
  | Some child => fst (focus self child)
  | None => self
  end.

(** [Layer._focus_last] *)
Definition _focus_last (self : Layer) : Layer :=
  match first_focusable (rev (object_tree_layer self)) with
  | Some child => fst (focus self child)
  | None => self
  end.

(** [Layer(root)], built at address [l]. *)
Definition init (l : addr) (root : Control) : Layer :=
  _focus_first (mkLayer l root (addr_of root)).

End Layer.

(** [l[-1]]; an IndexError on the empty list. *)
Definition last_item {A} (l : list A) : option A :=
  match rev l with
  | [] => None
  | a :: _ => Some a
  end.

(** Writing the new state [new] of a control back at its address. *)
Fixpoint replace (new : Control) (c : Control) : Control :=
  if addr_of c =? addr_of new then new
  else
    match c with
    | Panel b cs => Panel b (map (replace new) cs)
    | Composite b cs m => Composite b (map (replace new) cs) m
    | Labeled b l ch => Labeled b l (replace new ch)
    | Popup b x y ch cb cap => Popup b x y (replace new ch) cb cap
    | Text _ _ | SelectList _ _ | SelectDate _ _ | Combo _ _ | DateCombo _ _
    | Edit _ _ => c
    end.

Module App.

(** [App(root)]; the Layer is built at address [fresh]. *)
Definition init (root : Control) (fresh : addr) : App :=
  mkApp false [Layer.init fresh root] (fresh + 1).

(** [app.active_layer] *)
Definition active_layer (self : App) : option Layer := last_item (layers self).

(** [app.push_layer(control)] *)
Definition push_layer (self : App) (control : Control) : App :=
  mkApp (exit self)
        (layers self ++ [Layer.init (next_addr self) control])
        (next_addr self + 1).

(** [app.pop_layer()] *)
Definition pop_layer (self : App) : option App :=
  match layers self with
  | [] => None
  | _ => Some (mkApp (exit self) (removelast (layers self)) (next_addr self))
  end.

(** The first pair of [object_tree(app)] whose child is the object [r]. *)
Definition find_pair (self : App) (r : ref) : option (option ref * obj) :=
  find (fun pc => ref_eqb (ref_of (snd pc)) r) (object_tree self).

(** [app.get_parent(ctrl)] *)
Definition get_parent (self : App) (ctrl : ref) : option ref :=
  match find_pair self ctrl with
  | Some (parent, _) => parent
  | None => None
  end.

(** The object at a reference, in its current state. *)
Definition lookup (self : App) (r : ref) : option obj :=
  match find_pair self r with
  | Some (_, o) => Some o
  | None => None
  end.

(** The loop of [find_ancestor]; the outer [None] is a loop that has not
    ended within [fuel] steps. *)
Fixpoint find_ancestor_loop (fuel : nat) (self : App) (ctrl : option ref)
         (set : list ref) : option (option ref) :=
  match ctrl with
  | None => Some None
  | Some c =>
      if existsb (ref_eqb c) set then Some (Some c)
      else
        match fuel with
        | O => None
        | S n => find_ancestor_loop n self (get_parent self c) set
        end
  end.

(** [app.find_ancestor(ctrl, set)] *)
Definition find_ancestor (self : App) (ctrl : option ref) (set : list ref)
  : option (option ref) :=
  find_ancestor_loop (List.length (object_tree self)) self ctrl set.

(** [app.layer(ctrl)] *)
Definition layer (self : App) (ctrl : ref) : option (option ref) :=
  find_ancestor self (Some ctrl) (map (fun l => LayerRef (lid l)) (layers self)).

(** [app.contains_focus(ctrl)] *)
Definition contains_focus (self : App) (ctrl : ref) : option bool :=
  match active_layer self with
  | None => None
  | Some l =>
      match find_ancestor self (Some (CtrlRef (focused l))) [ctrl] with
      | None => None
      | Some (Some _) => Some true
      | Some None => Some false
      end
  end.

(** A control mutated in place: every layer sees its new state. *)
Definition store (self : App) (new : Control) : App :=
  mkApp (exit self)
        (map (fun l => mkLayer (lid l) (replace new (root l)) (focused l))
             (layers self))
        (next_addr self).

(** [layer.focus(ctrl)] on the layer at address [l]. *)
Definition focus_in (self : App) (l : addr) (ctrl : Control) : App * bool :=
  match find (fun x => lid x =? l) (layers self) with
  | None => (self, false)
  | Some x =>
      let r := Layer.focus x ctrl in
      (mkApp (exit self)
             (map (fun z => if lid z =? l then fst r else z) (layers self))
             (next_addr self),
       snd r)
  end.

(** A method applied to the active layer. *)
Definition on_active_layer (f : Layer -> Layer) (self : App) : option App :=
  match active_layer self with
  | None => None
  | Some l =>
      Some (mkApp (exit self) (removelast (layers self) ++ [f l]) (next_addr self))
  end.

End App.

(** ** The event handlers

    [on_event] of each class, on the application the event is dispatched
    in ([ev.app]). *)

(** [l.index(x)]; a ValueError when [x] is not in the list. *)
Fixpoint index_of (r : ref) (cs : list Control) : option Z :=
  match cs with
  | [] => None
  | c :: rest =>
      if ref_eqb (CtrlRef (addr_of c)) r then Some 0
      else match index_of r rest with
           | Some i => Some (1 + i)
           | None => None
           end
  end.

(** The [while] loop of [Panel.on_event] and of [Composite.on_event]:
    step [i] backwards or forwards and try to focus [controls[i]], until
    the index leaves the list or the event is stopped.  [self] is the
    address of the Panel or Composite. *)
Fixpoint focus_scan (fuel : nat) (app : App) (self : addr) (controls : list Control)
         (back : bool) (i : Z) (ev : Event) : option (App * Event) :=
  if (0 <=? i) && (i <? len controls) && propagating ev then
    match fuel with
    | O => None
    | S n =>
        let i := i + (if back then -1 else 1) in
        if (0 <=? i) && (i <? len controls) then
          match App.layer app (CtrlRef self), nth_error controls (Z.to_nat i) with
          | Some (Some (LayerRef l)), Some ctrl =>
              let r := App.focus_in app l ctrl in
              focus_scan n (fst r) self controls back i (if snd r then stop ev else ev)
          | _, _ => None
          end
        else focus_scan n app self controls back i ev
    end
  else Some (app, ev).

(** The body both classes run once the key is one of theirs. *)
Definition focus_move (app : App) (self : addr) (controls : list Control)
           (back : bool) (ev : Event) : option (App * Event) :=
  match App.find_ancestor app (last ev) (map (fun c => CtrlRef (addr_of c)) controls) with
  | None => None
  | Some None => Some (app, ev)
  | Some (Some current) =>
      match index_of current controls with
      | None => None
      | Some i => focus_scan (S (List.length controls)) app self controls back i ev
      end
  end.

(** [Panel.on_event] *)
Definition Panel_on_event (app : App) (self : addr) (controls : list Control)
           (ev : Event) : option (App * Event) :=
  if code_in (key ev) [curses.KEY_UP; curses.KEY_DOWN; curses.ascii.TAB; SHIFT_TAB] then
    focus_move app self controls (code_in (key ev) [curses.KEY_UP; SHIFT_TAB]) ev
  else Some (app, ev).

(** [Composite.on_event] *)
Definition Composite_on_event (app : App) (self : addr) (controls : list Control)
           (ev : Event) : option (App * Event) :=
  if EventType_eqb (type ev) key_event then
    if code_in (key ev)
               [curses.KEY_LEFT; SHIFT_TAB; curses.KEY_RIGHT; curses.ascii.TAB] then
      focus_move app self controls (code_in (key ev) [curses.KEY_LEFT; SHIFT_TAB]) ev
    else Some (app, ev)
  else Some (app, ev).

(** [popup.inner.index]; an AttributeError for a control without one. *)
Definition inner_index (inner : Control) : option Z :=
  match inner with
  | SelectList _ s => Some (SelectList.index s)
  | Combo _ s => Some (Combo.index s)
  | _ => None
  end.

(** [popup.inner.value] when it is a datetime. *)
Definition inner_value (inner : Control) : option datetime.t :=
  match inner with
  | SelectDate _ s => Some (SelectDate.value s)
  | DateCombo _ s => Some (DateCombo.value s)
  | _ => None
  end.

(** [Combo.on_popup_close(success, popup)], [self] being the Combo at
    address [c]. *)
Definition Combo_on_popup_close (app : App) (c : addr) (success : bool)
           (inner : Control) : option App :=
  if success then
    match inner_index inner with
    | None => None
    | Some i =>
        match App.lookup app (CtrlRef c) with
        | Some (CtrlObj (Combo a s)) =>
            Some (App.store app
                    (Combo a (Combo.mk (Combo.choices s) i (Combo.last_combo s))))
        | _ => Some app
        end
    end
  else Some app.

(** [DateCombo.on_popup_close(success, popup)] *)
Definition DateCombo_on_popup_close (app : App) (c : addr) (success : bool)
           (inner : Control) : option App :=
  if success then
    match inner_value inner with
    | None => None
    | Some v =>
        match App.lookup app (CtrlRef c) with
        | Some (CtrlObj (DateCombo a s)) =>
            Some (App.store app (DateCombo a (DateCombo.mk v (DateCombo.last_combo s))))
        | _ => Some app
        end
    end
  else Some app.

(** [self.on_close(success, self)] of a Popup. *)
Definition call_on_close (app : App) (cb : callback) (success : bool)
           (inner : Control) : option App :=
  match cb with
  | Combo_cb c => Combo_on_popup_close app c success inner
  | DateCombo_cb c => DateCombo_on_popup_close app c success inner
  end.

Definition bind {A B} (x : option A) (f : A -> option B) : option B :=
  match x with Some a => f a | None => None end.

(** [Popup.on_event] *)
Definition Popup_on_event (app : App) (inner : Control) (cb : callback)
           (ev : Event) : option (App * Event) :=
  if EventType_eqb (type ev) key_event then
    bind (if is_code (key ev) curses.ascii.ESC then
            bind (call_on_close app cb false inner) App.pop_layer
          else Some app)
         (fun app =>
            bind (if is_enter ev then
                    bind (call_on_close app cb true inner) App.pop_layer
                  else Some app)
                 (fun app => Some (app, ev)))
  else Some (app, ev).

(** [Popup(x, y, inner, on_close).show(app)] for an [inner] just built at
    the next free address; the Popup takes the address after it. *)
Definition show_popup (app : App) (rect : Rect) (inner : addr -> Control)
           (cb : callback) : App :=
  let px := Z.max 0 (x rect - 2) in
  let py := Z.max 0 (y rect - 1) in
  let n := next_addr app in
  let popup := Popup (n + 1) px py (inner n) cb [] in
  App.push_layer (mkApp (exit app) (layers app) (n + 2)) popup.

(** [Combo.on_event] *)
Definition Combo_on_event (app : App) (self : addr) (s : Combo.t) (ev : Event)
  : option (App * Event) :=
  if EventType_eqb (type ev) key_event && is_enter ev then
    match Combo.last_combo s with
    | None => None
    | Some rect =>
        Some (show_popup app rect
                (fun n => SelectList n
                            (SelectList.init_default (Combo.choices s) (Combo.index s)))
                (Combo_cb self),
              ev)
    end
  else Some (app, ev).

(** [DateCombo.on_event] *)
Definition DateCombo_on_event (now : datetime.t) (app : App) (self : addr)
           (s : DateCombo.t) (ev : Event) : option (App * Event) :=
  if EventType_eqb (type ev) key_event && is_enter ev then
    match DateCombo.last_combo s with
    | None => None
    | Some rect =>
        Some (show_popup app rect
                (fun n => SelectDate n (SelectDate.init now (Some (DateCombo.value s))))
                (DateCombo_cb self),
              ev)
    end
  else Some (app, ev).

(** [App.on_event] *)
Definition App_on_event (app : App) (ev : Event) : option (App * Event) :=
  let '(app, ev) :=
    if code_in (key ev) [curses.ascii.ESC] then
      (mkApp true (layers app) (next_addr app), stop ev)
    else (app, ev) in
  bind (if code_in (key ev) [curses.KEY_DOWN; curses.ascii.TAB] then
          App.on_active_layer Layer._focus_first app
        else Some app)
       (fun app =>
          bind (if code_in (key ev) [curses.KEY_UP; SHIFT_TAB] then
                  App.on_active_layer Layer._focus_last app
                else Some app)
               (fun app => Some (app, ev))).

(** [tgt.on_event(ev)] for the object [tgt]; [now] is the current date and
    time. *)
Definition on_event (now : datetime.t) (app : App) (tgt : obj) (ev : Event)
  : option (App * Event) :=
  match tgt with
  | AppObj => App_on_event app ev
  | LayerObj _ => Some (app, ev)
  | CtrlObj (Text _ _) | CtrlObj (Labeled _ _ _) => Some (app, ev)
  | CtrlObj (Panel a cs) => Panel_on_event app a cs ev
  | CtrlObj (Composite a cs _) => Composite_on_event app a cs ev
  | CtrlObj (SelectList a s) =>
      let r := SelectList.on_event s ev in
      Some (App.store app (SelectList a (fst r)), snd r)
  | CtrlObj (SelectDate a s) =>
      bind (SelectDate.on_event now s ev)
           (fun r => Some (App.store app (SelectDate a (fst r)), snd r))
  | CtrlObj (Edit a s) =>
      bind (Edit.on_event s ev)
           (fun r => Some (App.store app (Edit a (fst r)), snd r))
  | CtrlObj (Popup _ _ _ inner cb _) => Popup_on_event app inner cb ev
  | CtrlObj (Combo a s) => Combo_on_event app a s ev
  | CtrlObj (DateCombo a s) => DateCombo_on_event now app a s ev
  end.

(** The loop of [App.dispatch_event]; [None] is an exception raised by a
    handler, or a loop that has not ended within [fuel] steps. *)
Fixpoint dispatch_loop (fuel : nat) (now : datetime.t) (app : App) (ev : Event)
         (tgt : option ref) : option (App * Event) :=
  match tgt with
  | None => Some (app, ev)
  | Some r =>
      if propagating ev then
        match fuel with
        | O => None
        | S n =>
            bind (App.lookup app r)
                 (fun o =>
                    bind (on_event now app o ev)
                         (fun st =>
                            let app := fst st in
                            let ev := set_last (snd st) r in
                            dispatch_loop n now app ev (App.get_parent app r)))
        end
      else Some (app, ev)
  end.

(** [app.dispatch_event(ev)] *)
Definition dispatch_event (fuel : nat) (now : datetime.t) (app : App) (ev : Event)
  : option (App * Event) :=
  dispatch_loop fuel now app ev (Some (target ev)).

(** One keystroke [c] of [App.run]:
    [dispatch_event(Event('key', c, self.active_layer.focused, self))]. *)
Definition keystroke (fuel : nat) (now : datetime.t) (app : App) (c : Z)
  : option App :=
  bind (App.active_layer app)
       (fun l =>
          bind (dispatch_event fuel now app (press c (CtrlRef (focused l))))
               (fun st => Some (fst st))).

(** ** Vocabulary of the properties *)

(** A control and everything below it, parents first. *)
Fixpoint nodes (c : Control) : list Control :=
  c :: match c with
       | Panel _ cs | Composite _ cs _ => flat_map nodes cs
       | Labeled _ _ ch | Popup _ _ _ ch _ _ => nodes ch
       | Text _ _ | SelectList _ _ | SelectDate _ _ | Combo _ _ | DateCombo _ _
       | Edit _ _ => []
       end.

(** Every control of every layer. *)
Definition app_nodes (app : App) : list Control :=
  flat_map (fun l => nodes (root l)) (layers app).

(** [focused] is the root, or a control of the layer's tree (the root or a
    descendant) with [can_focus]. *)
Definition layer_ok (l : Layer) : Prop :=
  focused l = addr_of (root l) \/
  exists c, In c (nodes (root l)) /\ addr_of c = focused l /\ can_focus c = true.

(** The object graph is a forest: no control sits at two places, no two
    layers are the same object, and the addresses in use are below the next
    free one. *)
Definition wf (app : App) : Prop :=
  NoDup (map addr_of (app_nodes app)) /\
  NoDup (map lid (layers app)) /\
  (forall c, In c (app_nodes app) -> addr_of c < next_addr app) /\
  (forall l, In l (layers app) -> lid l < next_addr app).

(** What the focus sees of a tree: the address and [can_focus] of each
    control, parents first. *)
Definition sig (c : Control) : list (addr * bool) :=
  map (fun x => (addr_of x, can_focus x)) (nodes c).

(** The invariant of an application between two events. *)
Definition app_ok (app : App) : Prop :=
  wf app /\ Forall layer_ok (layers app).

(** The application once the Combo at address [a], displayed at [rect],
    has shown its popup and the SelectList inside is in state [sel]. *)
Definition combo_popup (app : App) (a : addr) (rect : Rect) (sel : SelectList.t) : App :=
  show_popup app rect (fun n => SelectList n sel) (Combo_cb a).

(** The Popup of that state and its layer, focused on the SelectList. *)
Definition combo_popup_ctrl (app : App) (a : addr) (rect : Rect) (sel : SelectList.t)
  : Control :=
  Popup (next_addr app + 1) (Z.max 0 (x rect - 2)) (Z.max 0 (y rect - 1))
        (SelectList (next_addr app) sel) (Combo_cb a) [].

Definition combo_popup_layer (app : App) (a : addr) (rect : Rect) (sel : SelectList.t)
  : Layer :=
  mkLayer (next_addr app + 2) (combo_popup_ctrl app a rect sel) (next_addr app).

(** Two layers that are the same object with the same shape of tree, the
    second with its focus in order if the first has. *)
Definition same_shape (l l' : Layer) : Prop :=
  lid l' = lid l /\ sig (root l') = sig (root l) /\ (layer_ok l -> layer_ok l').

(** Keystrokes one after the other. *)
Fixpoint keystrokes (fuel : nat) (now : datetime.t) (app : App) (cs : list Z)
  : option App :=
  match cs with
  | [] => Some app
  | c :: rest => bind (keystroke fuel now app c) (fun app => keystrokes fuel now app rest)
  end.

(** The controls that are Popups. *)
Definition is_popup (c : Control) : bool :=
  match c with Popup _ _ _ _ _ _ => true | _ => false end.

(** An event with another [last]. *)
Definition with_last (ev : Event) (l : option ref) : Event :=
  mkEvent (type ev) (key ev) (what ev) (target ev) l (propagating ev).

(** [climbs app Q r n]: [n] steps of [get_parent] lead from the object
    [r] up to the App, through objects that satisfy [Q]. *)
Inductive climbs (app : App) (Q : obj -> Prop) : ref -> nat -> Prop :=
| climbs_app : climbs app Q AppRef O
| climbs_step r p o n :
    In (Some p, o) (object_tree app) -> ref_of o = r -> Q o ->
    climbs app Q p n -> climbs app Q r (S n).

(** The objects that only pass Enter on: layers and the controls that hold
    other controls. *)
Definition passive (o : obj) : Prop :=
  match o with
  | LayerObj _ => True
  | CtrlObj (Panel _ _) | CtrlObj (Labeled _ _ _) | CtrlObj (Composite _ _ _) => True
  | _ => False
  end.

(** The application with the layer at address [l] focused on the control
    at address [a]. *)
Definition focus_on (app : App) (l : addr) (a : addr) : App :=
  mkApp (exit app)
        (map (fun z => if lid z =? l then mkLayer (lid z) (root z) a else z)
             (layers app))
        (next_addr app).

(** The siblings the loop of [Panel.on_event] and [Composite.on_event]
    tries after [controls[i]], in the order it tries them. *)
Definition siblings_after (back : bool) (controls : list Control) (i : nat)
  : list Control :=
  if back then rev (firstn i controls) else skipn (S i) controls.

(** ** The colour pairs of the App

    [color_cache] and [color_counter] are two fields of the App no event
    handler touches; they are kept in a record of their own.  The dict is
    the list of its items; [pairs] is the list of the [curses.init_pair]
    calls that returned, latest first.  [curses.init_pair] belongs to the
    library and raises on the arguments the terminal does not take:
    [accepts pair fg bg] tells whether the call returns. *)

Module Colors.

Record t := mk {
  color_cache : list ((Z * Z) * Z);
  color_counter : Z;
  pairs : list (Z * Z * Z)
}.

(** The two fields as [App.__init__] sets them. *)
Definition init : t := mk [] 1 [].

(** [color_cache[tup]]; a KeyError when the key is missing. *)
Definition lookup (cache : list ((Z * Z) * Z)) (tup : Z * Z) : option Z :=
  match find (fun kv => (fst (fst kv) =? fst tup) && (snd (fst kv) =? snd tup)) cache with
  | Some kv => Some (snd kv)
  | None => None
  end.



End Colors.

(** ** render of the classes that build a Horizontal

    The views of the child controls, [c.render(app)], are given. *)

(** [Labeled.render(app)]; [focus] is [app.contains_focus(self)], [inner]
    is [self.control.render(app)]. *)
Definition Labeled_render {V : Type} (focus : bool) (label : str) (inner : V)
  : Horizontal.t (Display.t + V) :=
  let fg := if focus then white else green in
  let attr := if focus then curses.A_BOLD else 0 in
  Horizontal.mk [inl (Display.mk label 16 fg black attr); inr inner] 0.

(** [Composite.render(app)]; [xs] is [[c.render(app) for c in
    self.controls]]. *)
Definition Composite_render {V : Type} (xs : list V) (margin : Z)
  : Horizontal.t (V + Display.t) :=
  let m := Display.mk (HFill.repeat_str (lit " ") margin) 0 white black 0 in
  let rendered := flat_map (fun x => [inl x; inr m]) xs in
  Horizontal.mk rendered 0.

(** The write is inside the rectangle: on one of its rows, from one of its
    columns on, and not past its right edge. *)
Definition inside (rect : Rect) (a : Addstr) : Prop :=
  y rect <= at_y a < y rect + h rect /\
  x rect <= at_x a /\ at_x a + len (shown a) <= x rect + w rect.

(** The control [c] has no use for the key [k]: none of the tests of its
    handler holds ([key_ignored] below).  A Text has no handler of its
    own. *)
Definition ignores (c : Control) (k : Z) : bool :=
  match c with
  | Text _ _ => true
  | SelectList _ s =>
      negb ((k =? curses.KEY_UP) && (0 <? SelectList.index s))
      && negb ((k =? curses.KEY_DOWN)
               && (SelectList.index s <? len (SelectList.choices s) - 1))
  | SelectDate _ _ =>
      negb (existsb (Z.eqb k)
                    [ord_t; curses.KEY_LEFT; curses.KEY_RIGHT; curses.KEY_UP;
                     curses.KEY_DOWN])
  | Combo _ _ | DateCombo _ _ =>
      negb (existsb (Z.eqb k) [curses.KEY_ENTER; ALT_ENTER])
  | Edit _ s =>
      negb (existsb (Z.eqb k)
                    [CTRL_A; CTRL_E; curses.KEY_BACKSPACE; ALT_BS; curses.ascii.DEL;
                     curses.KEY_ENTER; ALT_ENTER])
      && negb ((k =? curses.KEY_LEFT) && (Edit.cursor s >? 0))
      && negb ((k =? curses.KEY_RIGHT) && (Edit.cursor s <? len (Edit.value s)))
      && negb ((32 <=? k) && (k <? 127))
  | Panel _ _ | Labeled _ _ _ | Composite _ _ _ | Popup _ _ _ _ _ _ => false
  end.

(** The direction in which a Panel moves the focus on the key [k], and a
    Composite: [Some true] is backwards. *)
Definition Panel_direction (k : Z) : option bool :=
  if (k =? curses.KEY_UP) || (k =? SHIFT_TAB) then Some true
  else if (k =? curses.KEY_DOWN) || (k =? curses.ascii.TAB) then Some false
  else None.

Definition Composite_direction (k : Z) : option bool :=
  if (k =? curses.KEY_LEFT) || (k =? SHIFT_TAB) then Some true
  else if (k =? curses.KEY_RIGHT) || (k =? curses.ascii.TAB) then Some false
  else None.


(** [rises app Q top r n]: [n] steps of [get_parent] lead from the object
    [r] up to the object [top], through objects below [top] that satisfy
    [Q]. *)
Inductive rises (app : App) (Q : obj -> Prop) (top : ref) : ref -> nat -> Prop :=
| rises_top : rises app Q top top O
| rises_step r p o n :
    In (Some p, o) (object_tree app) -> ref_of o = r -> Q o ->
    rises app Q top p n -> rises app Q top r (S n).

(** The objects that are not Popups. *)
Definition not_popup (o : obj) : Prop :=
  forall c, o = CtrlObj c -> is_popup c = false.

(** Every Popup that closes for a DateCombo holds a control whose [value]
    is a datetime, as the Popups a DateCombo opens do. *)
Definition dated (app : App) : Prop :=
  forall a x y inner c cap,
    In (Popup a x y inner (DateCombo_cb c) cap) (app_nodes app) ->
    inner_value inner <> None.

(** A Popup is the control at address [a] or holds it, among [c] and the
    controls below it. *)
Definition popup_holds (c : Control) (a : addr) : bool :=
  existsb (fun q => is_popup q && contains q a) (nodes c).

(* ====================================================================== *)
(** * Part II -- theorems                                                  *)
(* ====================================================================== *)

(** ** Slices *)

Example slice_to_hello : slice_to (lit "hello") 4 = lit "hell".
Proof. reflexivity. Qed.

Example slice_negative : slice_from (lit "hello") (-2) = lit "lo".
Proof. reflexivity. Qed.

Lemma len_nonneg {A} (s : list A) : 0 <= len s.
Proof. unfold len; lia. Qed.

Lemma len_app {A} (s1 s2 : list A) : len (s1 ++ s2) = len s1 + len s2.
Proof. unfold len; rewrite length_app; lia. Qed.

Lemma len_cons {A} (x : A) (s : list A) : len (x :: s) = 1 + len s.
Proof. unfold len; cbn [List.length]; lia. Qed.

Lemma slice_bound_nonneg n i : 0 <= n -> 0 <= i -> slice_bound n i = Z.min i n.
Proof. intros Hn Hi; unfold slice_bound; destruct (Z.ltb_spec i 0); lia. Qed.

Lemma slice_to_from {A} (s : list A) i : slice_to s i ++ slice_from s i = s.
Proof. apply firstn_skipn. Qed.

Lemma len_slice_to {A} (s : list A) i :
  0 <= i -> len (slice_to s i) = Z.min i (len s).
Proof.
  intros Hi; unfold slice_to.
  rewrite slice_bound_nonneg by (auto using len_nonneg).
  unfold len; rewrite length_firstn; lia.
Qed.

Lemma len_slice_from {A} (s : list A) i :
  0 <= i -> len (slice_from s i) = len s - Z.min i (len s).
Proof.
  intros Hi; unfold slice_from.
  rewrite slice_bound_nonneg by (auto using len_nonneg).
  unfold len; rewrite length_skipn; lia.
Qed.

(** Inside the string the two slices are [firstn] and [skipn]. *)
Lemma slice_to_firstn {A} (s : list A) i :
  0 <= i <= len s -> slice_to s i = firstn (Z.to_nat i) s.
Proof.
  intros Hi; unfold slice_to; rewrite slice_bound_nonneg by lia.
  f_equal; lia.
Qed.

Lemma slice_from_skipn {A} (s : list A) i :
  0 <= i -> slice_from s i = skipn (Z.to_nat i) s.
Proof.
  intros Hi; unfold slice_from.
  rewrite slice_bound_nonneg by (auto using len_nonneg).
  destruct (Z.le_ge_cases i (len s)) as [H|H].
  - f_equal; lia.
  - rewrite !skipn_all2; auto; unfold len in *; lia.
Qed.

(** ** Horizontal *)

Section HorizontalFacts.
Context {V : Type} `{View.t V}.
Import Horizontal.

Lemma adj_rect_0 rect : adj_rect rect 0 0 0 0 = rect.
Proof.
  destruct rect; unfold adj_rect, sub_rect; simpl. f_equal; lia.
Qed.

Lemma adj_rect_twice rect a b :
  adj_rect (adj_rect rect a 0 0 0) b 0 0 0 = adj_rect rect (a + b) 0 0 0.
Proof.
  destruct rect; unfold adj_rect, sub_rect; simpl. f_equal; lia.
Qed.

Lemma disp_loop_calls vs m : forall rect scr,
  disp_loop vs m rect scr
  = fold_left (fun s c => View.display (fst c) (snd c) s) (calls vs m rect) scr.
Proof.
  induction vs as [|v vs IH]; intros rect scr; simpl; [reflexivity|].
  apply IH.
Qed.

Variables (width height : V -> Z).
Local Abbreviation fixed_size := (Horizontal.fixed_size width height).

Lemma fixed_size_tail v vs : fixed_size (v :: vs) -> fixed_size vs.
Proof. intros Hf u r Hu; apply Hf; right; exact Hu. Qed.

Lemma measure_fixed vs : forall rect,
  fixed_size vs -> measure vs rect = map (fun v => (width v, height v)) vs.
Proof.
  induction vs as [|v vs IH]; intros rect Hf; simpl; [reflexivity|].
  rewrite (Hf v rect (or_introl eq_refl)). f_equal.
  apply IH. exact (fixed_size_tail _ _ Hf).
Qed.

Lemma calls_fixed vs m : forall rect i v,
  fixed_size vs -> nth_error vs i = Some v ->
  nth_error (calls vs m rect) i
  = Some (v, adj_rect rect (sum (map (fun u => width u + m) (firstn i vs))) 0 0 0).
Proof.
  induction vs as [|u vs IH]; intros rect i v Hf Hi.
  - destruct i; discriminate.
  - destruct i as [|i]; simpl in *.
    + inversion Hi; subst. rewrite adj_rect_0. reflexivity.
    + rewrite (IH _ i v (fixed_size_tail _ _ Hf) Hi).
      rewrite (Hf u rect (or_introl eq_refl)); simpl.
      rewrite adj_rect_twice. reflexivity.
Qed.

(** C9: for a Horizontal of n >= 1 views whose measured sizes
    [(width v, height v)] do not depend on the rectangle, with margin m,
    [size] returns the width [w1 + ... + wn + m * (n - 1)] (and the
    greatest height); [disp] displays the children in order, child i in
    the parent rectangle moved right by the sum of [wj + m] over the
    children j before i. *)
Theorem Horizontal_width_and_offsets :
  forall (self : Horizontal.t V) (rect : Rect),
    views self <> [] -> fixed_size (views self) ->
    (exists mh,
        maximum (map height (views self)) = Some mh /\
        Horizontal.size self rect
        = Some (sum (map width (views self)) + margin self * (len (views self) - 1),
                mh)) /\
    (forall scr,
        Horizontal.disp self rect scr
        = fold_left (fun s c => View.display (fst c) (snd c) s)
                    (calls (views self) (margin self) rect) scr) /\
    (forall i v,
        nth_error (views self) i = Some v ->
        let off := sum (map (fun u => width u + margin self) (firstn i (views self))) in
        nth_error (calls (views self) (margin self) rect) i
        = Some (v, adj_rect rect off 0 0 0) /\
        x (adj_rect rect off 0 0 0) = x rect + off /\
        y (adj_rect rect off 0 0 0) = y rect).
Proof.
  intros [vs m] rect Hne Hf; simpl in *. split; [|split].
  - unfold Horizontal.size; cbn [views margin].
    rewrite (measure_fixed vs rect Hf). rewrite !map_map; cbn [fst snd].
    destruct vs as [|v vs]; [congruence|]. cbn [map maximum].
    eexists; split; [reflexivity|].
    rewrite len_cons. pose proof (len_nonneg vs).
    replace (Z.max (1 + len vs - 1) 0) with (1 + len vs - 1) by lia.
    apply f_equal. apply f_equal2; [|reflexivity].
    apply f_equal2; [reflexivity|ring].
  - intros scr. apply disp_loop_calls.
  - intros i v Hi; cbv zeta. split; [|split].
    + apply calls_fixed; assumption.
    + destruct rect; simpl; reflexivity.
    + destruct rect; simpl; lia.
Qed.

End HorizontalFacts.

Lemma Horizontal_width_and_offsets_witness :
  let ab := Display.mk (lit "ab") 0 7 0 0 in
  let cde := Display.mk (lit "cde") 5 7 0 0 in
  let self := Horizontal.mk [ab; cde; ab] 1 in
  let rect := mkRect 10 3 80 24 in
  Horizontal.size self rect = Some (2 + 5 + 2 + 1 * 2, 1) /\
  nth_error (Horizontal.calls (Horizontal.views self) 1 rect) 2
  = Some (ab, mkRect (10 + (2 + 1) + (5 + 1)) 3 (80 - 9) 24).
Proof.
  cbv zeta.
  destruct (Horizontal_width_and_offsets
              (fun v => fst (Display.size v (mkRect 0 0 0 0))) (fun _ => 1)
              (Horizontal.mk [Display.mk (lit "ab") 0 7 0 0;
                              Display.mk (lit "cde") 5 7 0 0;
                              Display.mk (lit "ab") 0 7 0 0] 1)
              (mkRect 10 3 80 24))
    as ((mh & Hmh & Hsize) & _ & Hcalls).
  - simpl; discriminate.
  - intros v r _; reflexivity.
  - split.
    + vm_compute in Hmh. inversion Hmh; subst mh. exact Hsize.
    + exact (proj1 (Hcalls 2%nat _ eq_refl)).
Defined.

(** ** Edit *)

Module EditFacts.
Import Edit.

Ltac step_cases :=
  match goal with
  | |- context [if ?b then _ else _] => destruct b eqn:?
  end.

Lemma on_ctrl_a_ok st : cursor_ok (fst st) -> cursor_ok (fst (on_ctrl_a st)).
Proof.
  destruct st as [self ev]; unfold on_ctrl_a, cursor_ok; simpl; intros H.
  step_cases; simpl; auto. pose proof (len_nonneg (value self)); lia.
Qed.

Lemma on_ctrl_e_ok st : cursor_ok (fst st) -> cursor_ok (fst (on_ctrl_e st)).
Proof.
  destruct st as [self ev]; unfold on_ctrl_e, cursor_ok; simpl; intros H.
  step_cases; simpl; auto. pose proof (len_nonneg (value self)); lia.
Qed.

Lemma on_backspace_ok st : cursor_ok (fst st) -> cursor_ok (fst (on_backspace st)).
Proof.
  destruct st as [self ev]; unfold on_backspace, cursor_ok; simpl; intros H.
  step_cases; simpl; auto. rewrite slice_to_from; lia.
Qed.

Lemma on_delete_ok st : cursor_ok (fst st) -> cursor_ok (fst (on_delete st)).
Proof.
  destruct st as [self ev]; unfold on_delete, cursor_ok; simpl; intros H.
  step_cases; simpl; auto.
  rewrite len_app, len_slice_to, len_slice_from by lia. lia.
Qed.

Lemma on_left_ok st : cursor_ok (fst st) -> cursor_ok (fst (on_left st)).
Proof.
  destruct st as [self ev]; unfold on_left, cursor_ok; simpl; intros H.
  step_cases; simpl; auto.
  apply andb_prop in Heqb; destruct Heqb as [_ Hc]; lia.
Qed.

Lemma on_right_ok st : cursor_ok (fst st) -> cursor_ok (fst (on_right st)).
Proof.
  destruct st as [self ev]; unfold on_right, cursor_ok; simpl; intros H.
  step_cases; simpl; auto.
  apply andb_prop in Heqb; destruct Heqb as [_ Hc]; lia.
Qed.

Lemma on_enter_ok st : cursor_ok (fst st) -> cursor_ok (fst (on_enter st)).
Proof.
  destruct st as [self ev]; unfold on_enter; simpl; intros H.
  step_cases; simpl; auto.
Qed.

Lemma on_printable_ok st r :
  cursor_ok (fst st) -> on_printable st = Some r -> cursor_ok (fst r).
Proof.
  destruct st as [self ev]; unfold on_printable, cursor_ok; simpl; intros H.
  destruct (key ev) as [k|]; [|discriminate].
  step_cases; intros E; inversion E; subst; simpl; auto.
  rewrite len_app, len_cons, len_slice_to, len_slice_from by lia. lia.
Qed.

Lemma on_event_cursor_ok self ev r :
  cursor_ok self -> on_event self ev = Some r -> cursor_ok (fst r).
Proof.
  intros H; unfold on_event.
  destruct (EventType_eqb (type ev) key_event).
  - apply on_printable_ok.
    apply on_enter_ok, on_right_ok, on_left_ok, on_delete_ok, on_backspace_ok,
      on_ctrl_e_ok, on_ctrl_a_ok; exact H.
  - intros E; inversion E; exact H.
Qed.

(** None of the first seven statements removes the key code. *)
Lemma key_kept (f : t * Event -> t * Event) st :
  In f [on_ctrl_a; on_ctrl_e; on_backspace; on_delete; on_left; on_right; on_enter] ->
  key (snd st) <> None -> key (snd (f st)) <> None.
Proof.
  destruct st as [self ev]; simpl.
  intros [<-|[<-|[<-|[<-|[<-|[<-|[<-|[]]]]]]]] Hk; cbv beta delta
    [on_ctrl_a on_ctrl_e on_backspace on_delete on_left on_right on_enter] iota;
    step_cases; simpl; auto; discriminate.
Qed.

Lemma on_event_returns self ev :
  has_code ev -> exists r, on_event self ev = Some r.
Proof.
  intros Hc; unfold on_event.
  destruct (EventType_eqb (type ev) key_event) eqn:Ety; [|eauto].
  assert (Hk : key ev <> None) by (apply Hc; destruct (type ev); auto; discriminate).
  match goal with |- exists r, on_printable ?s = _ => set (st := s) end.
  assert (Hst : key (snd st) <> None).
  { subst st. repeat (apply key_kept; [simpl; tauto|]). exact Hk. }
  destruct st as [s e]; unfold on_printable; simpl in *.
  destruct (key e); [|congruence].
  destruct ((32 <=? z) && (z <? 127)); eauto.
Qed.

Lemma run_ok self evs :
  cursor_ok self -> Forall has_code evs ->
  exists self', run self evs = Some self' /\ cursor_ok self'.
Proof.
  intros H Hall; revert self H.
  induction Hall as [|ev evs Hev _ IH]; intros self H; simpl.
  - eauto.
  - destruct (on_event_returns self ev Hev) as [[s e] Hr].
    rewrite Hr. apply IH. exact (on_event_cursor_ok _ _ _ H Hr).
Qed.

(** C6: an Edit whose cursor lies in [0, len(value)] keeps it there under
    every event [on_event] handles, whatever the key (printable, backspace,
    delete, left, right, ctrl-A, ctrl-E, enter or any other code); so the
    bound holds after any finite sequence of events, each of which is
    handled without raising. *)
Theorem Edit_cursor_stays_in_value :
  forall (self : t) (evs : list Event),
    cursor_ok self -> Forall has_code evs ->
    exists self', run self evs = Some self' /\ cursor_ok self'.
Proof. intros self evs H Hall. apply run_ok; assumption. Qed.

Lemma Edit_cursor_stays_in_value_witness :
  exists self',
    run (init (lit "hello"))
        (map (fun k => press k (CtrlRef 0))
             [curses.KEY_LEFT; 120; curses.KEY_BACKSPACE; curses.ascii.DEL;
              CTRL_A; curses.ascii.DEL; CTRL_E; curses.KEY_RIGHT; ALT_ENTER])
    = Some self' /\ cursor_ok self'.
Proof.
  apply Edit_cursor_stays_in_value.
  - unfold cursor_ok; vm_compute; split; discriminate.
  - repeat constructor; intros _; discriminate.
Defined.

(** With [KEY_BACKSPACE] only the third statement of [on_event] fires: the
    value is rebuilt from its two halves, unchanged, and the cursor moves
    one place to the left. *)
Lemma key_backspace_keeps_value self tgt :
  cursor_ok self ->
  on_event self (press curses.KEY_BACKSPACE tgt)
  = Some (mk (value self) (Z.max 0 (cursor self - 1)),
          stop (press curses.KEY_BACKSPACE tgt)).
Proof.
  intros H. unfold on_event, press, Event_init; simpl.
  rewrite slice_to_from. reflexivity.
Qed.

(** C1 (the code at the failing input): on [Edit("hello")], cursor 5, the
    key [KEY_BACKSPACE] leaves the value ["hello"] and moves the cursor to
    4; typing ['!'] then gives ["hell!o"], not ["hell!"]. *)
Theorem Edit_backspace_scenario_on_code :
  on_event (init (lit "hello")) (press curses.KEY_BACKSPACE (CtrlRef 0))
  = Some (mk (lit "hello") 4, stop (press curses.KEY_BACKSPACE (CtrlRef 0))) /\
  on_event (mk (lit "hello") 4) (press 33 (CtrlRef 0))
  = Some (mk (lit "hell!o") 5, stop (press 33 (CtrlRef 0))).
Proof. split; reflexivity. Qed.

(** C10: key 127 is both [ALT_BS] and [curses.ascii.DEL], so one key-127
    event runs the Backspace statement and then the Delete statement.  With
    the cursor at c > 0 the character before c is removed and the cursor
    becomes c - 1; with the cursor at 0 the first character of the value is
    removed and the cursor stays 0, which changes a non-empty value. *)
Theorem Edit_key_127_backspace_then_delete :
  forall (self : t) (ev : Event),
    type ev = key_event -> key ev = Some ALT_BS -> cursor_ok self ->
    exists self' ev',
      on_event self ev = Some (self', ev') /\
      (self', ev') = on_delete (on_backspace (self, ev)) /\
      on_backspace (self, ev) = (mk (value self) (Z.max 0 (cursor self - 1)), stop ev) /\
      propagating ev' = false /\
      (0 < cursor self ->
       exists pre x post,
         value self = pre ++ x :: post /\ len pre = cursor self - 1 /\
         value self' = pre ++ post /\ cursor self' = cursor self - 1) /\
      (cursor self = 0 ->
       value self' = tl (value self) /\ cursor self' = 0 /\
       (value self <> [] -> value self' <> value self)).
Proof.
  intros [v c] [ty k w tg l p]; unfold cursor_ok; simpl; intros -> -> [H0 H1].
  unfold on_event; simpl.
  rewrite !slice_to_from.
  eexists _, _; split; [reflexivity|].
  split; [reflexivity|]. split; [reflexivity|]. split; [reflexivity|].
  simpl. split.
  - intros Hc. replace (Z.max 0 (c - 1)) with (c - 1) by lia.
    replace (c - 1 + 1) with c by lia.
    rewrite slice_to_firstn, slice_from_skipn by lia.
    set (n := Z.to_nat (c - 1)).
    assert (Hn : (n < List.length v)%nat) by (unfold len in H1; lia).
    destruct (skipn n v) as [|x post] eqn:Hs.
    { apply (f_equal (@List.length _)) in Hs. rewrite length_skipn in Hs.
      simpl in Hs; lia. }
    exists (firstn n v), x, post. repeat split.
    + rewrite <- Hs. symmetry; apply firstn_skipn.
    + unfold len; rewrite length_firstn; lia.
    + f_equal. replace (Z.to_nat c) with (S n) by lia.
      rewrite <- (firstn_skipn n v) at 1.
      change (S n) with (1 + n)%nat. rewrite <- skipn_skipn.
      rewrite firstn_skipn, Hs. reflexivity.
  - intros ->. simpl.
    rewrite slice_from_skipn by lia.
    unfold slice_to, slice_bound; simpl.
    repeat split.
    + destruct v; reflexivity.
    + destruct v as [|x v']; [congruence|]. intros _ E.
      apply (f_equal (@List.length _)) in E. simpl in E. lia.
Qed.

Lemma Edit_key_127_backspace_then_delete_witness :
  exists self' ev',
    on_event (mk (lit "hello") 2) (press ALT_BS (CtrlRef 0)) = Some (self', ev') /\
    value self' = lit "hllo" /\ cursor self' = 1.
Proof.
  destruct (Edit_key_127_backspace_then_delete (mk (lit "hello") 2)
              (press ALT_BS (CtrlRef 0)) eq_refl eq_refl)
    as (self' & ev' & Hr & Hd & _).
  - unfold cursor_ok; vm_compute; split; discriminate.
  - exists self', ev'. split; [exact Hr|].
    vm_compute in Hd. inversion Hd; subst. split; reflexivity.
Defined.

End EditFacts.

(** ** SelectList *)

Module SelectListFacts.
Import SelectList.

Lemma init_window_ok cs i w h :
  0 <= i < len cs -> 1 <= h -> window_ok (init cs i w h).
Proof. unfold window_ok, init; simpl; lia. Qed.

Lemma on_up_window_ok st : window_ok (fst st) -> window_ok (fst (on_up st)).
Proof.
  destruct st as [self ev]; unfold on_up, window_ok; simpl; intros H.
  destruct (is_code (key ev) curses.KEY_UP && (0 <? index self)) eqn:E; simpl; auto.
  apply andb_prop in E; destruct E as [_ E]. lia.
Qed.

Lemma on_down_window_ok st : window_ok (fst st) -> window_ok (fst (on_down st)).
Proof.
  destruct st as [self ev]; unfold on_down, window_ok; simpl; intros H.
  destruct (is_code (key ev) curses.KEY_DOWN && (index self <? len (choices self) - 1))
    eqn:E; simpl; auto.
  apply andb_prop in E; destruct E as [_ E]. lia.
Qed.

Lemma on_event_window_ok self ev :
  window_ok self -> window_ok (fst (on_event self ev)).
Proof.
  intros H; unfold on_event.
  destruct (EventType_eqb (type ev) key_event); auto.
  apply on_down_window_ok, on_up_window_ok; exact H.
Qed.

Lemma run_window_ok evs : forall self, window_ok self -> window_ok (run self evs).
Proof.
  induction evs as [|ev evs IH]; intros self H; simpl; auto.
  apply IH, on_event_window_ok, H.
Qed.

(** C3 (as stated, at height 0): [SelectList(["a"], 0, height=0)] has a
    valid index, and its initial state breaks
    [index <= scroll_offset + H - 1]. *)
Lemma SelectList_window_fails_at_height_0 :
  0 <= 0 < len [lit "a"] /\ ~ window_ok (init [lit "a"] 0 30 0).
Proof.
  split; [vm_compute; split; [discriminate|reflexivity]|].
  unfold window_ok; simpl. intros [_ [_ H]]. vm_compute in H. apply H; reflexivity.
Qed.

(** C3 (amended): for a SelectList constructed with N choices, a window
    height H >= 1 and an index with 0 <= index < N, the window invariant
    holds initially, every event handled preserves it, and so it holds
    after any finite sequence of events. *)
Theorem SelectList_window_invariant :
  forall (cs : list str) (i w h : Z),
    0 <= i < len cs -> 1 <= h ->
    window_ok (init cs i w h) /\
    (forall self ev, window_ok self -> window_ok (fst (on_event self ev))) /\
    (forall evs, window_ok (run (init cs i w h) evs)).
Proof.
  intros cs i w h Hi Hh. split; [|split].
  - apply init_window_ok; assumption.
  - intros self ev H. apply on_event_window_ok; assumption.
  - intros evs. apply run_window_ok, init_window_ok; assumption.
Qed.

Lemma SelectList_window_invariant_witness :
  window_ok (init [lit "a"; lit "b"; lit "c"] 0 30 2) /\
  (forall self ev, window_ok self -> window_ok (fst (on_event self ev))) /\
  (forall evs, window_ok (run (init [lit "a"; lit "b"; lit "c"] 0 30 2) evs)).
Proof.
  apply SelectList_window_invariant.
  - vm_compute; split; [discriminate|reflexivity].
  - lia.
Defined.

Lemma on_event_down self ev :
  type ev = key_event -> key ev = Some curses.KEY_DOWN ->
  on_event self ev = on_down (self, ev).
Proof.
  intros Ht Hk; unfold on_event, on_up. rewrite Ht, Hk. reflexivity.
Qed.

Lemma on_event_up self ev :
  type ev = key_event -> key ev = Some curses.KEY_UP ->
  on_event self ev = on_up (self, ev).
Proof.
  intros Ht Hk; unfold on_event. rewrite Ht. simpl.
  unfold on_up; rewrite Hk; simpl.
  destruct (0 <? index self); unfold on_down; simpl; rewrite Hk; reflexivity.
Qed.

(** C8: Down adds one to [index] when [index < N - 1] and otherwise changes
    nothing; [scroll_offset] then becomes the least offset not below the
    old one that shows the new index ([index <= scroll_offset + H - 1]).
    Up subtracts one when [0 < index] and otherwise changes nothing;
    [scroll_offset] becomes the greatest offset not above the old one with
    [scroll_offset <= index].  On [SelectList(["a","b","c"], 0, height=2)]
    two Down events give index 2 and scroll_offset 1 and a third changes
    nothing. *)
Theorem SelectList_down_up_move_by_one :
  (forall self ev,
      type ev = key_event -> key ev = Some curses.KEY_DOWN ->
      let self' := fst (on_event self ev) in
      (index self < len (choices self) - 1 ->
       index self' = index self + 1 /\
       scroll_offset self <= scroll_offset self' /\
       index self' <= scroll_offset self' + height self - 1 /\
       (forall s, scroll_offset self <= s -> index self' <= s + height self - 1 ->
                  scroll_offset self' <= s) /\
       choices self' = choices self /\ height self' = height self /\
       propagating (snd (on_event self ev)) = false) /\
      (len (choices self) - 1 <= index self -> on_event self ev = (self, ev))) /\
  (forall self ev,
      type ev = key_event -> key ev = Some curses.KEY_UP ->
      let self' := fst (on_event self ev) in
      (0 < index self ->
       index self' = index self - 1 /\
       scroll_offset self' <= scroll_offset self /\
       scroll_offset self' <= index self' /\
       (forall s, s <= scroll_offset self -> s <= index self' ->
                  s <= scroll_offset self') /\
       choices self' = choices self /\ height self' = height self /\
       propagating (snd (on_event self ev)) = false) /\
      (index self <= 0 -> on_event self ev = (self, ev))) /\
  (let l0 := init [lit "a"; lit "b"; lit "c"] 0 30 2 in
   let down := press curses.KEY_DOWN (CtrlRef 0) in
   index l0 = 0 /\ scroll_offset l0 = 0 /\
   index (run l0 [down; down]) = 2 /\ scroll_offset (run l0 [down; down]) = 1 /\
   on_event (run l0 [down; down]) down = (run l0 [down; down], down)).
Proof.
  split; [|split].
  - intros self ev Ht Hk; cbv zeta. rewrite (on_event_down self ev Ht Hk).
    unfold on_down; rewrite Hk; simpl. split.
    + intros Hlt. destruct (Z.ltb_spec (index self) (len (choices self) - 1)); [|lia].
      simpl. repeat split; intros; lia.
    + intros Hge. destruct (Z.ltb_spec (index self) (len (choices self) - 1)); [lia|].
      reflexivity.
  - intros self ev Ht Hk; cbv zeta. rewrite (on_event_up self ev Ht Hk).
    unfold on_up; rewrite Hk; simpl. split.
    + intros Hlt. destruct (Z.ltb_spec 0 (index self)); [|lia].
      simpl. repeat split; intros; lia.
    + intros Hge. destruct (Z.ltb_spec 0 (index self)); [lia|].
      reflexivity.
  - cbv zeta. repeat split; reflexivity.
Qed.

Lemma SelectList_down_up_move_by_one_witness :
  let l1 := mk [lit "a"; lit "b"; lit "c"] 1 30 2 0 in
  index (fst (on_event l1 (press curses.KEY_DOWN (CtrlRef 0)))) = 2 /\
  index (fst (on_event l1 (press curses.KEY_UP (CtrlRef 0)))) = 0.
Proof.
  destruct SelectList_down_up_move_by_one as (Hdown & Hup & _).
  split.
  - apply (Hdown (mk [lit "a"; lit "b"; lit "c"] 1 30 2 0)
                 (press curses.KEY_DOWN (CtrlRef 0)) eq_refl eq_refl).
    vm_compute; reflexivity.
  - apply (Hup (mk [lit "a"; lit "b"; lit "c"] 1 30 2 0)
               (press curses.KEY_UP (CtrlRef 0)) eq_refl eq_refl).
    vm_compute; reflexivity.
Defined.

End SelectListFacts.

(** ** datetime *)

Module datetimeFacts.
Import datetime.

Lemma days_before_year_split a b c d :
  0 <= a -> 0 <= b <= 3 -> 0 <= c <= 24 -> 0 <= d <= 3 ->
  days_before_year (400 * a + 100 * b + 4 * c + d + 1)
  = 146097 * a + 36524 * b + 1461 * c + 365 * d.
Proof.
  intros. unfold days_before_year. cbv zeta.
  Z.to_euclidean_division_equations. lia.
Qed.

Lemma is_leap_split a b c d :
  0 <= a -> 0 <= b <= 3 -> 0 <= c <= 24 -> 0 <= d <= 3 ->
  is_leap (400 * a + 100 * b + 4 * c + d + 1)
  = (d =? 3) && (negb (c =? 24) || (b =? 3)).
Proof.
  intros. unfold is_leap.
  apply eq_true_iff_eq.
  rewrite !andb_true_iff, !orb_true_iff, !negb_true_iff, !Z.eqb_eq, !Z.eqb_neq.
  Z.to_euclidean_division_equations. lia.
Qed.

Lemma month_day_checked :
  forallb (month_day_check true) (seq 0 366) = true /\
  forallb (month_day_check false) (seq 0 365) = true.
Proof. split; vm_compute; reflexivity. Qed.

Lemma month_day_ok (n : Z) (leap : bool) :
  0 <= n < (if leap then 366 else 365) ->
  let '(m, d) := month_day n leap in
  item DAYS_BEFORE_MONTH m + (if (m >? 2) && leap then 1 else 0) + d = n + 1 /\
  1 <= m <= 12 /\
  1 <= d <= (if (m =? 2) && leap then 29 else item DAYS_IN_MONTH m).
Proof.
  intros Hn.
  assert (Hc : month_day_check leap (Z.to_nat n) = true).
  { destruct month_day_checked as [Ht Hf].
    rewrite forallb_forall in Ht, Hf.
    destruct leap; [apply Ht | apply Hf]; apply in_seq; lia. }
  unfold month_day_check in Hc. rewrite Z2Nat.id in Hc by lia.
  destruct (month_day n leap) as [m d].
  rewrite !andb_true_iff in Hc.
  destruct Hc as [[[[H1 H2] H3] H4] H5].
  apply Z.eqb_eq in H1. apply Z.leb_le in H2, H3, H4, H5. lia.
Qed.

Lemma ord2ymd_unfold n :
  let n0 := n - 1 in
  let n400 := n0 / 146097 in let r1 := n0 mod 146097 in
  let n100 := r1 / 36524 in let r2 := r1 mod 36524 in
  let n4 := r2 / 1461 in let r3 := r2 mod 1461 in
  let n1 := r3 / 365 in let r4 := r3 mod 365 in
  let year := 400 * n400 + 100 * n100 + 4 * n4 + n1 + 1 in
  ord2ymd n =
  if (n1 =? 4) || (n100 =? 4) then (year - 1, 12, 31)
  else
    let leapyear := (n1 =? 3) && (negb (n4 =? 24) || (n100 =? 3)) in
    (year, fst (month_day r4 leapyear), snd (month_day r4 leapyear)).
Proof.
  cbv zeta. unfold ord2ymd, DI400Y, DI100Y, DI4Y. cbv zeta.
  replace (400 * ((n - 1) / 146097) + 100 * ((n - 1) mod 146097 / 36524) +
     4 * (((n - 1) mod 146097) mod 36524 / 1461) +
     (((n - 1) mod 146097) mod 36524) mod 1461 / 365 + 1)
    with ((n - 1) / 146097 * 400 + 1 +
     ((n - 1) mod 146097 / 36524 * 100 +
      ((n - 1) mod 146097) mod 36524 / 1461 * 4 +
      (((n - 1) mod 146097) mod 36524) mod 1461 / 365)) by ring.
  destruct (_ || _); [reflexivity|].
  destruct (month_day _ _); reflexivity.
Qed.

(** [_ord2ymd] inverts [_ymd2ord] and returns a date the constructor
    accepts. *)
Lemma ord2ymd_spec n :
  1 <= n ->
  let '(y, m, d) := ord2ymd n in
  ymd2ord y m d = n /\
  1 <= m <= 12 /\ 1 <= d <= days_in_month y m /\
  MINYEAR <= y /\ (n <= MAXORDINAL -> y <= MAXYEAR).
Proof.
  intros Hn. rewrite ord2ymd_unfold. cbv zeta.
  unfold MINYEAR, MAXYEAR, MAXORDINAL.
  set (n0 := n - 1).
  set (n400 := n0 / 146097). set (r1 := n0 mod 146097).
  set (n100 := r1 / 36524). set (r2 := r1 mod 36524).
  set (n4 := r2 / 1461). set (r3 := r2 mod 1461).
  set (n1 := r3 / 365). set (r4 := r3 mod 365).
  assert (E0 : n0 = 146097 * n400 + r1 /\ 0 <= r1 < 146097 /\ 0 <= n400).
  { subst n400 r1. Z.to_euclidean_division_equations. lia. }
  assert (E1 : r1 = 36524 * n100 + r2 /\ 0 <= r2 < 36524 /\ 0 <= n100 <= 4).
  { subst n100 r2. Z.to_euclidean_division_equations. lia. }
  assert (E2 : r2 = 1461 * n4 + r3 /\ 0 <= r3 < 1461 /\ 0 <= n4 <= 24).
  { subst n4 r3. Z.to_euclidean_division_equations. lia. }
  assert (E3 : r3 = 365 * n1 + r4 /\ 0 <= r4 < 365 /\ 0 <= n1 <= 4).
  { subst n1 r4. Z.to_euclidean_division_equations. lia. }
  clearbody n400 r1 n100 r2 n4 r3 n1 r4.
  destruct ((n1 =? 4) || (n100 =? 4)) eqn:Hlast.
  - (* the last day of a leap year *)
    unfold ymd2ord, days_in_month.
    change ((12 =? 2) && _) with false; cbv iota.
    change (item DAYS_IN_MONTH 12) with 31.
    apply orb_true_iff in Hlast. rewrite !Z.eqb_eq in Hlast.
    destruct Hlast as [H1|H100].
    + assert (n100 <= 3 /\ n4 <= 23) as [Hb Hc] by lia.
      replace (400 * n400 + 100 * n100 + 4 * n4 + n1 + 1 - 1)
        with (400 * n400 + 100 * n100 + 4 * n4 + 3 + 1) by lia.
      rewrite days_before_year_split by lia.
      unfold days_before_month. rewrite is_leap_split by lia.
      replace (n4 =? 24) with false by (symmetry; apply Z.eqb_neq; lia).
      change (item DAYS_BEFORE_MONTH 12) with 334.
      change ((12 >? 2) && ((3 =? 3) && (negb false || (n100 =? 3)))) with true.
      unfold n0 in *. lia.
    + assert (n4 = 0 /\ n1 = 0 /\ r4 = 0) as (-> & -> & ->) by lia.
      subst n100.
      replace (400 * n400 + 100 * 4 + 4 * 0 + 0 + 1 - 1)
        with (400 * n400 + 100 * 3 + 4 * 24 + 3 + 1) by lia.
      rewrite days_before_year_split by lia.
      unfold days_before_month. rewrite is_leap_split by lia.
      change (item DAYS_BEFORE_MONTH 12) with 334.
      change ((12 >? 2) && ((3 =? 3) && (negb (24 =? 24) || (3 =? 3)))) with true.
      unfold n0 in *. lia.
  - apply orb_false_iff in Hlast. rewrite !Z.eqb_neq in Hlast.
    destruct Hlast as [H1 H100].
    set (leap := (n1 =? 3) && (negb (n4 =? 24) || (n100 =? 3))).
    pose proof (month_day_ok r4 leap) as Hmd.
    destruct (month_day r4 leap) as [m d]; simpl fst; simpl snd.
    unfold ymd2ord, days_in_month. rewrite days_before_year_split by lia.
    unfold days_before_month. rewrite is_leap_split by lia. fold leap.
    assert (Hr : 0 <= r4 < (if leap then 366 else 365)) by (destruct leap; lia).
    specialize (Hmd Hr). unfold n0 in *. lia.
Qed.

(** Adding whole days to a valid datetime: inside [1, MAXORDINAL] the
    result is the valid datetime that many days away, at the same time of
    day; outside, the addition raises. *)
Lemma add_days (self : t) (k : Z) :
  valid self ->
  let n := toordinal self + k in
  (1 <= n <= MAXORDINAL ->
   exists v, add self (mkdelta k 0 0) = Some v /\ toordinal v = n /\ valid v /\
             hour v = hour self /\ minute v = minute self /\
             second v = second self /\ microsecond v = microsecond self) /\
  (~ 1 <= n <= MAXORDINAL -> add self (mkdelta k 0 0) = None).
Proof.
  intros (Hy & Hm & Hd & Hh & Hmi & Hs & Hus); cbv zeta.
  unfold add; simpl.
  set (s := hour self * 3600 + minute self * 60 + second self + 0
            + (microsecond self + 0) / 1000000).
  assert (Es : s = hour self * 3600 + minute self * 60 + second self).
  { subst s. Z.to_euclidean_division_equations. lia. }
  assert (Eq : s / 86400 = 0) by (apply Z.div_small; lia).
  rewrite Eq, Z.add_0_r.
  assert (Er : s mod 86400 = s) by (apply Z.mod_small; lia).
  rewrite Er.
  split.
  - intros Hn.
    destruct (Z.ltb_spec 0 (toordinal self + k)); [|lia].
    destruct (Z.leb_spec (toordinal self + k) MAXORDINAL); [|lia]. simpl.
    pose proof (ord2ymd_spec (toordinal self + k) (proj1 Hn)) as Ho.
    destruct (ord2ymd (toordinal self + k)) as [[y m] d].
    destruct Ho as (Ho & Hm' & Hd' & Hy1 & Hy2).
    eexists; split; [reflexivity|]. unfold toordinal, valid; simpl.
    split; [exact Ho|].
    assert (s / 3600 = hour self /\ s mod 3600 / 60 = minute self /\
            (s mod 3600) mod 60 = second self /\
            (microsecond self + 0) mod 1000000 = microsecond self)
      as (-> & -> & -> & ->).
    { rewrite Es. Z.to_euclidean_division_equations. lia. }
    repeat split; try lia; apply Hy2; lia.
  - intros Hn.
    destruct (Z.ltb_spec 0 (toordinal self + k)); [|reflexivity].
    destruct (Z.leb_spec (toordinal self + k) MAXORDINAL); [lia|reflexivity].
Qed.

End datetimeFacts.

(** ** SelectDate *)

Module SelectDateFacts.
Import SelectDate.

Lemma on_event_arrow now self ev c k :
  type ev = key_event -> what ev = Some c ->
  In (c, k) [(curses.KEY_LEFT, -1); (curses.KEY_RIGHT, 1);
             (curses.KEY_UP, -7); (curses.KEY_DOWN, 7)] ->
  on_event now self ev
  = match datetime.add (value self) (datetime.mkdelta k 0 0) with
    | Some v => Some (mk v, stop ev)
    | None => None
    end.
Proof.
  destruct ev as [ty k0 w0 tg l p]; simpl. intros -> -> Hin.
  unfold on_event, on_what; simpl.
  unfold datetime.timedelta_days, datetime.timedelta_weeks.
  destruct Hin as [E|[E|[E|[E|[]]]]]; inversion E; subst c k;
    unfold curses.KEY_LEFT, curses.KEY_RIGHT, curses.KEY_UP, curses.KEY_DOWN, ord_t;
    simpl; destruct (datetime.add _ _); reflexivity.
Qed.

Lemma arrow_moves_by now self ev c k :
  type ev = key_event -> what ev = Some c -> datetime.valid (value self) ->
  In (c, k) [(curses.KEY_LEFT, -1); (curses.KEY_RIGHT, 1);
             (curses.KEY_UP, -7); (curses.KEY_DOWN, 7)] ->
  moves_by now self ev k.
Proof.
  intros Ht Hw Hv Hin. unfold moves_by; cbv zeta.
  rewrite (on_event_arrow now self ev c k Ht Hw Hin).
  destruct (datetimeFacts.add_days (value self) k Hv) as [Hin_range Hout].
  split.
  - intros Hn. destruct (Hin_range Hn) as (v & -> & Hrest).
    exists v. split; [reflexivity|exact Hrest].
  - intros Hn. rewrite (Hout Hn). reflexivity.
Qed.

(** C7 (as stated, at the last date): on 9999-12-31 the Right key does not
    advance the value by a day; the addition raises an OverflowError. *)
Lemma SelectDate_right_raises_on_last_day :
  datetime.valid (date 9999 12 31) /\
  on_event (date 2024 1 15) (mk (date 9999 12 31))
           (press curses.KEY_RIGHT (CtrlRef 0)) = None.
Proof.
  split; [|vm_compute; reflexivity].
  unfold datetime.valid; vm_compute. repeat split; discriminate.
Qed.

(** C7 (amended): on a SelectDate, Right moves the value forward by
    exactly one day, Left back by one day, Up back by seven days and Down
    forward by seven days, across month and year ends, whenever the
    resulting date is within the range of [datetime] (years 1 to 9999);
    beyond that range the handler raises.  The widget has no bound of its
    own.  The key 't' sets the value to the current date and time.  From
    2024-01-15, Right gives 2024-01-16 and then Up gives 2024-01-09. *)
Theorem SelectDate_keys_move_by_days :
  (forall now self ev,
      type ev = key_event -> datetime.valid (value self) ->
      (what ev = Some curses.KEY_RIGHT -> moves_by now self ev 1) /\
      (what ev = Some curses.KEY_LEFT -> moves_by now self ev (-1)) /\
      (what ev = Some curses.KEY_UP -> moves_by now self ev (-7)) /\
      (what ev = Some curses.KEY_DOWN -> moves_by now self ev 7) /\
      (what ev = Some ord_t -> on_event now self ev = Some (mk now, stop ev))) /\
  (forall now tgt,
      on_event now (mk (date 2024 1 15)) (press curses.KEY_RIGHT tgt)
      = Some (mk (date 2024 1 16), stop (press curses.KEY_RIGHT tgt)) /\
      on_event now (mk (date 2024 1 16)) (press curses.KEY_UP tgt)
      = Some (mk (date 2024 1 9), stop (press curses.KEY_UP tgt))).
Proof.
  split.
  - intros now self ev Ht Hv. split; [|split; [|split; [|split]]].
    + intros Hw. apply (arrow_moves_by now self ev _ _ Ht Hw Hv). simpl; tauto.
    + intros Hw. apply (arrow_moves_by now self ev _ _ Ht Hw Hv). simpl; tauto.
    + intros Hw. apply (arrow_moves_by now self ev _ _ Ht Hw Hv). simpl; tauto.
    + intros Hw. apply (arrow_moves_by now self ev _ _ Ht Hw Hv). simpl; tauto.
    + intros Hw. destruct ev as [ty k0 w0 tg l p]; simpl in *; subst.
      reflexivity.
  - intros now tgt. split.
    + rewrite (on_event_arrow now (mk (date 2024 1 15)) (press curses.KEY_RIGHT tgt)
                              curses.KEY_RIGHT 1 eq_refl eq_refl)
        by (simpl; tauto).
      vm_compute. reflexivity.
    + rewrite (on_event_arrow now (mk (date 2024 1 16)) (press curses.KEY_UP tgt)
                              curses.KEY_UP (-7) eq_refl eq_refl)
        by (simpl; tauto).
      vm_compute. reflexivity.
Qed.

Lemma SelectDate_keys_move_by_days_witness :
  exists v,
    on_event (date 2024 1 15) (mk (date 2023 12 31))
             (press curses.KEY_RIGHT (CtrlRef 0))
    = Some (mk v, stop (press curses.KEY_RIGHT (CtrlRef 0))) /\
    datetime.toordinal v = datetime.toordinal (date 2023 12 31) + 1.
Proof.
  destruct SelectDate_keys_move_by_days as [Hkeys _].
  destruct (Hkeys (date 2024 1 15) (mk (date 2023 12 31))
                  (press curses.KEY_RIGHT (CtrlRef 0)) eq_refl)
    as ([Hin _] & _).
  - unfold datetime.valid; vm_compute. repeat split; discriminate.
  - reflexivity.
  - destruct Hin as (v & Hv & Ho & _).
    + vm_compute; split; discriminate.
    + exists v. split; [exact Hv|exact Ho].
Defined.

End SelectDateFacts.

(** ** The widget tree *)

Section TreeFacts.

Lemma nodes_unfold c : nodes c = c :: flat_map nodes (children c).
Proof. destruct c; simpl; rewrite ?app_nil_r; reflexivity. Qed.

Lemma expand_unfold c :
  expand c
  = map (fun child => (Some (CtrlRef (addr_of c)), CtrlObj child)) (children c)
    ++ flat_map expand (children c).
Proof. destruct c; simpl; rewrite ?app_nil_r; reflexivity. Qed.

Lemma count_unfold c : count c = S (list_sum (map count (children c))).
Proof. destruct c; simpl; rewrite ?Nat.add_0_r; reflexivity. Qed.

Lemma expand_obj_unfold app o :
  expand_obj app o
  = map (fun child => (Some (ref_of o), child)) (obj_children app o)
    ++ flat_map (expand_obj app) (obj_children app o).
Proof.
  destruct o as [|l|c]; simpl.
  - rewrite map_map. f_equal. rewrite !flat_map_concat_map, map_map. reflexivity.
  - rewrite app_nil_r. reflexivity.
  - rewrite expand_unfold, map_map. f_equal.
    rewrite !flat_map_concat_map, map_map. reflexivity.
Qed.

Lemma count_obj_unfold app o :
  count_obj app o = S (list_sum (map (count_obj app) (obj_children app o))).
Proof.
  destruct o as [|l|c]; simpl.
  - rewrite map_map. reflexivity.
  - rewrite Nat.add_0_r. reflexivity.
  - rewrite count_unfold, map_map. reflexivity.
Qed.

(** The generator's loop, given a turn for every object at and below its
    stack, yields for each object of the stack, in order, the pairs of its
    children and then what lies below each child. *)
Lemma object_tree_loop_yield app : forall fuel stack,
  (list_sum (map (count_obj app) stack) <= fuel)%nat ->
  object_tree_loop fuel app stack = flat_map (expand_obj app) stack.
Proof.
  induction fuel as [|fuel IH]; intros stack Hfuel.
  - destruct stack as [|o stack]; [reflexivity|].
    simpl in Hfuel. rewrite count_obj_unfold in Hfuel. lia.
  - destruct stack as [|o stack]; [reflexivity|].
    cbn [object_tree_loop flat_map]. rewrite expand_obj_unfold, <- app_assoc. f_equal.
    rewrite IH.
    + rewrite flat_map_app. reflexivity.
    + cbn [map] in Hfuel. rewrite count_obj_unfold in Hfuel.
      cbn [list_sum fold_right] in Hfuel.
      rewrite map_app, list_sum_app. unfold list_sum in *. lia.
Qed.

(** [object_tree(app)] and [object_tree(layer)] are what the generator
    yields: the root with no parent, then the yield of the loop. *)
Lemma object_tree_is_generator app :
  object_tree app
  = (None, AppObj) :: object_tree_loop (count_obj app AppObj) app [AppObj] /\
  forall l, object_tree_layer l
            = (None, LayerObj l)
                :: object_tree_loop (count_obj app (LayerObj l)) app [LayerObj l].
Proof.
  split; [|intros l]; rewrite object_tree_loop_yield by (simpl; lia);
    cbn [flat_map]; rewrite app_nil_r; reflexivity.
Qed.

Lemma nodes_self c : In c (nodes c).
Proof. rewrite nodes_unfold; left; reflexivity. Qed.

Lemma nodes_child c ch x : In ch (children c) -> In x (nodes ch) -> In x (nodes c).
Proof.
  intros Hch Hx. rewrite nodes_unfold. right.
  apply in_flat_map. exists ch; split; assumption.
Qed.

Lemma nodes_trans z : forall x y, In x (nodes y) -> In y (nodes z) -> In x (nodes z).
Proof.
  induction z as [z IH] using Control_children_ind. intros x y Hx Hy.
  rewrite nodes_unfold in Hy. destruct Hy as [<-|Hy]; [exact Hx|].
  apply in_flat_map in Hy. destruct Hy as (ch & Hch & Hy).
  rewrite Forall_forall in IH.
  exact (nodes_child z ch x Hch (IH ch Hch x y Hx Hy)).
Qed.

(** The pairs yielded below [c] are the parent-child pairs of its tree. *)
Lemma expand_in c : forall p o,
  In (p, o) (expand c) <->
  exists P ch, In P (nodes c) /\ In ch (children P) /\
               p = Some (CtrlRef (addr_of P)) /\ o = CtrlObj ch.
Proof.
  induction c as [c IH] using Control_children_ind. intros p o.
  rewrite Forall_forall in IH.
  rewrite expand_unfold, in_app_iff, in_map_iff, in_flat_map. split.
  - intros [(ch & E & Hch)|(ch & Hch & Hin)].
    + inversion E; subst. exists c, ch. auto using nodes_self.
    + apply (IH ch Hch) in Hin. destruct Hin as (P & ch' & HP & Hch' & -> & ->).
      exists P, ch'. repeat split; auto. exact (nodes_child c ch P Hch HP).
  - intros (P & ch & HP & Hch & -> & ->).
    rewrite nodes_unfold in HP. destruct HP as [<-|HP].
    + left. exists ch. auto.
    + right. apply in_flat_map in HP. destruct HP as (c' & Hc' & HP).
      exists c'. split; [exact Hc'|]. apply (IH c' Hc'). exists P, ch. auto.
Qed.

(** The children yielded below [c] are the controls strictly below it. *)
Lemma expand_children c :
  Permutation (map snd (expand c))
                          (map CtrlObj (flat_map nodes (children c))).
Proof.
  induction c as [c IH] using Control_children_ind.
  rewrite expand_unfold, map_app, map_map; simpl.
  induction (children c) as [|ch rest IHr]; simpl; [constructor|].
  inversion IH as [|? ? Hch Hrest]; subst. specialize (IHr Hrest).
  rewrite (nodes_unfold ch). rewrite !map_app. simpl.
  apply perm_skip.
  eapply perm_trans; [apply Permutation_app_swap_app|].
  apply Permutation_app; [exact Hch|exact IHr].
Qed.

Lemma ref_eqb_eq r1 r2 : ref_eqb r1 r2 = true <-> r1 = r2.
Proof.
  destruct r1, r2; simpl; try (split; [discriminate|congruence]);
    try tauto; rewrite Z.eqb_eq; split; congruence.
Qed.

Lemma ref_eqb_refl r : ref_eqb r r = true.
Proof. apply ref_eqb_eq; reflexivity. Qed.

Lemma expand_layer_children l :
  Permutation (map snd (expand_layer l)) (map CtrlObj (nodes (root l))).
Proof.
  unfold expand_layer. rewrite nodes_unfold. simpl.
  apply perm_skip, expand_children.
Qed.

Lemma object_tree_children app :
  Permutation (map snd (object_tree app))
              (AppObj :: map LayerObj (layers app) ++ map CtrlObj (app_nodes app)).
Proof.
  unfold object_tree, app_nodes. simpl. apply perm_skip.
  rewrite map_app, map_map. simpl. apply Permutation_app_head.
  induction (layers app) as [|l ls IH]; [constructor|].
  cbn [flat_map]. rewrite !map_app.
  apply Permutation_app; [apply expand_layer_children|exact IH].
Qed.

(** In a well-formed application [object_tree] yields every object once. *)
Lemma object_tree_refs_NoDup app :
  wf app -> NoDup (map (fun pc => ref_of (snd pc)) (object_tree app)).
Proof.
  intros (Hc & Hl & _).
  rewrite <- (map_map snd ref_of).
  eapply Permutation_NoDup.
  { symmetry. apply Permutation_map. apply object_tree_children. }
  simpl. rewrite map_app, !map_map. simpl.
  constructor.
  - rewrite in_app_iff, !in_map_iff. intros [(l & E & _)|(c & E & _)]; discriminate.
  - apply NoDup_app.
    + rewrite <- (map_map lid LayerRef).
      apply Finite.Injective_map_NoDup; [intros a b E; congruence|exact Hl].
    + rewrite <- (map_map addr_of CtrlRef).
      apply Finite.Injective_map_NoDup; [intros a b E; congruence|exact Hc].
    + intros r. rewrite !in_map_iff. intros (l & <- & _) (c & E & _). discriminate.
Qed.

Lemma find_first {A} (f : A -> ref) (l : list A) x :
  NoDup (map f l) -> In x l ->
  find (fun y => ref_eqb (f y) (f x)) l = Some x.
Proof.
  induction l as [|y l IH]; simpl; intros Hnd Hin; [contradiction|].
  inversion Hnd as [|? ? Hny Hnd']; subst.
  destruct Hin as [->|Hin].
  - rewrite ref_eqb_refl. reflexivity.
  - destruct (ref_eqb (f y) (f x)) eqn:E.
    + apply ref_eqb_eq in E. exfalso. apply Hny. rewrite E.
      apply in_map; exact Hin.
    + apply IH; assumption.
Qed.

Lemma find_pair_in app r p o :
  App.find_pair app r = Some (p, o) ->
  In (p, o) (object_tree app) /\ ref_of o = r.
Proof.
  unfold App.find_pair. intros H. apply find_some in H.
  destruct H as [Hin E]. simpl in E. apply ref_eqb_eq in E. auto.
Qed.

Lemma find_pair_of app p o :
  wf app -> In (p, o) (object_tree app) ->
  App.find_pair app (ref_of o) = Some (p, o).
Proof.
  intros Hwf Hin. unfold App.find_pair.
  exact (find_first (fun pc => ref_of (snd pc)) (object_tree app) (p, o)
                    (object_tree_refs_NoDup app Hwf) Hin).
Qed.

(** What [object_tree(app)] yields. *)
Lemma object_tree_in app p o :
  In (p, o) (object_tree app) <->
  (p = None /\ o = AppObj) \/
  (exists l, In l (layers app) /\ p = Some AppRef /\ o = LayerObj l) \/
  (exists l, In l (layers app) /\ p = Some (LayerRef (lid l)) /\ o = CtrlObj (root l)) \/
  (exists l P ch, In l (layers app) /\ In P (nodes (root l)) /\ In ch (children P) /\
                  p = Some (CtrlRef (addr_of P)) /\ o = CtrlObj ch).
Proof.
  unfold object_tree. simpl. rewrite in_app_iff, in_map_iff, in_flat_map.
  split.
  - intros [E|[(l & E & Hl)|(l & Hl & [E|Hin])]].
    + inversion E; auto.
    + inversion E; subst. right; left. eauto.
    + inversion E; subst. right; right; left. eauto.
    + apply expand_in in Hin. destruct Hin as (P & ch & HP & Hch & -> & ->).
      right; right; right. exists l, P, ch. auto.
  - intros [[-> ->]|[(l & Hl & -> & ->)|[(l & Hl & -> & ->)|
              (l & P & ch & Hl & HP & Hch & -> & ->)]]].
    + auto.
    + right; left. eauto.
    + right; right. exists l. split; [exact Hl|]. left; reflexivity.
    + right; right. exists l. split; [exact Hl|]. right.
      apply expand_in. exists P, ch. auto.
Qed.

(** The controls [object_tree(app)] yields are the controls of the layers. *)
Lemma object_tree_ctrl app c :
  (exists p, In (p, CtrlObj c) (object_tree app)) <-> In c (app_nodes app).
Proof.
  unfold app_nodes. rewrite in_flat_map. split.
  - intros (p & Hin). apply object_tree_in in Hin.
    destruct Hin as [[_ E]|[(l & _ & _ & E)|[(l & Hl & _ & E)|
               (l & P & ch & Hl & HP & Hch & _ & E)]]]; try discriminate.
    + inversion E; subst. exists l. auto using nodes_self.
    + inversion E; subst. exists l. split; [exact Hl|].
      exact (nodes_trans _ _ _ (nodes_child P ch ch Hch (nodes_self ch)) HP).
  - intros (l & Hl & Hc). rewrite nodes_unfold in Hc. destruct Hc as [<-|Hc].
    + exists (Some (LayerRef (lid l))). apply object_tree_in.
      right; right; left. eauto.
    + assert (Hex : exists P, In P (nodes (root l)) /\ In c (children P)).
      { clear Hl. revert Hc. generalize (root l) as r.
        induction r as [r IH] using Control_children_ind. intros Hc.
        rewrite Forall_forall in IH.
        apply in_flat_map in Hc. destruct Hc as (ch & Hch & Hc).
        rewrite nodes_unfold in Hc. destruct Hc as [<-|Hc].
        - exists r. auto using nodes_self.
        - destruct (IH ch Hch Hc) as (P & HP & HcP).
          exists P. split; [exact (nodes_child r ch P Hch HP)|exact HcP]. }
      destruct Hex as (P & HP & HcP).
      exists (Some (CtrlRef (addr_of P))). apply object_tree_in.
      right; right; right. exists l, P, c. auto.
Qed.

Lemma wf_addr_inj app x y :
  wf app -> In x (app_nodes app) -> In y (app_nodes app) ->
  addr_of x = addr_of y -> x = y.
Proof.
  intros (Hnd & _). revert Hnd. generalize (app_nodes app) as l.
  induction l as [|z l IH]; simpl; intros Hnd Hx Hy E; [contradiction|].
  inversion Hnd as [|? ? Hz Hnd']; subst.
  destruct Hx as [->|Hx], Hy as [->|Hy]; auto.
  - exfalso. apply Hz. rewrite E. apply in_map; exact Hy.
  - exfalso. apply Hz. rewrite <- E. apply in_map; exact Hx.
Qed.

Lemma replace_addr new c : addr_of (replace new c) = addr_of c.
Proof.
  destruct c; simpl;
    match goal with |- context [if ?b then _ else _] => destruct b eqn:E end;
    simpl; auto; apply Z.eqb_eq in E; auto.
Qed.

(** Writing back a control that is already there changes nothing. *)
Lemma replace_same new c :
  (forall x, In x (nodes c) -> addr_of x = addr_of new -> x = new) ->
  replace new c = c.
Proof.
  induction c as [c IH] using Control_children_ind. intros Hu.
  rewrite Forall_forall in IH.
  assert (Hch : forall ch, In ch (children c) -> replace new ch = ch).
  { intros ch Hch. apply (IH ch Hch). intros x Hx.
    apply Hu. exact (nodes_child c ch x Hch Hx). }
  assert (Hmap : map (replace new) (children c) = children c).
  { rewrite <- (map_id (children c)) at 2. apply map_ext_in. exact Hch. }
  destruct c; simpl in *;
    match goal with |- context [if ?b then _ else _] => destruct b eqn:E end;
    try (apply Z.eqb_eq in E; symmetry; apply Hu; auto; fail);
    try reflexivity; try (rewrite Hmap; reflexivity);
    rewrite Hch by auto; reflexivity.
Qed.

Lemma store_same app c :
  wf app -> In c (app_nodes app) -> App.store app c = app.
Proof.
  intros Hwf Hc. destruct app as [e ls n]. unfold App.store; simpl. f_equal.
  rewrite <- (map_id ls) at 2. apply map_ext_in. intros l Hl.
  rewrite replace_same; [destruct l; reflexivity|].
  intros x Hx E. apply (wf_addr_inj _ x c Hwf); auto.
  unfold app_nodes; simpl. apply in_flat_map. exists l; auto.
Qed.

(** Every control that satisfies [G] climbs to the App through objects
    that satisfy [Q], when [G] goes from a child to its parent. *)
Lemma nodes_climb app l (Q : obj -> Prop) (G : Control -> Prop) :
  In l (layers app) ->
  Q (LayerObj l) ->
  (forall x, In x (nodes (root l)) -> G x -> Q (CtrlObj x)) ->
  (forall c ch, In ch (children c) -> G c) ->
  forall x, In x (nodes (root l)) -> G x ->
            exists n, climbs app Q (CtrlRef (addr_of x)) n.
Proof.
  intros Hl HQl HQ Hup.
  assert (Hgen : forall c,
             (forall x, In x (nodes c) -> In x (nodes (root l))) ->
             (G c -> exists n, climbs app Q (CtrlRef (addr_of c)) n) ->
             forall x, In x (nodes c) -> G x ->
                       exists n, climbs app Q (CtrlRef (addr_of x)) n).
  { induction c as [c IH] using Control_children_ind. intros Hsub Hc x Hx HG.
    rewrite Forall_forall in IH. rewrite nodes_unfold in Hx.
    destruct Hx as [<-|Hx]; [exact (Hc HG)|].
    apply in_flat_map in Hx. destruct Hx as (ch & Hch & Hx).
    apply (IH ch Hch); [| |exact Hx|exact HG].
    - intros y Hy. apply Hsub. exact (nodes_child c ch y Hch Hy).
    - intros HGch. destruct (Hc (Hup c ch Hch)) as (n & Hn). exists (S n).
      apply (climbs_step app Q _ (CtrlRef (addr_of c)) (CtrlObj ch) n); auto.
      + apply object_tree_in. right; right; right.
        exists l, c, ch. auto using nodes_self.
      + apply HQ; [|exact HGch].
        apply Hsub. exact (nodes_child c ch ch Hch (nodes_self ch)). }
  apply Hgen; [auto|].
  intros HG. exists 2%nat.
  apply (climbs_step app Q _ (LayerRef (lid l)) (CtrlObj (root l)) 1); auto.
  - apply object_tree_in. right; right; left. eauto.
  - apply HQ; [apply nodes_self|exact HG].
  - apply (climbs_step app Q _ AppRef (LayerObj l) 0); auto; [|constructor].
    apply object_tree_in. right; left. eauto.
Qed.

Lemma lookup_app app : App.lookup app AppRef = Some AppObj.
Proof. reflexivity. Qed.

Lemma get_parent_app app : App.get_parent app AppRef = None.
Proof. reflexivity. Qed.

Lemma pair_not_app app p o : In (Some p, o) (object_tree app) -> o <> AppObj.
Proof.
  intros Hin E. apply object_tree_in in Hin.
  destruct Hin as [[E' _]|[(l & _ & _ & E')|[(l & _ & _ & E')|
             (l & P & ch & _ & _ & _ & _ & E')]]]; congruence.
Qed.

(** Bubbling: when no object below the App reacts to the event, the loop
    of [dispatch_event] climbs from the target to the App and ends with
    what [App.on_event] does. *)
Lemma dispatch_loop_climb now app (Q : obj -> Prop) ev r n :
  wf app ->
  (forall p o l, In (Some p, o) (object_tree app) -> Q o ->
                 on_event now app o (with_last ev l) = Some (app, with_last ev l)) ->
  propagating ev = true ->
  climbs app Q r n ->
  forall fuel l, (n < fuel)%nat ->
  exists l',
    dispatch_loop fuel now app (with_last ev l) (Some r)
    = bind (App_on_event app (with_last ev l'))
           (fun st => Some (fst st, set_last (snd st) AppRef)).
Proof.
  intros Hwf Hnoop Hprop Hclimb.
  induction Hclimb as [|r p o n Hin Hr HQ Hclimb IH]; intros fuel l Hfuel;
    (destruct fuel as [|m]; [lia|]); cbn [dispatch_loop];
    change (propagating (with_last ev l)) with (propagating ev); rewrite Hprop.
  - exists l. rewrite lookup_app. cbn [bind on_event].
    destruct (App_on_event app (with_last ev l)) as [[app' ev']|]; [|reflexivity].
    cbn [bind fst snd]. rewrite get_parent_app. destruct m; reflexivity.
  - subst r. unfold App.lookup, App.get_parent.
    rewrite (find_pair_of app (Some p) o Hwf Hin). cbn [bind].
    rewrite (Hnoop p o l Hin HQ). cbn [bind fst snd].
    rewrite (find_pair_of app (Some p) o Hwf Hin).
    apply (IH m (Some (ref_of o))). lia.
Qed.

End TreeFacts.

(** ** Layer: focus *)

Section FocusFacts.

(** [focus(ctrl)] either fails and changes nothing, or focuses a control
    of the tree of [ctrl] that can take the focus. *)
Lemma focus_spec l c :
  (snd (Layer.focus l c) = false /\ fst (Layer.focus l c) = l) \/
  (snd (Layer.focus l c) = true /\
   exists x, In x (nodes c) /\ can_focus x = true /\
             fst (Layer.focus l c) = mkLayer (lid l) (root l) (addr_of x)).
Proof.
  induction c as [c IH] using Control_children_ind.
  assert (Heach : forall cs,
             Forall (fun ch => In ch (children c)) cs ->
             let r := (fix each (cs : list Control) : Layer * bool :=
                         match cs with
                         | [] => (l, false)
                         | child :: rest =>
                             let r := Layer.focus l child in
                             if snd r then (fst r, true) else each rest
                         end) cs in
             (snd r = false /\ fst r = l) \/
             (snd r = true /\
              exists x, In x (nodes c) /\ can_focus x = true /\
                        fst r = mkLayer (lid l) (root l) (addr_of x))).
  { rewrite Forall_forall in IH.
    induction cs as [|ch rest IHr]; intros Hsub; cbv zeta; [left; auto|].
    inversion Hsub as [|? ? Hch Hrest]; subst.
    destruct (IH ch Hch) as [[Hf Hl]|[Ht (x & Hx & Hcf & Hl)]].
    - rewrite Hf. exact (IHr Hrest).
    - rewrite Ht. right. split; [reflexivity|]. exists x.
      split; [exact (nodes_child c ch x Hch Hx)|]. auto. }
  assert (Hall : Forall (fun ch => In ch (children c)) (children c))
    by (apply Forall_forall; auto).
  destruct c; cbn [Layer.focus can_focus]; cbv zeta;
    try (left; split; reflexivity);
    try (right; split; [reflexivity|];
         eexists; split; [apply nodes_self|]; split; reflexivity);
    exact (Heach _ Hall).
Qed.

Lemma focus_keeps l c :
  lid (fst (Layer.focus l c)) = lid l /\ root (fst (Layer.focus l c)) = root l.
Proof.
  destruct (focus_spec l c) as [[_ ->]|[_ (x & _ & _ & ->)]]; auto.
Qed.

Lemma focus_ok l c :
  layer_ok l -> (forall x, In x (nodes c) -> In x (nodes (root l))) ->
  layer_ok (fst (Layer.focus l c)).
Proof.
  intros Hok Hsub.
  destruct (focus_spec l c) as [[_ ->]|[_ (x & Hx & Hcf & ->)]]; [exact Hok|].
  right. exists x. simpl. auto.
Qed.

(** The controls [object_tree(layer)] yields are those of its tree. *)
Lemma first_focusable_in l pairs c :
  (forall p x, In (p, CtrlObj x) pairs -> In x (nodes (root l))) ->
  Layer.first_focusable pairs = Some c ->
  In c (nodes (root l)) /\ can_focus c = true.
Proof.
  unfold Layer.first_focusable. intros Hsub.
  destruct (find _ pairs) as [[p o]|] eqn:Hf; [|discriminate].
  apply find_some in Hf. destruct Hf as [Hin Hcf].
  destruct o as [| |x]; try discriminate.
  intros E; inversion E; subst. split; [exact (Hsub p c Hin)|exact Hcf].
Qed.

Lemma object_tree_layer_in l p x :
  In (p, CtrlObj x) (object_tree_layer l) -> In x (nodes (root l)).
Proof.
  unfold object_tree_layer, expand_layer. simpl.
  intros [E|[E|Hin]]; try discriminate.
  - inversion E; subst. apply nodes_self.
  - apply expand_in in Hin. destruct Hin as (P & ch & HP & Hch & _ & E).
    inversion E; subst.
    exact (nodes_trans _ _ _ (nodes_child P ch ch Hch (nodes_self ch)) HP).
Qed.

Lemma focus_first_ok l : layer_ok l -> layer_ok (Layer._focus_first l).
Proof.
  intros Hok. unfold Layer._focus_first.
  destruct (Layer.first_focusable (object_tree_layer l)) as [c|] eqn:Hc; [|exact Hok].
  apply (first_focusable_in l) in Hc; [|apply object_tree_layer_in].
  apply focus_ok; [exact Hok|].
  intros x Hx. exact (nodes_trans _ _ _ Hx (proj1 Hc)).
Qed.

Lemma focus_last_ok l : layer_ok l -> layer_ok (Layer._focus_last l).
Proof.
  intros Hok. unfold Layer._focus_last.
  destruct (Layer.first_focusable (rev (object_tree_layer l))) as [c|] eqn:Hc;
    [|exact Hok].
  apply (first_focusable_in l) in Hc.
  - apply focus_ok; [exact Hok|].
    intros x Hx. exact (nodes_trans _ _ _ Hx (proj1 Hc)).
  - intros p x Hin. apply in_rev in Hin. exact (object_tree_layer_in l p x Hin).
Qed.

Lemma focus_first_keeps l :
  lid (Layer._focus_first l) = lid l /\ root (Layer._focus_first l) = root l.
Proof.
  unfold Layer._focus_first.
  destruct (Layer.first_focusable _); [apply focus_keeps|auto].
Qed.

Lemma focus_last_keeps l :
  lid (Layer._focus_last l) = lid l /\ root (Layer._focus_last l) = root l.
Proof.
  unfold Layer._focus_last.
  destruct (Layer.first_focusable _); [apply focus_keeps|auto].
Qed.

Lemma init_ok a r : layer_ok (Layer.init a r).
Proof. unfold Layer.init. apply focus_first_ok. left; reflexivity. Qed.

Lemma init_keeps a r : lid (Layer.init a r) = a /\ root (Layer.init a r) = r.
Proof. unfold Layer.init. apply (focus_first_keeps (mkLayer a r (addr_of r))). Qed.

End FocusFacts.

(** ** App: Escape *)

Section EscapeFacts.
Variable now : datetime.t.

(** [App.on_event] on Escape: [exit] becomes true and the event is
    stopped, whatever the stack of layers, which it does not touch. *)
Lemma App_on_event_escape app ev :
  key ev = Some curses.ascii.ESC ->
  App_on_event app ev = Some (mkApp true (layers app) (next_addr app), stop ev).
Proof. destruct ev; simpl; intros ->. reflexivity. Qed.

(** No object other than a Popup and the App reacts to Escape. *)
Lemma on_event_escape_noop app p o tgt l :
  wf app -> In (p, o) (object_tree app) -> o <> AppObj ->
  (forall c, o = CtrlObj c -> is_popup c = false) ->
  on_event now app o (with_last (press curses.ascii.ESC tgt) l)
  = Some (app, with_last (press curses.ascii.ESC tgt) l).
Proof.
  intros Hwf Hin Hna Hnp.
  destruct o as [|x|c]; [congruence|reflexivity|].
  assert (Hc : In c (app_nodes app)) by (apply object_tree_ctrl; eauto).
  specialize (Hnp c eq_refl).
  destruct c; try discriminate; try reflexivity; cbn [on_event].
  - change (SelectList.on_event s (with_last (press curses.ascii.ESC tgt) l))
      with (s, with_last (press curses.ascii.ESC tgt) l).
    cbn [fst snd]. rewrite (store_same app _ Hwf Hc). reflexivity.
  - change (SelectDate.on_event now s (with_last (press curses.ascii.ESC tgt) l))
      with (Some (s, with_last (press curses.ascii.ESC tgt) l)).
    cbn [bind fst snd]. rewrite (store_same app _ Hwf Hc). reflexivity.
  - change (Edit.on_event s (with_last (press curses.ascii.ESC tgt) l))
      with (Some (s, with_last (press curses.ascii.ESC tgt) l)).
    cbn [bind fst snd]. rewrite (store_same app _ Hwf Hc). reflexivity.
Qed.

(** The blur and focus events of [Layer.focus] ([Event('blur', None, ...)]
    and [Event('focus', None, ...)]) have no effect on any object. *)
Lemma on_event_blur_focus app p o ty tgt :
  wf app -> In (p, o) (object_tree app) -> ty <> key_event ->
  on_event now app o (Event_init ty None tgt) = Some (app, Event_init ty None tgt).
Proof.
  intros Hwf Hin Hty.
  set (ev := Event_init ty None tgt).
  assert (Ht : EventType_eqb (type ev) key_event = false)
    by (destruct ty; [congruence|reflexivity|reflexivity]).
  destruct o as [|x|c]; [reflexivity|reflexivity|].
  assert (Hc : In c (app_nodes app)) by (apply object_tree_ctrl; eauto).
  destruct c; cbn [on_event]; try reflexivity.
  - unfold SelectList.on_event. rewrite Ht. cbn [fst snd].
    rewrite (store_same app _ Hwf Hc). reflexivity.
  - unfold SelectDate.on_event. rewrite Ht. cbn [bind fst snd].
    rewrite (store_same app _ Hwf Hc). reflexivity.
  - unfold Composite_on_event. rewrite Ht. reflexivity.
  - unfold Popup_on_event. rewrite Ht. reflexivity.
  - unfold Combo_on_event. rewrite Ht. reflexivity.
  - unfold DateCombo_on_event. rewrite Ht. reflexivity.
  - unfold Edit.on_event. rewrite Ht. cbn [bind fst snd].
    rewrite (store_same app _ Hwf Hc). reflexivity.
Qed.

Lemma last_item_in {A} (l : list A) a : last_item l = Some a -> In a l.
Proof.
  unfold last_item. destruct (rev l) as [|b r] eqn:E; [discriminate|].
  intros H; inversion H; subst. apply in_rev. rewrite E. left; reflexivity.
Qed.

Lemma init_wf root fresh :
  NoDup (map addr_of (nodes root)) ->
  (forall c, In c (nodes root) -> addr_of c < fresh) ->
  wf (App.init root fresh).
Proof.
  intros Hnd Hlt. unfold wf, App.init, app_nodes. cbn [layers next_addr flat_map map].
  destruct (init_keeps fresh root) as [Hlid Hroot]. rewrite Hlid, Hroot, app_nil_r.
  split; [exact Hnd|]. split; [repeat constructor; simpl; tauto|].
  split.
  - intros c Hc. specialize (Hlt c Hc). lia.
  - intros l [<-|[]]. rewrite Hlid. lia.
Qed.

End EscapeFacts.

(** ** The layers between events *)

Section InvariantFacts.

Lemma sig_unfold c :
  sig c = (addr_of c, can_focus c) :: flat_map sig (children c).
Proof.
  unfold sig. rewrite nodes_unfold. simpl. f_equal.
  induction (children c) as [|ch rest IH]; simpl; [reflexivity|].
  rewrite map_app, IH. reflexivity.
Qed.

Lemma sig_addrs c : map fst (sig c) = map addr_of (nodes c).
Proof. unfold sig. rewrite map_map. reflexivity. Qed.

Lemma layer_ok_sig l :
  layer_ok l <->
  focused l = addr_of (root l) \/ In (focused l, true) (sig (root l)).
Proof.
  unfold layer_ok, sig. rewrite in_map_iff. split.
  - intros [H|(c & Hc & Ha & Hf)]; [auto|]. right. exists c.
    rewrite Ha, Hf. auto.
  - intros [H|(c & E & Hc)]; [auto|]. right. exists c.
    inversion E. auto.
Qed.

Lemma replace_rebuilt new c :
  (addr_of c =? addr_of new) = false ->
  children (replace new c) = map (replace new) (children c) /\
  can_focus (replace new c) = can_focus c.
Proof. intros E. destruct c; simpl in *; rewrite E; simpl; auto. Qed.

(** Writing back a childless control over childless controls of the same
    address and [can_focus] keeps the shape of the tree. *)
Lemma replace_sig new c :
  children new = [] ->
  (forall x, In x (nodes c) -> addr_of x = addr_of new ->
             children x = [] /\ can_focus x = can_focus new) ->
  sig (replace new c) = sig c.
Proof.
  intros Hleaf. induction c as [c IH] using Control_children_ind. intros Hx.
  rewrite Forall_forall in IH.
  destruct (addr_of c =? addr_of new) eqn:E.
  - assert (Hr : replace new c = new) by (destruct c; simpl in *; rewrite E; reflexivity).
    apply Z.eqb_eq in E. destruct (Hx c (nodes_self c) E) as [Hc Hf].
    rewrite Hr, (sig_unfold new), (sig_unfold c), Hleaf, Hc, E, Hf. reflexivity.
  - destruct (replace_rebuilt new c E) as [Hch Hcf].
    rewrite (sig_unfold (replace new c)), (sig_unfold c), Hch, Hcf, replace_addr.
    f_equal. clear Hch Hcf E.
    assert (Hsub : forall ch, In ch (children c) -> sig (replace new ch) = sig ch).
    { intros ch Hin. apply (IH ch Hin). intros x Hxin.
      apply Hx. exact (nodes_child c ch x Hin Hxin). }
    clear IH Hx.
    induction (children c) as [|ch rest IHr]; simpl; [reflexivity|].
    rewrite Hsub by (left; reflexivity). f_equal.
    apply IHr. intros ch' Hin. apply Hsub. right; exact Hin.
Qed.

Lemma same_shape_nodes ls ls' :
  Forall2 same_shape ls ls' ->
  map addr_of (flat_map (fun l => nodes (root l)) ls')
  = map addr_of (flat_map (fun l => nodes (root l)) ls) /\
  map lid ls' = map lid ls.
Proof.
  induction 1 as [|l l' ls ls' (Hlid & Hsig & _) _ [IH1 IH2]]; simpl; [auto|].
  rewrite !map_app, IH1, IH2, Hlid, <- !sig_addrs, Hsig. auto.
Qed.

Lemma app_ok_same_shape app e ls' n :
  app_ok app -> Forall2 same_shape (layers app) ls' -> next_addr app <= n ->
  app_ok (mkApp e ls' n).
Proof.
  intros [(Hnd & Hlid & Hlt & Hllt) Hok] Hrel Hn.
  destruct (same_shape_nodes _ _ Hrel) as [Ha Hl].
  split; [split; [|split; [|split]]|]; unfold app_nodes in *; simpl.
  - rewrite Ha. exact Hnd.
  - rewrite Hl. exact Hlid.
  - intros c Hc. apply (in_map addr_of) in Hc. rewrite Ha in Hc.
    apply in_map_iff in Hc. destruct Hc as (c' & <- & Hc').
    specialize (Hlt c' Hc'). lia.
  - intros l Hl'. apply (in_map lid) in Hl'. rewrite Hl in Hl'.
    apply in_map_iff in Hl'. destruct Hl' as (l0 & <- & Hl0).
    specialize (Hllt l0 Hl0). lia.
  - clear - Hok Hrel. induction Hrel as [|l l' ls ls' (_ & _ & H) _ IH]; [constructor|].
    inversion Hok; subst. constructor; auto.
Qed.

Lemma same_shape_refl l : same_shape l l.
Proof. repeat split; auto. Qed.

Lemma Forall2_same_shape_map (f : Layer -> Layer) ls :
  (forall l, In l ls -> same_shape l (f l)) -> Forall2 same_shape ls (map f ls).
Proof.
  induction ls as [|l ls IH]; intros H; simpl; constructor.
  - apply H; left; reflexivity.
  - apply IH. intros l' Hl'. apply H; right; exact Hl'.
Qed.

Lemma in_app_nodes app l x :
  In l (layers app) -> In x (nodes (root l)) -> In x (app_nodes app).
Proof. intros Hl Hx. unfold app_nodes. apply in_flat_map. eauto. Qed.

(** A childless control mutated in place. *)
Lemma store_ok app c new :
  app_ok app -> In c (app_nodes app) ->
  addr_of new = addr_of c -> children c = [] -> children new = [] ->
  can_focus new = can_focus c ->
  app_ok (App.store app new).
Proof.
  intros Hok Hc Ha Hcl Hnl Hcf. unfold App.store.
  apply (app_ok_same_shape app); [exact Hok| |lia].
  apply Forall2_same_shape_map. intros l Hl.
  assert (Hsig : sig (replace new (root l)) = sig (root l)).
  { apply replace_sig; [exact Hnl|]. intros x Hx E.
    assert (x = c) as ->.
    { apply (wf_addr_inj app); [exact (proj1 Hok)| |exact Hc|congruence].
      exact (in_app_nodes app l x Hl Hx). }
    auto. }
  split; [reflexivity|]. split; [exact Hsig|].
  rewrite !layer_ok_sig. simpl. rewrite replace_addr, Hsig. auto.
Qed.

Lemma wf_lid_inj app x y :
  wf app -> In x (layers app) -> In y (layers app) -> lid x = lid y -> x = y.
Proof.
  intros (_ & Hnd & _). revert Hnd. generalize (layers app) as l.
  induction l as [|z l IH]; simpl; intros Hnd Hx Hy E; [contradiction|].
  inversion Hnd as [|? ? Hz Hnd']; subst.
  destruct Hx as [->|Hx], Hy as [->|Hy]; auto.
  - exfalso. apply Hz. rewrite E. apply in_map; exact Hy.
  - exfalso. apply Hz. rewrite <- E. apply in_map; exact Hx.
Qed.

(** [layer.focus(ctrl)] for a control of the layer's own tree. *)
Lemma focus_in_ok app l ctrl :
  app_ok app ->
  (forall L x, In L (layers app) -> lid L = l -> In x (nodes ctrl) ->
               In x (nodes (root L))) ->
  app_ok (fst (App.focus_in app l ctrl)) /\
  map root (layers (fst (App.focus_in app l ctrl))) = map root (layers app).
Proof.
  intros Hok Hsub. unfold App.focus_in.
  destruct (find (fun x => lid x =? l) (layers app)) as [X|] eqn:Hf;
    [|split; [exact Hok|reflexivity]].
  apply find_some in Hf. destruct Hf as [HX HlX]. apply Z.eqb_eq in HlX.
  cbn [fst layers].
  assert (Hz : forall z, In z (layers app) ->
               (if lid z =? l then fst (Layer.focus X ctrl) else z)
               = (if lid z =? l then fst (Layer.focus z ctrl) else z)).
  { intros z Hzin. destruct (lid z =? l) eqn:E; [|reflexivity].
    apply Z.eqb_eq in E.
    rewrite (wf_lid_inj app z X (proj1 Hok) Hzin HX); [reflexivity|congruence]. }
  rewrite (map_ext_in _ _ _ Hz). split.
  - apply (app_ok_same_shape app); [exact Hok| |lia].
    apply Forall2_same_shape_map. intros z Hzin.
    destruct (lid z =? l) eqn:E; [|apply same_shape_refl].
    apply Z.eqb_eq in E. destruct (focus_keeps z ctrl) as [Hl Hr].
    split; [exact Hl|]. split; [rewrite Hr; reflexivity|].
    intros Hzok. apply focus_ok; [exact Hzok|].
    intros x Hx. exact (Hsub z x Hzin E Hx).
  - rewrite map_map. apply map_ext. intros z.
    destruct (lid z =? l); [apply focus_keeps|reflexivity].
Qed.

Lemma app_nodes_roots app app' :
  map root (layers app') = map root (layers app) -> app_nodes app' = app_nodes app.
Proof.
  unfold app_nodes. rewrite !flat_map_concat_map.
  rewrite <- !(map_map root nodes). intros ->. reflexivity.
Qed.

Lemma last_item_split {A} (l : list A) a :
  last_item l = Some a -> l = removelast l ++ [a].
Proof.
  unfold last_item. destruct (rev l) as [|b r] eqn:E; [discriminate|].
  intros H; inversion H; subst.
  assert (El : l = rev r ++ [a]).
  { rewrite <- (rev_involutive l), E. reflexivity. }
  rewrite El at 2. rewrite removelast_last. exact El.
Qed.

(** A method of the active layer that keeps its root. *)
Lemma on_active_layer_ok app f app' :
  app_ok app ->
  (forall l, lid (f l) = lid l /\ root (f l) = root l /\ (layer_ok l -> layer_ok (f l))) ->
  App.on_active_layer f app = Some app' -> app_ok app'.
Proof.
  intros Hok Hf. unfold App.on_active_layer.
  destruct (App.active_layer app) as [l|] eqn:Hl; [|discriminate].
  intros E; inversion E; subst. clear E.
  apply (app_ok_same_shape app); [exact Hok| |lia].
  rewrite (last_item_split _ _ Hl) at 1.
  apply Forall2_app.
  - rewrite <- (map_id (removelast (layers app))) at 2.
    apply Forall2_same_shape_map. intros; apply same_shape_refl.
  - constructor; [|constructor]. destruct (Hf l) as (H1 & H2 & H3).
    split; [exact H1|]. split; [rewrite H2; reflexivity|exact H3].
Qed.

Lemma app_ok_prefix e ls1 ls2 n :
  app_ok (mkApp e (ls1 ++ ls2) n) -> forall e', app_ok (mkApp e' ls1 n).
Proof.
  intros [(Hnd & Hlid & Hlt & Hllt) Hok] e'. unfold app_nodes in *. simpl in *.
  rewrite flat_map_app, map_app in Hnd. rewrite map_app in Hlid.
  split; [split; [|split; [|split]]|]; unfold app_nodes; simpl.
  - exact (NoDup_app_remove_r _ _ Hnd).
  - exact (NoDup_app_remove_r _ _ Hlid).
  - intros c Hc. apply Hlt. rewrite flat_map_app, in_app_iff. auto.
  - intros l Hl. apply Hllt. rewrite in_app_iff. auto.
  - exact (proj1 (proj1 (Forall_app _ _ _) Hok)).
Qed.

Lemma pop_layer_ok app app' :
  app_ok app -> App.pop_layer app = Some app' -> app_ok app'.
Proof.
  intros Hok. unfold App.pop_layer.
  destruct (layers app) as [|l ls] eqn:E; [discriminate|].
  intros H; inversion H; subst. clear H.
  destruct (exists_last (l := l :: ls)) as (ls1 & a & El); [discriminate|].
  change (match ls with [] => [] | _ :: _ => l :: removelast ls end)
    with (removelast (l :: ls)).
  rewrite El, removelast_last.
  apply (app_ok_prefix (exit app) ls1 [a]).
  rewrite <- El, <- E. destruct app; exact Hok.
Qed.

Lemma app_ok_exit app e :
  app_ok app -> app_ok (mkApp e (layers app) (next_addr app)).
Proof.
  intros Hok. apply (app_ok_same_shape app); [exact Hok| |lia].
  rewrite <- (map_id (layers app)) at 2.
  apply Forall2_same_shape_map. intros; apply same_shape_refl.
Qed.

(** [Popup(x, y, inner, on_close).show(app)] with a childless [inner]. *)
Lemma show_popup_ok app rect inner cb :
  app_ok app ->
  (forall n, addr_of (inner n) = n /\ children (inner n) = []) ->
  app_ok (show_popup app rect inner cb).
Proof.
  intros [(Hnd & Hlid & Hlt & Hllt) Hok] Hinner.
  unfold show_popup, App.push_layer. cbn [exit layers next_addr].
  set (n := next_addr app).
  set (popup := Popup (n + 1) (Z.max 0 (x rect - 2)) (Z.max 0 (y rect - 1))
                      (inner n) cb []).
  destruct (init_keeps (n + 2) popup) as [Hl Hr].
  destruct (Hinner n) as [Ha Hc].
  assert (Hnodes : nodes popup = [popup; inner n]).
  { subst popup. cbn [nodes]. rewrite (nodes_unfold (inner n)), Hc. reflexivity. }
  split; [split; [|split; [|split]]|]; unfold app_nodes in *; cbn [layers next_addr].
  - rewrite flat_map_app, map_app. cbn [flat_map]. rewrite Hr, Hnodes, app_nil_r.
    cbn [map addr_of]. fold (addr_of (inner n)). rewrite Ha.
    apply NoDup_app; [exact Hnd| |].
    + repeat constructor; simpl; intuition lia.
    + intros a Hin [<-|[<-|[]]]; apply in_map_iff in Hin;
        destruct Hin as (c & E & Hcin); specialize (Hlt c Hcin);
        subst popup n; simpl in E; lia.
  - rewrite map_app. cbn [map]. rewrite Hl.
    apply NoDup_app; [exact Hlid|repeat constructor; simpl; tauto|].
    intros a Hin [<-|[]]. apply in_map_iff in Hin.
    destruct Hin as (l & E & Hlin). specialize (Hllt l Hlin). subst n; lia.
  - intros c. rewrite flat_map_app, in_app_iff. cbn [flat_map].
    rewrite Hr, Hnodes, app_nil_r.
    intros [Hin|[<-|[<-|[]]]].
    + specialize (Hlt c Hin). subst n; lia.
    + subst popup; simpl; lia.
    + rewrite Ha; lia.
  - intros l. rewrite in_app_iff. intros [Hin|[<-|[]]].
    + specialize (Hllt l Hin). subst n; lia.
    + rewrite Hl. lia.
  - apply Forall_app. split; [exact Hok|]. constructor; [apply init_ok|constructor].
Qed.

Lemma layer_refs_no_ctrl a ls :
  existsb (ref_eqb (CtrlRef a)) (map (fun l => LayerRef (lid l)) ls) = false.
Proof. induction ls; simpl; auto. Qed.

Lemma layer_refs_in L ls :
  In L ls ->
  existsb (ref_eqb (LayerRef (lid L))) (map (fun l => LayerRef (lid l)) ls) = true.
Proof.
  intros Hin. apply existsb_exists. exists (LayerRef (lid L)).
  split; [|apply ref_eqb_refl]. apply in_map_iff. eauto.
Qed.

(** [app.layer(ctrl)] is a layer whose tree holds the control. *)
Lemma layer_of app c l :
  wf app -> In c (app_nodes app) ->
  App.layer app (CtrlRef (addr_of c)) = Some (Some (LayerRef l)) ->
  exists L, In L (layers app) /\ lid L = l /\ In c (nodes (root L)).
Proof.
  intros Hwf. unfold App.layer, App.find_ancestor.
  generalize (List.length (object_tree app)) as fuel. intros fuel. revert c.
  induction fuel as [|fuel IH]; intros c Hc; cbn [App.find_ancestor_loop];
    rewrite layer_refs_no_ctrl; [discriminate|].
  destruct (proj2 (object_tree_ctrl app c) Hc) as (p & Hin).
  unfold App.get_parent.
  change (CtrlRef (addr_of c)) with (ref_of (CtrlObj c)).
  rewrite (find_pair_of app p (CtrlObj c) Hwf Hin).
  apply object_tree_in in Hin.
  destruct Hin as [[_ E]|[(L & _ & _ & E)|[(L & HL & -> & E)|
             (L & P & ch & HL & HP & Hch & -> & E)]]]; try discriminate.
  - inversion E; subst. destruct fuel; cbn [App.find_ancestor_loop];
      rewrite (layer_refs_in L _ HL); intros H; inversion H; subst;
      exists L; auto using nodes_self.
  - inversion E; subst. intros H.
    destruct (IH P (in_app_nodes app L P HL HP) H) as (L' & HL' & Hl & HP').
    exists L'. split; [exact HL'|]. split; [exact Hl|].
    exact (nodes_trans _ _ _ (nodes_child P ch ch Hch (nodes_self ch)) HP').
Qed.

Lemma lookup_ctrl app r c :
  App.lookup app r = Some (CtrlObj c) ->
  In c (app_nodes app) /\ r = CtrlRef (addr_of c).
Proof.
  unfold App.lookup. destruct (App.find_pair app r) as [[p o]|] eqn:E; [|discriminate].
  intros H; inversion H; subst. apply find_pair_in in E. destruct E as [Hin <-].
  split; [|reflexivity]. apply object_tree_ctrl. eauto.
Qed.

(** The loop of Panel and Composite, run by a control of the tree. *)
Lemma focus_scan_ok c back : forall fuel app i ev app' ev',
  app_ok app -> In c (app_nodes app) ->
  focus_scan fuel app (addr_of c) (children c) back i ev = Some (app', ev') ->
  app_ok app'.
Proof.
  induction fuel as [|fuel IH]; intros app i ev app' ev' Hok Hc; cbn [focus_scan].
  - destruct (_ && _); intros H; inversion H; subst; exact Hok.
  - destruct ((0 <=? i) && (i <? len (children c)) && propagating ev);
      [|intros H; inversion H; subst; exact Hok].
    cbv zeta.
    destruct ((0 <=? i + (if back then -1 else 1)) &&
              (i + (if back then -1 else 1) <? len (children c)));
      [|apply IH; assumption].
    destruct (App.layer app (CtrlRef (addr_of c))) as [[[|l|]|]|] eqn:Hl;
      try discriminate.
    destruct (nth_error (children c) (Z.to_nat (i + (if back then -1 else 1))))
      as [ctrl|] eqn:Hn; [|discriminate].
    apply nth_error_In in Hn.
    destruct (layer_of app c l (proj1 Hok) Hc Hl) as (L0 & HL0 & Hlid & HcL).
    destruct (focus_in_ok app l ctrl Hok) as [Hok' Hroots].
    { intros L x HL HlL Hx.
      rewrite (wf_lid_inj app L L0 (proj1 Hok) HL HL0) by congruence.
      exact (nodes_trans _ _ _ (nodes_child c ctrl x Hn Hx) HcL). }
    apply IH; [exact Hok'|].
    rewrite (app_nodes_roots _ _ Hroots). exact Hc.
Qed.

Lemma focus_move_ok c back app ev app' ev' :
  app_ok app -> In c (app_nodes app) ->
  focus_move app (addr_of c) (children c) back ev = Some (app', ev') ->
  app_ok app'.
Proof.
  intros Hok Hc. unfold focus_move.
  destruct (App.find_ancestor _ _ _) as [[current|]|]; try discriminate.
  - destruct (index_of current (children c)) as [i|]; [|discriminate].
    apply focus_scan_ok; assumption.
  - intros H; inversion H; subst; exact Hok.
Qed.

Lemma call_on_close_ok app cb success inner app' :
  app_ok app -> call_on_close app cb success inner = Some app' -> app_ok app'.
Proof.
  intros Hok. unfold call_on_close, Combo_on_popup_close, DateCombo_on_popup_close.
  destruct cb as [c|c]; (destruct success; [|intros H; inversion H; subst; exact Hok]).
  - destruct (inner_index inner) as [i|]; [|discriminate].
    destruct (App.lookup app (CtrlRef c)) as [[|l|x]|] eqn:Hl;
      try (intros H; inversion H; subst; exact Hok).
    destruct x; try (intros H; inversion H; subst; exact Hok).
    intros H; inversion H; subst. apply lookup_ctrl in Hl.
    eapply store_ok; [exact Hok|exact (proj1 Hl)| | | |]; reflexivity.
  - destruct (inner_value inner) as [v|]; [|discriminate].
    destruct (App.lookup app (CtrlRef c)) as [[|l|x]|] eqn:Hl;
      try (intros H; inversion H; subst; exact Hok).
    destruct x; try (intros H; inversion H; subst; exact Hok).
    intros H; inversion H; subst. apply lookup_ctrl in Hl.
    eapply store_ok; [exact Hok|exact (proj1 Hl)| | | |]; reflexivity.
Qed.

Lemma close_ok app cb success inner app' :
  app_ok app ->
  bind (call_on_close app cb success inner) App.pop_layer = Some app' ->
  app_ok app'.
Proof.
  intros Hok. destruct (call_on_close app cb success inner) as [app1|] eqn:E;
    [|discriminate].
  cbn [bind]. apply pop_layer_ok. exact (call_on_close_ok _ _ _ _ _ Hok E).
Qed.

Lemma Popup_on_event_ok app inner cb ev app' ev' :
  app_ok app -> Popup_on_event app inner cb ev = Some (app', ev') -> app_ok app'.
Proof.
  intros Hok. unfold Popup_on_event.
  destruct (EventType_eqb (type ev) key_event);
    [|intros H; inversion H; subst; exact Hok].
  assert (H1 : forall a1,
             (if is_code (key ev) curses.ascii.ESC
              then bind (call_on_close app cb false inner) App.pop_layer
              else Some app) = Some a1 -> app_ok a1).
  { intros a1. destruct (is_code _ _); [apply close_ok; exact Hok|].
    intros H; inversion H; subst; exact Hok. }
  destruct (if is_code (key ev) curses.ascii.ESC then _ else _) as [a1|];
    [|discriminate].
  specialize (H1 a1 eq_refl). cbn [bind].
  destruct (is_enter ev).
  - destruct (bind (call_on_close a1 cb true inner) App.pop_layer) as [a2|] eqn:E;
      [|discriminate].
    cbn [bind]. intros H; inversion H; subst. exact (close_ok _ _ _ _ _ H1 E).
  - cbn [bind]. intros H; inversion H; subst. exact H1.
Qed.

Lemma App_on_event_ok app ev app' ev' :
  app_ok app -> App_on_event app ev = Some (app', ev') -> app_ok app'.
Proof.
  intros Hok. unfold App_on_event.
  set (st := if code_in (key ev) [curses.ascii.ESC]
             then (mkApp true (layers app) (next_addr app), stop ev) else (app, ev)).
  assert (H0 : app_ok (fst st)).
  { subst st. destruct (code_in _ _); [apply app_ok_exit|]; exact Hok. }
  destruct st as [a0 e0]. cbn [fst] in H0.
  assert (H1 : forall a1,
             (if code_in (key e0) [curses.KEY_DOWN; curses.ascii.TAB]
              then App.on_active_layer Layer._focus_first a0 else Some a0) = Some a1 ->
             app_ok a1).
  { intros a1. destruct (code_in _ _); [|intros H; inversion H; subst; exact H0].
    apply on_active_layer_ok; [exact H0|].
    intros l. destruct (focus_first_keeps l). auto using focus_first_ok. }
  destruct (if code_in (key e0) [curses.KEY_DOWN; curses.ascii.TAB] then _ else _)
    as [a1|]; [|discriminate].
  specialize (H1 a1 eq_refl). cbn [bind].
  destruct (code_in (key e0) [curses.KEY_UP; SHIFT_TAB]).
  - destruct (App.on_active_layer Layer._focus_last a1) as [a2|] eqn:E; [|discriminate].
    cbn [bind]. intros H; inversion H; subst.
    apply (on_active_layer_ok a1 Layer._focus_last); [exact H1| |exact E].
    intros l. destruct (focus_last_keeps l). auto using focus_last_ok.
  - cbn [bind]. intros H; inversion H; subst. exact H1.
Qed.

(** Every handler keeps the application in order. *)
Lemma on_event_ok now app p o ev app' ev' :
  app_ok app -> In (p, o) (object_tree app) ->
  on_event now app o ev = Some (app', ev') -> app_ok app'.
Proof.
  intros Hok Hin.
  destruct o as [|l|c]; cbn [on_event].
  - apply App_on_event_ok; exact Hok.
  - intros H; inversion H; subst; exact Hok.
  - assert (Hc : In c (app_nodes app)) by (apply object_tree_ctrl; eauto).
    destruct c as [a t|a cs|a lb ch|a s|a s|a cs m|a px py inner cb cap|a s|a s|a s];
      cbn [on_event];
      try (intros H; inversion H; subst; exact Hok).
    + unfold Panel_on_event. destruct (code_in _ _);
        [|intros H; inversion H; subst; exact Hok].
      exact (focus_move_ok (Panel a cs) _ app ev app' ev' Hok Hc).
    + intros H; inversion H; subst.
      eapply store_ok; [exact Hok|exact Hc| | | |]; reflexivity.
    + destruct (SelectDate.on_event now s ev) as [[s' e']|]; [|discriminate].
      cbn [bind fst snd]. intros H; inversion H; subst.
      eapply store_ok; [exact Hok|exact Hc| | | |]; reflexivity.
    + unfold Composite_on_event.
      destruct (EventType_eqb _ _); [|intros H; inversion H; subst; exact Hok].
      destruct (code_in _ _); [|intros H; inversion H; subst; exact Hok].
      exact (focus_move_ok (Composite a cs m) _ app ev app' ev' Hok Hc).
    + apply Popup_on_event_ok; exact Hok.
    + unfold Combo_on_event. destruct (_ && _);
        [|intros H; inversion H; subst; exact Hok].
      destruct (Combo.last_combo s); [|discriminate].
      intros H; inversion H; subst. apply show_popup_ok; [exact Hok|].
      intros n; split; reflexivity.
    + unfold DateCombo_on_event. destruct (_ && _);
        [|intros H; inversion H; subst; exact Hok].
      destruct (DateCombo.last_combo s); [|discriminate].
      intros H; inversion H; subst. apply show_popup_ok; [exact Hok|].
      intros n; split; reflexivity.
    + destruct (Edit.on_event s ev) as [[s' e']|]; [|discriminate].
      cbn [bind fst snd]. intros H; inversion H; subst.
      eapply store_ok; [exact Hok|exact Hc| | | |]; reflexivity.
Qed.

Lemma dispatch_loop_ok now : forall fuel app ev tgt app' ev',
  app_ok app -> dispatch_loop fuel now app ev tgt = Some (app', ev') -> app_ok app'.
Proof.
  induction fuel as [|fuel IH]; intros app ev tgt app' ev' Hok;
    cbn [dispatch_loop]; destruct tgt as [r|];
    try (intros H; inversion H; subst; exact Hok);
    (destruct (propagating ev); [|intros H; inversion H; subst; exact Hok]);
    [discriminate|].
  unfold App.lookup.
  destruct (App.find_pair app r) as [[p o]|] eqn:Hf; [|discriminate].
  cbn [bind]. apply find_pair_in in Hf.
  destruct (on_event now app o ev) as [[a1 e1]|] eqn:E; [|discriminate].
  cbn [bind fst snd]. apply IH.
  exact (on_event_ok now app p o ev a1 e1 Hok (proj1 Hf) E).
Qed.

(** A keystroke keeps the application in order. *)
Lemma keystroke_ok fuel now app c app' :
  app_ok app -> keystroke fuel now app c = Some app' -> app_ok app'.
Proof.
  intros Hok. unfold keystroke, dispatch_event.
  destruct (App.active_layer app) as [l|]; [|discriminate]. cbn [bind].
  destruct (dispatch_loop _ _ _ _ _) as [[a1 e1]|] eqn:E; [|discriminate].
  cbn [bind fst]. intros H; inversion H; subst.
  exact (dispatch_loop_ok now _ _ _ _ _ _ Hok E).
Qed.

End InvariantFacts.

(** ** Layer: the focused control *)

Section FocusedInTree.

Lemma focus_focusable l c :
  can_focus c = true ->
  Layer.focus l c = (mkLayer (lid l) (root l) (addr_of c), true).
Proof. destruct c; simpl; intros H; try discriminate; reflexivity. Qed.

Lemma init_focus a r :
  match Layer.first_focusable (object_tree_layer (mkLayer a r (addr_of r))) with
  | Some c => focused (Layer.init a r) = addr_of c /\ can_focus c = true /\
              In c (nodes r)
  | None => focused (Layer.init a r) = addr_of r
  end.
Proof.
  unfold Layer.init, Layer._focus_first.
  destruct (Layer.first_focusable _) as [c|] eqn:E; [|reflexivity].
  apply (first_focusable_in (mkLayer a r (addr_of r))) in E;
    [|apply object_tree_layer_in].
  destruct E as [Hin Hcf]. rewrite (focus_focusable _ c Hcf). auto.
Qed.

Lemma init_app_ok root fresh :
  NoDup (map addr_of (nodes root)) ->
  (forall c, In c (nodes root) -> addr_of c < fresh) ->
  app_ok (App.init root fresh).
Proof.
  intros Hnd Hlt. split; [apply init_wf; assumption|].
  constructor; [apply init_ok|constructor].
Qed.

(** C4 (the code on a Panel holding a labelled Edit and an Edit): the
    first control with [can_focus] in document order is the labelled Edit,
    and it is the one [Layer.focus] takes when called on the root.  The new
    Layer focuses the other Edit: [object_tree] yields the two children of
    the Panel before the Edit below the Labeled, and [_focus_first] takes
    the first pair with [can_focus].  When Tab or Down wraps around,
    [App.on_event] calls [_focus_first] again and the focus is back on the
    second Edit, so these keys never reach the labelled one. *)
Lemma Layer_init_not_first_in_document_order :
  let now := SelectDate.date 2024 1 15 in
  let first := Edit 3 (Edit.init (lit "a")) in
  let second := Edit 4 (Edit.init (lit "b")) in
  let root := Panel 1 [Labeled 2 (lit "name") first; second] in
  find can_focus (nodes root) = Some first /\
  focused (fst (Layer.focus (mkLayer 10 root 1) root)) = addr_of first /\
  focused (Layer.init 10 root) = addr_of second /\
  option_map (fun app => map focused (layers app))
             (keystroke 10 now (App.init root 10) curses.ascii.TAB) = Some [4] /\
  option_map (fun app => map focused (layers app))
             (keystroke 10 now (App.init root 10) curses.KEY_DOWN) = Some [4].
Proof. cbv zeta. repeat split. Qed.

(** The invariant of the focus: the focused field of a Layer is always
    the Layer's root or a control of its tree with [can_focus].  Layer
    construction establishes this: it focuses the first control with
    [can_focus] that [object_tree] yields, and leaves the focus on the root
    when no control can take it.  Every [focus] call on a control of the
    tree preserves it, and so does every keystroke dispatched in a
    well-formed application, for each of its layers. *)
Theorem Layer_focused_root_or_focusable :
  (forall a r,
      layer_ok (Layer.init a r) /\ root (Layer.init a r) = r /\
      match Layer.first_focusable (object_tree_layer (mkLayer a r (addr_of r))) with
      | Some c => focused (Layer.init a r) = addr_of c /\ can_focus c = true /\
                  In c (nodes r)
      | None => focused (Layer.init a r) = addr_of r
      end /\
      ((forall x, In x (nodes r) -> can_focus x = false) ->
       focused (Layer.init a r) = addr_of r)) /\
  (forall l ctrl,
      layer_ok l -> (forall x, In x (nodes ctrl) -> In x (nodes (root l))) ->
      layer_ok (fst (Layer.focus l ctrl)) /\
      root (fst (Layer.focus l ctrl)) = root l) /\
  (forall fuel now app c app',
      wf app -> Forall layer_ok (layers app) ->
      keystroke fuel now app c = Some app' ->
      wf app' /\ Forall layer_ok (layers app')).
Proof.
  split; [|split].
  - intros a r. split; [apply init_ok|]. split; [apply init_keeps|].
    split; [apply init_focus|].
    intros Hnone. pose proof (init_focus a r) as H.
    destruct (Layer.first_focusable _) as [c|]; [|exact H].
    destruct H as (_ & Hcf & Hin). rewrite (Hnone c Hin) in Hcf. discriminate.
  - intros l ctrl Hok Hsub. split; [apply focus_ok; assumption|apply focus_keeps].
  - intros fuel now app c app' Hwf Hok Hk.
    exact (keystroke_ok fuel now app c app' (conj Hwf Hok) Hk).
Qed.

Lemma Layer_focused_root_or_focusable_witness :
  exists app',
    keystroke 10 (SelectDate.date 2024 1 15)
              (App.init (Panel 1 [Labeled 2 (lit "name") (Edit 3 (Edit.init (lit "a")));
                                  Edit 4 (Edit.init (lit "b"))]) 10)
              curses.KEY_UP = Some app' /\
    map focused (layers app') = [3] /\
    Forall layer_ok (layers app').
Proof.
  destruct (keystroke 10 (SelectDate.date 2024 1 15)
              (App.init (Panel 1 [Labeled 2 (lit "name") (Edit 3 (Edit.init (lit "a")));
                                  Edit 4 (Edit.init (lit "b"))]) 10)
              curses.KEY_UP) as [app'|] eqn:E; [|vm_compute in E; discriminate].
  exists app'. split; [reflexivity|]. split.
  - vm_compute in E. inversion E; subst. reflexivity.
  - refine (proj2 (proj2 (proj2 Layer_focused_root_or_focusable) _ _ _ _ _ _ _ E)).
    + apply init_wf.
      * simpl. repeat constructor; simpl; intuition discriminate.
      * simpl. intros c [<-|[<-|[<-|[<-|[]]]]]; reflexivity.
    + constructor; [apply init_ok|constructor].
Defined.

End FocusedInTree.

(** ** Combo: the popup *)

Section ComboPopup.
Variable now : datetime.t.

Lemma get_parent_of app p o :
  wf app -> In (p, o) (object_tree app) -> App.get_parent app (ref_of o) = p.
Proof.
  intros Hwf Hin. unfold App.get_parent.
  rewrite (find_pair_of app p o Hwf Hin). reflexivity.
Qed.

Lemma lookup_of app p o :
  wf app -> In (p, o) (object_tree app) -> App.lookup app (ref_of o) = Some o.
Proof.
  intros Hwf Hin. unfold App.lookup.
  rewrite (find_pair_of app p o Hwf Hin). reflexivity.
Qed.

Lemma get_parent_absent app r :
  (forall p o, In (p, o) (object_tree app) -> ref_of o <> r) ->
  App.get_parent app r = None.
Proof.
  intros Habs. unfold App.get_parent.
  destruct (App.find_pair app r) as [[p o]|] eqn:E; [|reflexivity].
  apply find_pair_in in E. destruct E as [Hin Hr].
  exfalso. exact (Habs p o Hin Hr).
Qed.

(** One turn of the loop of [dispatch_event]. *)
Lemma dispatch_step app ev p o app1 ev1 fuel :
  wf app -> In (p, o) (object_tree app) -> propagating ev = true ->
  on_event now app o ev = Some (app1, ev1) ->
  dispatch_loop (S fuel) now app ev (Some (ref_of o))
  = dispatch_loop fuel now app1 (set_last ev1 (ref_of o))
                  (App.get_parent app1 (ref_of o)).
Proof.
  intros Hwf Hin Hp He. cbn [dispatch_loop]. rewrite Hp.
  rewrite (lookup_of app p o Hwf Hin). cbn [bind]. rewrite He. reflexivity.
Qed.

Lemma replace_in new c : forall r,
  In c (nodes r) -> addr_of c = addr_of new -> In new (nodes (replace new r)).
Proof.
  induction r as [r IH] using Control_children_ind. intros Hc Ha.
  rewrite Forall_forall in IH.
  destruct (addr_of r =? addr_of new) eqn:E.
  - assert (Hr : replace new r = new) by (destruct r; simpl in *; rewrite E; reflexivity).
    rewrite Hr. apply nodes_self.
  - rewrite nodes_unfold in Hc. destruct Hc as [<-|Hc].
    + apply Z.eqb_neq in E. congruence.
    + apply in_flat_map in Hc. destruct Hc as (ch & Hch & Hc).
      apply (nodes_child _ (replace new ch)); [|exact (IH ch Hch Hc Ha)].
      rewrite (proj1 (replace_rebuilt new r E)). apply in_map. exact Hch.
Qed.

(** After a childless control has been mutated in place, the object at
    its address is its new state. *)
Lemma lookup_store app c new :
  app_ok app -> In c (app_nodes app) ->
  addr_of new = addr_of c -> children c = [] -> children new = [] ->
  can_focus new = can_focus c ->
  App.lookup (App.store app new) (CtrlRef (addr_of new)) = Some (CtrlObj new).
Proof.
  intros Hok Hc Ha Hcl Hnl Hcf.
  pose proof (store_ok app c new Hok Hc Ha Hcl Hnl Hcf) as [Hwf _].
  assert (Hin : In new (app_nodes (App.store app new))).
  { unfold app_nodes in *. apply in_flat_map in Hc. destruct Hc as (l & Hl & Hc).
    apply in_flat_map.
    exists (mkLayer (lid l) (replace new (root l)) (focused l)). split.
    - unfold App.store. cbn [layers].
      apply (in_map (fun l => mkLayer (lid l) (replace new (root l)) (focused l))).
      exact Hl.
    - cbn [root]. apply (replace_in new c); [exact Hc|congruence]. }
  apply object_tree_ctrl in Hin. destruct Hin as (p & Hin).
  exact (lookup_of _ p (CtrlObj new) Hwf Hin).
Qed.

Lemma on_event_propagating s ev :
  propagating (snd (SelectList.on_event s ev)) = true ->
  SelectList.on_event s ev = (s, ev).
Proof.
  unfold SelectList.on_event, SelectList.on_down, SelectList.on_up.
  destruct (EventType_eqb _ _); [|reflexivity].
  destruct (is_code (key ev) curses.KEY_UP && (0 <? SelectList.index s));
    cbn [key stop propagating snd fst];
    destruct (is_code (key ev) curses.KEY_DOWN && _); cbn [snd propagating stop];
    intros H; try discriminate; reflexivity.
Qed.

Section Opened.
Variables (app : App) (a : addr) (rect : Rect).
Hypothesis Hok : app_ok app.

Local Abbreviation n := (next_addr app).
Local Abbreviation popup := (combo_popup_ctrl app a rect).
Local Abbreviation top := (combo_popup_layer app a rect).

Lemma combo_popup_eq sel :
  combo_popup app a rect sel
  = mkApp (exit app) (layers app ++ [top sel]) (n + 3).
Proof.
  unfold combo_popup, show_popup, App.push_layer. cbn [exit layers next_addr].
  f_equal. lia.
Qed.

Lemma combo_popup_ok sel : app_ok (combo_popup app a rect sel).
Proof.
  apply show_popup_ok; [exact Hok|]. intros m; split; reflexivity.
Qed.

Lemma fresh_addr c : In c (app_nodes app) -> addr_of c < n.
Proof. destruct Hok as [(_ & _ & Hlt & _) _]. exact (Hlt c). Qed.

Lemma active_top sel : App.active_layer (combo_popup app a rect sel) = Some (top sel).
Proof.
  rewrite combo_popup_eq. unfold App.active_layer, last_item. cbn [layers].
  rewrite rev_app_distr. reflexivity.
Qed.

Lemma top_in sel : In (top sel) (layers (combo_popup app a rect sel)).
Proof. rewrite combo_popup_eq. cbn [layers]. apply in_or_app. right; left; reflexivity. Qed.

Lemma list_in_tree sel :
  In (Some (CtrlRef (n + 1)), CtrlObj (SelectList n sel))
     (object_tree (combo_popup app a rect sel)).
Proof.
  apply object_tree_in. right; right; right.
  exists (top sel), (popup sel), (SelectList n sel).
  split; [apply top_in|]. split; [left; reflexivity|].
  split; [left; reflexivity|]. split; reflexivity.
Qed.

Lemma popup_in_tree sel :
  In (Some (LayerRef (n + 2)), CtrlObj (popup sel))
     (object_tree (combo_popup app a rect sel)).
Proof.
  apply object_tree_in. right; right; left.
  exists (top sel). split; [apply top_in|]. split; reflexivity.
Qed.

Lemma top_in_tree sel :
  In (Some AppRef, LayerObj (top sel)) (object_tree (combo_popup app a rect sel)).
Proof.
  apply object_tree_in. right; left.
  exists (top sel). split; [apply top_in|]. split; reflexivity.
Qed.

(** What lies under the popup is still there. *)
Lemma below_in_tree sel c :
  In c (app_nodes app) -> In c (app_nodes (combo_popup app a rect sel)).
Proof.
  rewrite combo_popup_eq. unfold app_nodes. cbn [layers].
  rewrite flat_map_app, in_app_iff. auto.
Qed.

(** The SelectList of the popup mutated in place. *)
Lemma store_list sel sel' :
  App.store (combo_popup app a rect sel) (SelectList n sel')
  = combo_popup app a rect sel'.
Proof.
  rewrite !combo_popup_eq. unfold App.store. cbn [exit layers next_addr].
  f_equal. rewrite map_app. f_equal.
  - rewrite <- (map_id (layers app)) at 2. apply map_ext_in. intros l Hl.
    rewrite replace_same; [destruct l; reflexivity|].
    intros c Hc E. exfalso.
    pose proof (fresh_addr c (in_app_nodes app l c Hl Hc)) as Hlt.
    simpl in E. lia.
  - cbn [map]. unfold combo_popup_layer, combo_popup_ctrl.
    cbn [lid root focused replace addr_of].
    replace (n + 1 =? n) with false by (symmetry; apply Z.eqb_neq; lia).
    rewrite Z.eqb_refl. reflexivity.
Qed.

Lemma popup_absent app' :
  (forall c, In c (app_nodes app') -> addr_of c < n) ->
  App.get_parent app' (CtrlRef (n + 1)) = None.
Proof.
  intros Hlt. apply get_parent_absent. intros p o Hin E.
  destruct o as [|l|c]; try discriminate.
  assert (Hc : In c (app_nodes app')) by (apply object_tree_ctrl; eauto).
  specialize (Hlt c Hc). simpl in E. inversion E. lia.
Qed.

Lemma loop_done fuel app' ev : dispatch_loop fuel now app' ev None = Some (app', ev).
Proof. destruct fuel; reflexivity. Qed.

Lemma loop_stopped fuel app' ev tgt :
  propagating ev = false -> dispatch_loop fuel now app' ev tgt = Some (app', ev).
Proof. intros Hp. destruct fuel, tgt; cbn [dispatch_loop]; rewrite ?Hp; reflexivity. Qed.

(** The first turn, on the SelectList, then the parent is the Popup. *)
Lemma list_turn sel ev fuel :
  propagating ev = true ->
  dispatch_loop (S fuel) now (combo_popup app a rect sel) ev (Some (CtrlRef n))
  = dispatch_loop fuel now
      (combo_popup app a rect (fst (SelectList.on_event sel ev)))
      (set_last (snd (SelectList.on_event sel ev)) (CtrlRef n))
      (Some (CtrlRef (n + 1))).
Proof.
  intros Hp.
  assert (He : on_event now (combo_popup app a rect sel)
                        (CtrlObj (SelectList n sel)) ev
               = Some (combo_popup app a rect (fst (SelectList.on_event sel ev)),
                       snd (SelectList.on_event sel ev))).
  { cbn [on_event]. rewrite store_list. reflexivity. }
  eapply eq_trans.
  { exact (dispatch_step _ ev _ _ _ _ fuel
             (proj1 (combo_popup_ok sel)) (list_in_tree sel) Hp He). }
  cbn [ref_of addr_of]. f_equal.
  exact (get_parent_of _ _ (CtrlObj (SelectList n (fst (SelectList.on_event sel ev))))
           (proj1 (combo_popup_ok _)) (list_in_tree _)).
Qed.

(** The second turn, on the Popup. *)
Lemma popup_turn sel ev app1 ev1 fuel :
  propagating ev = true ->
  on_event now (combo_popup app a rect sel) (CtrlObj (popup sel)) ev
  = Some (app1, ev1) ->
  dispatch_loop (S fuel) now (combo_popup app a rect sel) ev (Some (CtrlRef (n + 1)))
  = dispatch_loop fuel now app1 (set_last ev1 (CtrlRef (n + 1)))
                  (App.get_parent app1 (CtrlRef (n + 1))).
Proof.
  intros Hp He.
  exact (dispatch_step _ ev _ _ _ _ fuel
           (proj1 (combo_popup_ok sel)) (popup_in_tree sel) Hp He).
Qed.

Lemma pop_top sel e' :
  App.pop_layer (mkApp e' (layers app ++ [top sel]) (n + 3))
  = Some (mkApp e' (layers app) (n + 3)).
Proof.
  unfold App.pop_layer. cbn [layers exit next_addr].
  rewrite removelast_last. destruct (layers app); reflexivity.
Qed.

(** Escape in the popup: the layer is popped, nothing else changes. *)
Lemma escape_cancels sel fuel :
  (2 <= fuel)%nat ->
  keystroke fuel now (combo_popup app a rect sel) curses.ascii.ESC
  = Some (mkApp (exit app) (layers app) (n + 3)).
Proof.
  intros Hfuel. destruct fuel as [|[|fuel]]; try lia.
  unfold keystroke, dispatch_event. rewrite active_top. cbn [bind combo_popup_layer focused].
  change (target (press curses.ascii.ESC (CtrlRef n))) with (CtrlRef n).
  rewrite list_turn by reflexivity.
  change (SelectList.on_event sel (press curses.ascii.ESC (CtrlRef n)))
    with (sel, press curses.ascii.ESC (CtrlRef n)).
  cbn [fst snd].
  assert (He : on_event now (combo_popup app a rect sel) (CtrlObj (popup sel))
                 (set_last (press curses.ascii.ESC (CtrlRef n)) (CtrlRef n))
               = Some (mkApp (exit app) (layers app) (n + 3),
                       set_last (press curses.ascii.ESC (CtrlRef n)) (CtrlRef n))).
  { unfold combo_popup_ctrl. cbn [on_event]. unfold Popup_on_event.
    cbn [type key set_last press Event_init EventType_eqb].
    change (is_code (Some curses.ascii.ESC) curses.ascii.ESC) with true.
    cbv iota. unfold call_on_close, Combo_on_popup_close. cbn [bind].
    rewrite combo_popup_eq, pop_top. reflexivity. }
  rewrite (popup_turn sel (set_last (press curses.ascii.ESC (CtrlRef n)) (CtrlRef n))
             _ _ fuel eq_refl He).
  rewrite popup_absent.
  - rewrite loop_done. reflexivity.
  - intros c Hc. exact (fresh_addr c Hc).
Qed.

(** Enter in the popup: the index of the SelectList is written to the
    Combo, then the layer is popped. *)
Lemma enter_commits sel s k fuel :
  (2 <= fuel)%nat -> In (Combo a s) (app_nodes app) ->
  k = ALT_ENTER \/ k = curses.KEY_ENTER ->
  keystroke fuel now (combo_popup app a rect sel) k
  = Some (mkApp (exit app)
                (layers (App.store app
                           (Combo a (Combo.mk (Combo.choices s) (SelectList.index sel)
                                              (Combo.last_combo s)))))
                (n + 3)).
Proof.
  intros Hfuel Hs Hk. destruct fuel as [|[|fuel]]; try lia.
  set (X := Combo a (Combo.mk (Combo.choices s) (SelectList.index sel)
                              (Combo.last_combo s))).
  unfold keystroke, dispatch_event. rewrite active_top. cbn [bind combo_popup_layer focused].
  change (target (press k (CtrlRef n))) with (CtrlRef n).
  rewrite list_turn by reflexivity.
  assert (Hl : SelectList.on_event sel (press k (CtrlRef n))
               = (sel, press k (CtrlRef n)))
    by (destruct Hk as [->| ->]; reflexivity).
  rewrite Hl. cbn [fst snd].
  assert (Hlook : App.lookup (combo_popup app a rect sel) (CtrlRef a)
                  = Some (CtrlObj (Combo a s))).
  { destruct (proj2 (object_tree_ctrl _ _) (below_in_tree sel _ Hs)) as (p & Hin).
    exact (lookup_of _ p (CtrlObj (Combo a s)) (proj1 (combo_popup_ok sel)) Hin). }
  assert (He : on_event now (combo_popup app a rect sel) (CtrlObj (popup sel))
                 (set_last (press k (CtrlRef n)) (CtrlRef n))
               = Some (mkApp (exit app) (layers (App.store app X)) (n + 3),
                       set_last (press k (CtrlRef n)) (CtrlRef n))).
  { unfold combo_popup_ctrl. cbn [on_event]. unfold Popup_on_event.
    cbn [type key set_last press Event_init EventType_eqb].
    replace (is_code (Some k) curses.ascii.ESC) with false
      by (destruct Hk as [->| ->]; reflexivity).
    cbn [bind].
    replace (is_enter _) with true by (destruct Hk as [->| ->]; reflexivity).
    unfold call_on_close, Combo_on_popup_close. cbn [inner_index].
    rewrite Hlook. cbn [bind]. fold X.
    rewrite combo_popup_eq. unfold App.store. cbn [exit layers next_addr].
    rewrite map_app. cbn [map]. unfold App.pop_layer. cbn [exit layers next_addr].
    rewrite removelast_last.
    destruct (map _ (layers app) ++ _) eqn:E; [|reflexivity].
    apply app_eq_nil in E. destruct E; discriminate. }
  rewrite (popup_turn sel (set_last (press k (CtrlRef n)) (CtrlRef n))
             _ _ fuel eq_refl He).
  rewrite popup_absent; [rewrite loop_done; reflexivity|].
  intros c Hc.
  assert (Hok' : app_ok (App.store app X))
    by (eapply store_ok; [exact Hok|exact Hs| | | |]; reflexivity).
  destruct Hok' as [(_ & _ & Hlt & _) _]. exact (Hlt c Hc).
Qed.

Lemma on_active_top f sel :
  f (top sel) = top sel ->
  App.on_active_layer f (combo_popup app a rect sel)
  = Some (combo_popup app a rect sel).
Proof.
  intros Hf. unfold App.on_active_layer. rewrite active_top.
  rewrite combo_popup_eq. cbn [exit layers next_addr].
  rewrite removelast_last, Hf. reflexivity.
Qed.

(** Up or Down in the popup: only the SelectList changes. *)
Lemma arrow_moves sel k fuel :
  (4 <= fuel)%nat -> k = curses.KEY_UP \/ k = curses.KEY_DOWN ->
  keystroke fuel now (combo_popup app a rect sel) k
  = Some (combo_popup app a rect
            (fst (SelectList.on_event sel (press k (CtrlRef n))))).
Proof.
  intros Hfuel Hk. destruct fuel as [|[|[|[|fuel]]]]; try lia.
  unfold keystroke, dispatch_event. rewrite active_top. cbn [bind combo_popup_layer focused].
  change (target (press k (CtrlRef n))) with (CtrlRef n).
  rewrite list_turn by reflexivity.
  destruct (propagating (snd (SelectList.on_event sel (press k (CtrlRef n)))))
    eqn:Hp; [|rewrite loop_stopped by exact Hp; reflexivity].
  rewrite (on_event_propagating _ _ Hp). cbn [fst snd].
  set (S0 := combo_popup app a rect sel).
  assert (Hwf : wf S0) by exact (proj1 (combo_popup_ok sel)).
  assert (He : forall l, on_event now S0 (CtrlObj (popup sel))
                           (with_last (press k (CtrlRef n)) l)
                         = Some (S0, with_last (press k (CtrlRef n)) l)).
  { intros l. destruct Hk as [->| ->]; reflexivity. }
  change (set_last (press k (CtrlRef n)) (CtrlRef n))
    with (with_last (press k (CtrlRef n)) (Some (CtrlRef n))).
  rewrite (popup_turn sel (with_last (press k (CtrlRef n)) (Some (CtrlRef n)))
             _ _ _ eq_refl (He _)).
  assert (Hg : App.get_parent S0 (CtrlRef (n + 1)) = Some (LayerRef (n + 2)))
    by exact (get_parent_of S0 _ (CtrlObj (popup sel)) Hwf (popup_in_tree sel)).
  rewrite Hg.
  assert (Ht : forall ev f, propagating ev = true ->
             dispatch_loop (S f) now S0 ev (Some (LayerRef (n + 2)))
             = dispatch_loop f now S0 (set_last ev (LayerRef (n + 2))) (Some AppRef)).
  { intros ev f Hpe.
    eapply eq_trans.
    { exact (dispatch_step S0 ev _ (LayerObj (top sel)) S0 ev f Hwf
               (top_in_tree sel) Hpe eq_refl). }
    f_equal.
    exact (get_parent_of S0 _ (LayerObj (top sel)) Hwf (top_in_tree sel)). }
  rewrite Ht by reflexivity.
  cbn [dispatch_loop propagating set_last with_last press Event_init].
  rewrite lookup_app. cbn [bind on_event].
  assert (Ha : forall l,
             App_on_event S0 (with_last (press k (CtrlRef n)) l)
             = Some (S0, with_last (press k (CtrlRef n)) l)).
  { intros l. unfold App_on_event.
    destruct Hk as [->| ->];
      cbn [key with_last press Event_init];
      unfold code_in, curses.ascii.ESC, curses.KEY_DOWN, curses.KEY_UP,
        curses.ascii.TAB, SHIFT_TAB; cbn [existsb is_code Z.eqb Pos.eqb orb];
      cbn [key with_last press Event_init bind];
      simpl (is_code _ _); cbn [orb bind]; unfold S0;
      rewrite on_active_top by reflexivity; reflexivity. }
  match goal with
  | |- context [App_on_event S0 ?e] =>
      change e with (with_last (press k (CtrlRef n))
                               (Some (ref_of (LayerObj (top sel)))))
  end.
  rewrite Ha. cbn [bind fst snd]. rewrite get_parent_app, loop_done. reflexivity.
Qed.

Lemma arrows_move fuel keys : forall sel,
  (4 <= fuel)%nat ->
  Forall (fun k => k = curses.KEY_UP \/ k = curses.KEY_DOWN) keys ->
  keystrokes fuel now (combo_popup app a rect sel) keys
  = Some (combo_popup app a rect
            (SelectList.run sel (map (fun k => press k (CtrlRef n)) keys))).
Proof.
  induction keys as [|k keys IH]; intros sel Hfuel Hall; [reflexivity|].
  inversion Hall as [|? ? Hk Hrest]; subst.
  cbn [keystrokes]. rewrite (arrow_moves sel k fuel Hfuel Hk). cbn [bind].
  rewrite (IH _ Hfuel Hrest). reflexivity.
Qed.

(** Layers and the controls that hold other controls pass Enter on. *)
Lemma passive_enter app' o enter tgt l :
  passive o -> enter = ALT_ENTER \/ enter = curses.KEY_ENTER ->
  on_event now app' o (with_last (press enter tgt) l)
  = Some (app', with_last (press enter tgt) l).
Proof.
  intros Hp He. destruct o as [|l0|c]; [contradiction|reflexivity|].
  destruct c; try contradiction; destruct He as [-> | ->]; reflexivity.
Qed.

(** Under the popup, the parent of the Combo climbs to the App through
    layers and containers, when the application held no Popup. *)
Lemma parent_climbs sel s p :
  (forall c, In c (app_nodes app) -> is_popup c = false) ->
  In (p, CtrlObj (Combo a s)) (object_tree app) ->
  exists pr m, p = Some pr /\ climbs (combo_popup app a rect sel) passive pr m.
Proof.
  intros Hnp Hin.
  assert (Hlay : forall l, In l (layers app) ->
                           In l (layers (combo_popup app a rect sel))).
  { intros l Hl. rewrite combo_popup_eq. cbn [layers]. apply in_or_app. auto. }
  apply object_tree_in in Hin.
  destruct Hin as [[_ E]|[(l & _ & _ & E)|[(l & Hl & Ep & Eo)|
             (l & P & ch & Hl & HP & Hch & Ep & Eo)]]]; try discriminate.
  - exists (LayerRef (lid l)), 1%nat. split; [exact Ep|].
    apply (climbs_step _ passive _ AppRef (LayerObj l) 0);
      [|reflexivity|exact I|constructor].
    apply object_tree_in. right; left. exists l. auto.
  - destruct (nodes_climb (combo_popup app a rect sel) l passive
                (fun c => children c <> [])) with (x := P) as (m & Hm).
    + exact (Hlay l Hl).
    + exact I.
    + intros x Hx Hc. pose proof (Hnp x (in_app_nodes app l x Hl Hx)) as Hx'.
      destruct x; simpl in *; try exact I; congruence.
    + intros c c' Hc' E. rewrite E in Hc'. exact Hc'.
    + exact HP.
    + intros E. rewrite E in Hch. exact Hch.
    + exists (CtrlRef (addr_of P)), m. split; [exact Ep|exact Hm].
Qed.

(** Enter on the focused Combo, in an application without Popups: the
    Combo shows its popup and the event bubbles on to the App, which has
    nothing to do on Enter. *)
Lemma enter_opens s l enter :
  In (Combo a s) (app_nodes app) -> Combo.last_combo s = Some rect ->
  App.active_layer app = Some l -> focused l = a ->
  (forall c, In c (app_nodes app) -> is_popup c = false) ->
  enter = ALT_ENTER \/ enter = curses.KEY_ENTER ->
  exists m, forall fuel, (m < fuel)%nat ->
    keystroke fuel now app enter
    = Some (combo_popup app a rect
              (SelectList.init_default (Combo.choices s) (Combo.index s))).
Proof.
  intros Hs Hrect Hact Hf Hnp He.
  set (start := SelectList.init_default (Combo.choices s) (Combo.index s)).
  destruct (proj2 (object_tree_ctrl app (Combo a s)) Hs) as (p & Hin).
  destruct (parent_climbs start s p Hnp Hin) as (pr & m & -> & Hclimb).
  pose proof (proj1 (combo_popup_ok start)) as Hwf1.
  assert (Hin1 : In (Some pr, CtrlObj (Combo a s))
                    (object_tree (combo_popup app a rect start))).
  { apply object_tree_in. apply object_tree_in in Hin.
    destruct Hin as [[E _]|[(l0 & _ & _ & E)|[(l0 & Hl & Ep & Eo)|
               (l0 & P & ch & Hl & HP & Hch & Ep & Eo)]]]; try discriminate.
    - right; right; left. exists l0. split; [|auto].
      rewrite combo_popup_eq. cbn [layers]. apply in_or_app. auto.
    - right; right; right. exists l0, P, ch. split; [|auto].
      rewrite combo_popup_eq. cbn [layers]. apply in_or_app. auto. }
  exists (S m). intros fuel Hfuel. destruct fuel as [|fuel]; [lia|].
  unfold keystroke. rewrite Hact. cbn [bind]. unfold dispatch_event.
  cbn [target press Event_init]. rewrite Hf.
  assert (Hev : on_event now app (CtrlObj (Combo a s)) (press enter (CtrlRef a))
                = Some (combo_popup app a rect start, press enter (CtrlRef a))).
  { cbn [on_event]. unfold Combo_on_event. rewrite Hrect.
    destruct He as [-> | ->]; reflexivity. }
  pose proof (dispatch_step app (press enter (CtrlRef a)) (Some pr)
                (CtrlObj (Combo a s)) _ _ fuel (proj1 Hok) Hin eq_refl Hev) as Hstep.
  cbn [ref_of addr_of] in Hstep.
  pose proof (get_parent_of _ (Some pr) (CtrlObj (Combo a s)) Hwf1 Hin1) as Hpar.
  cbn [ref_of addr_of] in Hpar.
  eapply eq_trans; [apply f_equal2; [exact Hstep|reflexivity]|].
  rewrite Hpar.
  destruct (dispatch_loop_climb now (combo_popup app a rect start) passive
              (press enter (CtrlRef a)) pr m Hwf1) with (fuel := fuel)
              (l := Some (CtrlRef a)) as (l' & Hd); auto.
  - intros p0 o l0 _ Hp. apply passive_enter; assumption.
  - lia.
  - change (set_last (press enter (CtrlRef a)) (CtrlRef a))
      with (with_last (press enter (CtrlRef a)) (Some (CtrlRef a))).
    rewrite Hd. destruct He as [-> | ->]; reflexivity.
Qed.

End Opened.

(** C5: for a Combo of a well-formed application, displayed at [rect]:
    on Enter its handler shows a Popup around a SelectList on the Combo's
    choices at the Combo's index, and when the Combo has the focus and no
    Popup is open yet the Enter keystroke does just that; any Up and Down
    keystrokes then move only that SelectList; Enter in the popup writes
    the SelectList's index to the Combo and pops the layer; Escape instead
    pops the layer and leaves every layer below, and so the Combo's index,
    as it was. *)
Theorem Combo_popup_commits_on_enter_only :
  forall app a s rect,
    wf app -> Forall layer_ok (layers app) ->
    In (Combo a s) (app_nodes app) -> Combo.last_combo s = Some rect ->
    let start := SelectList.init_default (Combo.choices s) (Combo.index s) in
    (forall ev, type ev = key_event -> is_enter ev = true ->
                Combo_on_event app a s ev = Some (combo_popup app a rect start, ev)) /\
    (forall l enter,
        App.active_layer app = Some l -> focused l = a ->
        (forall c, In c (app_nodes app) -> is_popup c = false) ->
        enter = ALT_ENTER \/ enter = curses.KEY_ENTER ->
        exists m, forall fuel, (m < fuel)%nat ->
          keystroke fuel now app enter = Some (combo_popup app a rect start)) /\
    forall keys fuel,
      Forall (fun k => k = curses.KEY_UP \/ k = curses.KEY_DOWN) keys ->
      (4 <= fuel)%nat ->
      let sel := SelectList.run start
                   (map (fun k => press k (CtrlRef (next_addr app))) keys) in
      keystrokes fuel now (combo_popup app a rect start) keys
      = Some (combo_popup app a rect sel) /\
      (forall enter,
          enter = ALT_ENTER \/ enter = curses.KEY_ENTER ->
          exists app',
            keystroke fuel now (combo_popup app a rect sel) enter = Some app' /\
            App.lookup app' (CtrlRef a)
            = Some (CtrlObj (Combo a (Combo.mk (Combo.choices s) (SelectList.index sel)
                                               (Combo.last_combo s)))) /\
            List.length (layers app') = List.length (layers app)) /\
      (exists app',
          keystroke fuel now (combo_popup app a rect sel) curses.ascii.ESC = Some app' /\
          layers app' = layers app /\
          App.lookup app' (CtrlRef a) = Some (CtrlObj (Combo a s))).
Proof.
  intros app a s rect Hwf Hlok Hs Hrect start.
  assert (Hok : app_ok app) by (split; assumption).
  split; [|split].
  - intros ev Ht He. unfold Combo_on_event. rewrite Ht, He, Hrect. reflexivity.
  - intros l enter Hact Hf Hnp He.
    exact (enter_opens app a rect Hok s l enter Hs Hrect Hact Hf Hnp He).
  - intros keys fuel Hkeys Hfuel sel. split; [|split].
    + exact (arrows_move app a rect Hok fuel keys start Hfuel Hkeys).
    + intros enter He. eexists. split.
      * apply (enter_commits app a rect Hok sel s enter fuel); [lia|exact Hs|exact He].
      * split.
        -- set (X := Combo a (Combo.mk (Combo.choices s) (SelectList.index sel)
                                       (Combo.last_combo s))).
           change (App.lookup (App.store app X) (CtrlRef a) = Some (CtrlObj X)).
           exact (lookup_store app (Combo a s) X Hok Hs eq_refl eq_refl eq_refl eq_refl).
        -- cbn [layers App.store]. apply length_map.
    + eexists. split; [apply (escape_cancels app a rect Hok sel fuel); lia|].
      split; [reflexivity|].
      change (App.lookup app (CtrlRef a) = Some (CtrlObj (Combo a s))).
      destruct (proj2 (object_tree_ctrl app (Combo a s)) Hs) as (p & Hin).
      exact (lookup_of app p (CtrlObj (Combo a s)) Hwf Hin).
Qed.

End ComboPopup.

Lemma Combo_popup_commits_on_enter_only_witness :
  let combo := Combo.mk [lit "a"; lit "b"; lit "c"] 0 (Some (mkRect 18 3 16 1)) in
  let app := App.init (Panel 1 [Labeled 2 (lit "letter") (Combo 3 combo)]) 10 in
  let start := SelectList.init_default [lit "a"; lit "b"; lit "c"] 0 in
  let sel := SelectList.run start
               (map (fun k => press k (CtrlRef (next_addr app)))
                    [curses.KEY_DOWN; curses.KEY_DOWN]) in
  SelectList.index sel = 2 /\
  (exists m, forall fuel, (m < fuel)%nat ->
     keystroke fuel (SelectDate.date 2024 1 15) app ALT_ENTER
     = Some (combo_popup app 3 (mkRect 18 3 16 1) start)) /\
  exists app',
    keystroke 4 (SelectDate.date 2024 1 15)
              (combo_popup app 3 (mkRect 18 3 16 1) sel) ALT_ENTER = Some app' /\
    App.lookup app' (CtrlRef 3)
    = Some (CtrlObj (Combo 3 (Combo.mk [lit "a"; lit "b"; lit "c"] 2
                                       (Some (mkRect 18 3 16 1))))).
Proof.
  cbv zeta. split; [reflexivity|].
  destruct (Combo_popup_commits_on_enter_only (SelectDate.date 2024 1 15)
              (App.init (Panel 1 [Labeled 2 (lit "letter")
                                    (Combo 3 (Combo.mk [lit "a"; lit "b"; lit "c"] 0
                                                       (Some (mkRect 18 3 16 1))))]) 10)
              3 (Combo.mk [lit "a"; lit "b"; lit "c"] 0 (Some (mkRect 18 3 16 1)))
              (mkRect 18 3 16 1)) as (_ & Hopen & H).
  - apply init_wf.
    + simpl. repeat constructor; simpl; intuition discriminate.
    + simpl. intros c [<-|[<-|[<-|[]]]]; reflexivity.
  - constructor; [apply init_ok|constructor].
  - simpl. tauto.
  - reflexivity.
  - split.
    + eapply Hopen.
      * reflexivity.
      * reflexivity.
      * simpl. intros c [<-|[<-|[<-|[]]]]; reflexivity.
      * left; reflexivity.
    + destruct (H [curses.KEY_DOWN; curses.KEY_DOWN] 4%nat) as (_ & Henter & _).
      * repeat constructor; tauto.
      * lia.
      * destruct (Henter ALT_ENTER (or_introl eq_refl)) as (app' & Hk & Hl & _).
        exists app'. split; [exact Hk|exact Hl].
Defined.

(* ====================================================================== *)
(** * Part II, continued -- the rest of the module                         *)
(* ====================================================================== *)

(** ** Rect *)

(** Two [adj_rect] in a row are one [adj_rect] by the sums; moving the
    origin alone ([dw = dh = 0]) keeps the right and the bottom edge where
    they were; and [sub_rect] places a rectangle of the given size at the
    given offset. *)
Theorem adj_rect_composes :
  forall r dx dy dw dh dx' dy' dw' dh',
    adj_rect (adj_rect r dx dy dw dh) dx' dy' dw' dh'
    = adj_rect r (dx + dx') (dy + dy') (dw + dw') (dh + dh') /\
    x (adj_rect r dx dy 0 0) + w (adj_rect r dx dy 0 0) = x r + w r /\
    y (adj_rect r dx dy 0 0) + h (adj_rect r dx dy 0 0) = y r + h r /\
    x (adj_rect r dx dy dw dh) + w (adj_rect r dx dy dw dh) = x r + w r - dw /\
    y (adj_rect r dx dy dw dh) + h (adj_rect r dx dy dw dh) = y r + h r - dh /\
    sub_rect r dx dy dw dh = mkRect (x r + dx) (y r + dy) dw dh.
Proof.
  intros [rx ry rw rh] dx dy dw dh dx' dy' dw' dh'.
  unfold adj_rect, sub_rect; cbn [x y w h].
  repeat split; try lia. f_equal; lia.
Qed.

(** ** [max] of a list *)

Lemma fold_left_max_spec l : forall a,
  (a <= fold_left Z.max l a) /\
  (forall b, In b l -> b <= fold_left Z.max l a) /\
  (fold_left Z.max l a = a \/ In (fold_left Z.max l a) l).
Proof.
  induction l as [|b l IH]; intros a; cbn [fold_left].
  - split; [lia|]. split; [intros b []|left; reflexivity].
  - destruct (IH (Z.max a b)) as (H1 & H2 & H3). split; [lia|]. split.
    + intros c [<-|Hc]; [lia|exact (H2 c Hc)].
    + destruct H3 as [H3|H3]; [|right; right; exact H3].
      rewrite H3. destruct (Z.max_spec a b) as [[_ ->]|[_ ->]]; [right; left|left]; reflexivity.
Qed.

Lemma maximum_spec l m :
  maximum l = Some m -> In m l /\ forall b, In b l -> b <= m.
Proof.
  destruct l as [|a l]; [discriminate|]. cbn [maximum]. intros E; inversion E; subst m.
  destruct (fold_left_max_spec l a) as (H1 & H2 & H3). split.
  - destruct H3 as [->|H3]; [left; reflexivity|right; exact H3].
  - intros b [<-|Hb]; [exact H1|exact (H2 b Hb)].
Qed.

Lemma maximum_some l : l <> [] -> exists m, maximum l = Some m.
Proof. destruct l; [congruence|]. intros _. eexists; reflexivity. Qed.

(** ** Vertical *)

Section VerticalFacts.
Context {V : Type} `{View.t V}.
Variables (width height : V -> Z).
Local Abbreviation fixed := (Horizontal.fixed_size width height).

Lemma vertical_measure_fixed vs : forall rect,
  fixed vs -> Vertical.measure vs rect = map (fun v => (width v, height v)) vs.
Proof.
  induction vs as [|v vs IH]; intros rect Hf; simpl; [reflexivity|].
  rewrite (Hf v rect (or_introl eq_refl)). f_equal.
  apply IH. intros u r Hu. apply Hf. right; exact Hu.
Qed.

Lemma vertical_disp_loop_calls vs m : forall rect scr,
  Vertical.disp_loop vs m rect scr
  = fold_left (fun s c => View.display (fst c) (snd c) s) (Vertical.calls vs m rect) scr.
Proof.
  induction vs as [|v vs IH]; intros rect scr; simpl; [reflexivity|].
  apply IH.
Qed.

Lemma vertical_calls_fixed vs m : forall rect i v,
  fixed vs -> nth_error vs i = Some v ->
  nth_error (Vertical.calls vs m rect) i
  = Some (v, adj_rect rect 0 (sum (map (fun u => height u + m) (firstn i vs))) 0 0).
Proof.
  induction vs as [|u vs IH]; intros rect i v Hf Hi.
  - destruct i; discriminate.
  - destruct i as [|i]; simpl in *.
    + inversion Hi; subst. f_equal. f_equal.
      destruct rect; unfold adj_rect, sub_rect; simpl. f_equal; lia.
    + rewrite (IH _ i v (fun a r Ha => Hf a r (or_intror Ha)) Hi).
      rewrite (Hf u rect (or_introl eq_refl)); simpl. f_equal. f_equal.
      destruct rect; unfold adj_rect, sub_rect; simpl. f_equal; lia.
Qed.

(** A Vertical of views whose measured sizes [(width v, height v)] do not
    depend on the rectangle: without views [size] raises (the [max] of an
    empty list); otherwise the width is the greatest width, the height is
    the sum of the heights plus the margin between two neighbours, and
    [disp] displays the views in order, view i in the parent rectangle
    moved down by the sum of [hj + margin] over the views j before it. *)
Theorem Vertical_height_and_offsets :
  forall (self : Vertical.t V) (rect : Rect),
    fixed (Vertical.views self) ->
    (Vertical.views self = [] -> Vertical.size self rect = None) /\
    (Vertical.views self <> [] ->
     exists mw,
       Vertical.size self rect
       = Some (mw, sum (map height (Vertical.views self))
                   + Vertical.margin self * (len (Vertical.views self) - 1)) /\
       (exists v, In v (Vertical.views self) /\ width v = mw) /\
       (forall v, In v (Vertical.views self) -> width v <= mw)) /\
    (forall scr,
        Vertical.disp self rect scr
        = fold_left (fun s c => View.display (fst c) (snd c) s)
                    (Vertical.calls (Vertical.views self) (Vertical.margin self) rect)
                    scr) /\
    (forall i v,
        nth_error (Vertical.views self) i = Some v ->
        let off := sum (map (fun u => height u + Vertical.margin self)
                            (firstn i (Vertical.views self))) in
        nth_error (Vertical.calls (Vertical.views self) (Vertical.margin self) rect) i
        = Some (v, mkRect (x rect) (y rect + off) (w rect) (h rect - off))).
Proof.
  intros [vs m] rect Hf; cbn [Vertical.views Vertical.margin] in *.
  split; [|split; [|split]].
  - intros ->. reflexivity.
  - intros Hne. unfold Vertical.size; cbn [Vertical.views Vertical.margin].
    rewrite (vertical_measure_fixed vs rect Hf). rewrite !map_map; cbn [fst snd].
    change (map (fun v : V => width v) vs) with (map width vs).
    change (map (fun v : V => height v) vs) with (map height vs).
    destruct (maximum_some (map width vs)) as (mw & Hmw).
    { destruct vs; [congruence|discriminate]. }
    rewrite Hmw. exists mw. split; [|split].
    + f_equal. f_equal. f_equal.
      assert (0 < len vs) by (destruct vs; [congruence|rewrite len_cons; pose proof (len_nonneg vs); lia]).
      lia.
    + destruct (maximum_spec _ _ Hmw) as [Hin _].
      apply in_map_iff in Hin. destruct Hin as (v & Hv & Hin). eauto.
    + intros v Hv. destruct (maximum_spec _ _ Hmw) as [_ Hle].
      apply Hle. apply in_map. exact Hv.
  - intros scr. apply vertical_disp_loop_calls.
  - intros i v Hi; cbv zeta.
    rewrite (vertical_calls_fixed vs m rect i v Hf Hi). f_equal. f_equal.
    destruct rect; unfold adj_rect, sub_rect; simpl. f_equal; lia.
Qed.

End VerticalFacts.

Lemma Vertical_height_and_offsets_witness :
  let ab := Display.mk (lit "ab") 0 7 0 0 in
  let cde := Display.mk (lit "cde") 5 7 0 0 in
  let self := Vertical.mk [ab; cde; ab] 1 in
  let rect := mkRect 10 3 80 24 in
  (exists mw, Vertical.size self rect = Some (mw, 1 + 1 + 1 + 1 * (3 - 1))) /\
  nth_error (Vertical.calls (Vertical.views self) 1 rect) 2
  = Some (ab, mkRect 10 (3 + ((1 + 1) + ((1 + 1) + 0))) 80 (24 - ((1 + 1) + ((1 + 1) + 0)))).
Proof.
  cbv zeta.
  destruct (Vertical_height_and_offsets
              (fun v => fst (Display.size v (mkRect 0 0 0 0))) (fun _ => 1)
              (Vertical.mk [Display.mk (lit "ab") 0 7 0 0;
                            Display.mk (lit "cde") 5 7 0 0;
                            Display.mk (lit "ab") 0 7 0 0] 1)
              (mkRect 10 3 80 24))
    as (_ & Hsize & _ & Hcalls).
  - intros v r _; reflexivity.
  - split.
    + destruct Hsize as (mw & Hs & _); [simpl; discriminate|].
      exists mw. exact Hs.
    + exact (Hcalls 2%nat _ eq_refl).
Defined.

(** ** Displays in a row or a column stay inside the rectangle *)

Lemma Display_disp_inside d rect scr a :
  In a (Display.disp d rect scr) -> In a scr \/ inside rect a.
Proof.
  unfold Display.disp.
  destruct ((Z.max 0 (w rect) >? 0) && (h rect >? 0)) eqn:E; [|auto].
  intros [<-|Ha]; [right|left; exact Ha].
  apply andb_prop in E. destruct E as [Ew Eh].
  apply Z.gtb_lt in Ew, Eh. unfold inside; cbn [at_y at_x shown].
  rewrite len_slice_to by lia. lia.
Qed.

Lemma horizontal_displays_inside (ds : list Display.t) m rect0 :
  0 <= m ->
  forall rect scr a,
    y rect = y rect0 -> h rect = h rect0 -> x rect0 <= x rect ->
    x rect + w rect = x rect0 + w rect0 ->
    In a (Horizontal.disp_loop ds m rect scr) -> In a scr \/ inside rect0 a.
Proof.
  intros Hm. induction ds as [|d ds IH]; intros rect scr a Hy Hh Hx Hw Ha.
  - left; exact Ha.
  - cbn [Horizontal.disp_loop] in Ha.
    pose proof (len_nonneg (Display.text d)) as Hlen.
    apply IH in Ha.
    + destruct Ha as [Ha|Ha]; [|right; exact Ha].
      apply Display_disp_inside in Ha. destruct Ha as [Ha|Ha]; [left; exact Ha|].
      right. unfold inside in *. lia.
    + unfold adj_rect, sub_rect;
        cbn [x y w h View.size Display_View Display.size fst snd]; lia.
    + unfold adj_rect, sub_rect;
        cbn [x y w h View.size Display_View Display.size fst snd]; lia.
    + unfold adj_rect, sub_rect;
        cbn [x y w h View.size Display_View Display.size fst snd]; lia.
    + unfold adj_rect, sub_rect;
        cbn [x y w h View.size Display_View Display.size fst snd]; lia.
Qed.

Lemma vertical_displays_inside (ds : list Display.t) m rect0 :
  0 <= m ->
  forall rect scr a,
    x rect = x rect0 -> w rect = w rect0 -> y rect0 <= y rect ->
    y rect + h rect = y rect0 + h rect0 ->
    In a (Vertical.disp_loop ds m rect scr) -> In a scr \/ inside rect0 a.
Proof.
  intros Hm. induction ds as [|d ds IH]; intros rect scr a Hx Hw Hy Hh Ha.
  - left; exact Ha.
  - cbn [Vertical.disp_loop] in Ha.
    apply IH in Ha.
    + destruct Ha as [Ha|Ha]; [|right; exact Ha].
      apply Display_disp_inside in Ha. destruct Ha as [Ha|Ha]; [left; exact Ha|].
      right. unfold inside in *. lia.
    + unfold adj_rect, sub_rect;
        cbn [x y w h View.size Display_View Display.size fst snd]; lia.
    + unfold adj_rect, sub_rect;
        cbn [x y w h View.size Display_View Display.size fst snd]; lia.
    + unfold adj_rect, sub_rect;
        cbn [x y w h View.size Display_View Display.size fst snd]; lia.
    + unfold adj_rect, sub_rect;
        cbn [x y w h View.size Display_View Display.size fst snd]; lia.
Qed.

(** With a margin that is not negative, a Horizontal and a Vertical of
    Displays write nothing outside the rectangle they are displayed in:
    each [addstr] they add is on a row of the rectangle, starts at one of
    its columns and ends before its right edge (a text that does not fit
    is cut, a Display that has no room left is not written). *)
Theorem Displays_stay_inside_rect :
  forall (ds : list Display.t) (m : Z) (rect : Rect) (scr : Screen) (a : Addstr),
    0 <= m ->
    (In a (Horizontal.disp (Horizontal.mk ds m) rect scr) -> In a scr \/ inside rect a) /\
    (In a (Vertical.disp (Vertical.mk ds m) rect scr) -> In a scr \/ inside rect a).
Proof.
  intros ds m rect scr a Hm. split; intros Ha.
  - apply (horizontal_displays_inside ds m rect Hm rect scr a); auto; lia.
  - apply (vertical_displays_inside ds m rect Hm rect scr a); auto; lia.
Qed.

Lemma Displays_stay_inside_rect_witness :
  let ds := [Display.mk (lit "name") 16 7 0 0; Display.mk (lit "a long value") 0 7 0 0] in
  let rect := mkRect 2 1 20 3 in
  Horizontal.disp (Horizontal.mk ds 0) rect []
  = [mkAddstr 1 18 (lit "a lo") 7 0 0; mkAddstr 1 2 (lit "name") 7 0 0] /\
  forall a, In a (Horizontal.disp (Horizontal.mk ds 0) rect []) -> inside rect a.
Proof.
  cbv zeta. split; [reflexivity|]. intros a Ha.
  destruct (Displays_stay_inside_rect
              [Display.mk (lit "name") 16 7 0 0; Display.mk (lit "a long value") 0 7 0 0]
              0 (mkRect 2 1 20 3) [] a) as [Hh _]; [lia|].
  destruct (Hh Ha) as [[]|Hin]. exact Hin.
Defined.

(** ** Grid *)

Lemma all_some_Forall2 {A B} (f : A -> option B) l : forall ys,
  all_some (map f l) = Some ys <-> Forall2 (fun a b => f a = Some b) l ys.
Proof.
  induction l as [|a l IH]; intros ys; cbn [map all_some].
  - split.
    + intros E; inversion E; constructor.
    + intros E; inversion E; reflexivity.
  - destruct (f a) as [b|] eqn:Ea.
    + destruct (all_some (map f l)) as [r|] eqn:Er.
      * split.
        -- intros E; inversion E; subst. constructor; [exact Ea|]. apply IH. reflexivity.
        -- intros E. inversion E as [|a0 b0 l0 ys0 Hab Hrest]; subst.
           apply IH in Hrest. congruence.
      * split; [discriminate|].
        intros E. inversion E as [|a0 b0 l0 ys0 Hab Hrest]; subst.
        apply IH in Hrest. discriminate.
    + split; [discriminate|].
      intros E. inversion E as [|a0 b0 l0 ys0 Hab Hrest]; subst. congruence.
Qed.

Lemma all_some_none {A B} (f : A -> option B) l a :
  In a l -> f a = None -> all_some (map f l) = None.
Proof.
  intros Ha Hf. destruct (all_some (map f l)) as [ys|] eqn:E; [|reflexivity].
  apply all_some_Forall2 in E. exfalso. clear -Ha Hf E.
  induction E as [|b y l ys Hb _ IH]; [contradiction|].
  destruct Ha as [<-|Ha]; [congruence|auto].
Qed.

Lemma all_some_total {A B} (f : A -> option B) l :
  (forall a, In a l -> exists b, f a = Some b) ->
  exists ys, all_some (map f l) = Some ys.
Proof.
  induction l as [|a l IH]; intros Hf; cbn [map all_some]; [eauto|].
  destruct (Hf a (or_introl eq_refl)) as (b & ->).
  destruct IH as (ys & ->); [intros; apply Hf; right; assumption|]. eauto.
Qed.

Lemma Forall2_nth_l {A B} (R : A -> B -> Prop) l ys :
  Forall2 R l ys ->
  forall i a, nth_error l i = Some a -> exists y, nth_error ys i = Some y /\ R a y.
Proof.
  induction 1 as [|a y l ys Hay _ IH]; intros i b Hi.
  - destruct i; discriminate.
  - destruct i as [|i]; cbn in *; [inversion Hi; subst; eauto|eauto].
Qed.

Lemma Forall2_nth_r {A B} (R : A -> B -> Prop) l ys :
  Forall2 R l ys ->
  forall i y, nth_error ys i = Some y -> exists a, nth_error l i = Some a /\ R a y.
Proof.
  induction 1 as [|a y l ys Hay _ IH]; intros i b Hi.
  - destruct i; discriminate.
  - destruct i as [|i]; cbn in *; [inversion Hi; subst; eauto|eauto].
Qed.

Lemma slice_to_nat {A} (s : list A) (j : nat) : slice_to s (Z.of_nat j) = firstn j s.
Proof.
  unfold slice_to. rewrite slice_bound_nonneg by (auto using len_nonneg; lia).
  destruct (Nat.le_gt_cases j (List.length s)) as [Hle|Hgt].
  - f_equal. unfold len. lia.
  - rewrite (firstn_all2 (n := j)) by lia.
    apply firstn_all2. unfold len. lia.
Qed.

Lemma sum_app l1 l2 : sum (l1 ++ l2) = sum l1 + sum l2.
Proof. induction l1 as [|a l1 IH]; cbn [sum fold_right app] in *; [reflexivity|]. unfold sum in *. lia. Qed.

Section GridFacts.
Context {V : Type} `{View.t V}.
Variables (width height : V -> Z).
Local Abbreviation fixed := (Horizontal.fixed_size width height).

Lemma size_grid_fixed rows rect :
  (forall row, In row rows -> fixed row) ->
  map (map (fun col => View.size col rect)) rows
  = map (map (fun v => (width v, height v))) rows.
Proof.
  intros Hf. apply map_ext_in. intros row Hrow.
  apply map_ext_in. intros v Hv. exact (Hf row Hrow v rect Hv).
Qed.

(** The width of column [k]: the greatest width of the cells [k] of the
    rows. *)
Lemma col_width_fixed rows k :
  rows <> [] -> (forall row, In row rows -> (k < List.length row)%nat) ->
  exists cw,
    Grid.col_width (map (map (fun v => (width v, height v))) rows) k = Some cw /\
    (forall row v, In row rows -> nth_error row k = Some v -> width v <= cw) /\
    (exists row v, In row rows /\ nth_error row k = Some v /\ width v = cw).
Proof.
  intros Hne Hlen. unfold Grid.col_width. rewrite map_map.
  destruct (all_some_total
              (fun row => option_map fst
                            (nth_error (map (fun v => (width v, height v)) row) k)) rows)
    as (ws & Hws).
  { intros row Hrow. rewrite nth_error_map.
    destruct (nth_error row k) as [v|] eqn:E; [cbn; eauto|].
    apply nth_error_None in E. specialize (Hlen row Hrow). lia. }
  rewrite Hws. pose proof (proj1 (all_some_Forall2 _ _ _) Hws) as HF.
  destruct (maximum_some ws) as (cw & Hcw).
  { intros ->. inversion HF. congruence. }
  exists cw. split; [exact Hcw|]. destruct (maximum_spec _ _ Hcw) as [Hin Hle]. split.
  - intros row v Hrow Hv. apply In_nth_error in Hrow. destruct Hrow as (j & Hj).
    destruct (Forall2_nth_l _ _ _ HF j row Hj) as (y & Hy & Hr).
    rewrite nth_error_map, Hv in Hr. cbn in Hr. inversion Hr; subst y.
    apply Hle. exact (nth_error_In _ _ Hy).
  - apply In_nth_error in Hin. destruct Hin as (j & Hj).
    destruct (Forall2_nth_r _ _ _ HF j cw Hj) as (row & Hrow & Hr).
    rewrite nth_error_map in Hr. destruct (nth_error row k) as [v|] eqn:Hv; [|discriminate].
    cbn in Hr. inversion Hr. exists row, v.
    split; [exact (nth_error_In _ _ Hrow)|]. split; [exact Hv|reflexivity].
Qed.

(** The calls of one row, from column [i0] on, once [size] has set the
    column widths. *)
Lemma row_calls_spec (self : Grid.t V) rect cws :
  Grid.col_widths self = Some cws ->
  forall cells i0 rrect,
    fixed cells -> (i0 + List.length cells <= List.length cws)%nat ->
    exists cs,
      Grid.row_calls self rect cells i0 rrect = Some cs /\
      forall k v, nth_error cells k = Some v ->
        exists r, nth_error cs k = Some (v, r) /\ y r = y rrect /\
          (Grid.align_right self = true ->
           x r + width v
           = x rrect + sum (firstn (S k) (skipn i0 cws)) + Z.of_nat k * Grid.h_margin self) /\
          (Grid.align_right self = false ->
           x r = x rrect + sum (map (fun u => width u + Grid.h_margin self) (firstn k cells))).
Proof.
  intros Hcw. induction cells as [|cell rest IH]; intros i0 rrect Hf Hlen.
  - exists []. split; [reflexivity|]. intros k v Hk. destruct k; discriminate.
  - cbn [Grid.row_calls]. rewrite Hcw. cbn [List.length] in Hlen.
    destruct (nth_error cws i0) as [cw|] eqn:Ecw;
      [|apply nth_error_None in Ecw; lia].
    assert (Hskip : skipn i0 cws = cw :: skipn (S i0) cws).
    { clear -Ecw. revert cws Ecw. induction i0 as [|i0 IH']; intros [|c cws] E; try discriminate.
      - inversion E; reflexivity.
      - cbn in E. rewrite (IH' cws E) at 1. reflexivity. }
    rewrite (Hf cell rect (or_introl eq_refl)). cbn [fst snd].
    set (rr := if Grid.align_right self then adj_rect rrect (cw - width cell) 0 0 0 else rrect).
    destruct (IH (S i0) (adj_rect rr (width cell + Grid.h_margin self) 0 0 0))
      as (cs & Hcs & Hspec).
    { intros u r Hu. apply Hf. right; exact Hu. }
    { lia. }
    rewrite Hcs. eexists. split; [reflexivity|].
    intros k v Hk. destruct k as [|k]; cbn [nth_error] in *.
    + inversion Hk; subst v. exists rr. split; [reflexivity|].
      unfold rr. rewrite Hskip. cbn [firstn sum fold_right map].
      destruct (Grid.align_right self);
        (split; [destruct rrect; cbn; lia|]); split; intros E; try discriminate;
        destruct rrect; cbn; lia.
    + destruct (Hspec k v Hk) as (r & Hr & Hy & Ht & Hfl). exists r.
      split; [exact Hr|]. split.
      * rewrite Hy. unfold rr. destruct (Grid.align_right self), rrect; cbn; lia.
      * split; intros E.
        -- rewrite (Ht E). rewrite Hskip. unfold rr. rewrite E.
           change (firstn (S (S k)) (cw :: skipn (S i0) cws))
             with (cw :: firstn (S k) (skipn (S i0) cws)).
           cbn [sum fold_right]. unfold sum. destruct rrect; cbn [x adj_rect sub_rect]. lia.
        -- rewrite (Hfl E). unfold rr. rewrite E.
           cbn [firstn map sum fold_right]. unfold sum. destruct rrect; cbn [x adj_rect sub_rect]. lia.
Qed.

Lemma rows_calls_spec (self : Grid.t V) rect cws rhs :
  Grid.col_widths self = Some cws -> Grid.row_heights self = Some rhs ->
  forall rows j0,
    (forall row, In row rows ->
                 fixed row /\ (List.length row <= List.length cws)%nat) ->
    exists css,
      Grid.rows_calls self rect rows j0 = Some css /\
      forall j row, nth_error rows j = Some row ->
        exists cs,
          nth_error css j = Some cs /\
          Grid.row_calls self rect row 0
                         (adj_rect rect 0 (sum (firstn (j0 + j) rhs)) 0 0) = Some cs.
Proof.
  intros Hcw Hrh. induction rows as [|row rest IH]; intros j0 Hrows.
  - exists []. split; [reflexivity|]. intros j row Hj. destruct j; discriminate.
  - cbn [Grid.rows_calls]. rewrite Hrh, slice_to_nat.
    destruct (Hrows row (or_introl eq_refl)) as [Hf Hlen].
    destruct (row_calls_spec self rect cws Hcw row 0%nat
                (adj_rect rect 0 (sum (firstn j0 rhs)) 0 0) Hf Hlen) as (cs & Hcs & _).
    rewrite Hcs.
    destruct (IH (S j0)) as (css & Hcss & Hspec).
    { intros r Hr. apply Hrows. right; exact Hr. }
    rewrite Hcss. eexists. split; [reflexivity|].
    intros j r Hj. destruct j as [|j]; cbn [nth_error] in *.
    + inversion Hj; subst r. exists cs. split; [reflexivity|].
      rewrite Nat.add_0_r. exact Hcs.
    + destruct (Hspec j r Hj) as (cs' & Hn & Hc). exists cs'.
      split; [exact Hn|]. rewrite Nat.add_succ_r. exact Hc.
Qed.

(** A Grid of [n >= 1] columns, every row with [n] cells, the cells of
    sizes [(width v, height v)] whatever the rectangle.  [size] sets the
    column widths to the greatest width of each column and the row heights
    to the greatest height of each row, and returns the sum of the column
    widths plus the margin between two columns, and the sum of the row
    heights.  [disp] then displays the cell of row j and column i below
    the rows before it; with [align_right] its right edge is at the right
    edge of column i, the same for every row; without it the cell comes
    right after the cells before it in its own row, whatever the column
    widths are. *)
Theorem Grid_size_and_cell_positions :
  forall (self : Grid.t V) (rect : Rect) (n : nat),
    Grid.grid self <> [] -> (1 <= n)%nat ->
    (forall row, In row (Grid.grid self) -> List.length row = n /\ fixed row) ->
    exists cws rhs,
      let sized := Grid.mk (Grid.grid self) (Grid.h_margin self) (Grid.align_right self)
                           (Some cws) (Some rhs) in
      Grid.size self rect
      = Some (sized, (sum cws + (len cws - 1) * Grid.h_margin self, sum rhs)) /\
      List.length cws = n /\ List.length rhs = List.length (Grid.grid self) /\
      (forall k cw, nth_error cws k = Some cw ->
         (forall row v, In row (Grid.grid self) -> nth_error row k = Some v ->
                        width v <= cw) /\
         (exists row v, In row (Grid.grid self) /\ nth_error row k = Some v /\
                        width v = cw)) /\
      (forall j rh row, nth_error rhs j = Some rh -> nth_error (Grid.grid self) j = Some row ->
         (forall v, In v row -> height v <= rh) /\
         (exists v, In v row /\ height v = rh)) /\
      (forall rect', exists css,
         Grid.calls sized rect' = Some css /\
         (forall scr,
             Grid.disp sized rect' scr
             = Some (fold_left (fun s c => View.display (fst c) (snd c) s)
                               (List.concat css) scr)) /\
         forall j row i v,
           nth_error (Grid.grid self) j = Some row -> nth_error row i = Some v ->
           exists cs r,
             nth_error css j = Some cs /\ nth_error cs i = Some (v, r) /\
             y r = y rect' + sum (firstn j rhs) /\
             (Grid.align_right self = true ->
              x r + width v
              = x rect' + sum (firstn (S i) cws) + Z.of_nat i * Grid.h_margin self) /\
             (Grid.align_right self = false ->
              x r = x rect'
                    + sum (map (fun u => width u + Grid.h_margin self) (firstn i row)))).
Proof.
  intros [rows hm ar cw0 rh0] rect n Hne Hn Hrows.
  cbn [Grid.grid Grid.h_margin Grid.align_right] in *.
  assert (Hfix : forall row, In row rows -> fixed row) by (intros r Hr; apply Hrows; exact Hr).
  (* the column widths *)
  destruct (all_some_total
              (Grid.col_width (map (map (fun v => (width v, height v))) rows)) (seq 0 n))
    as (cws & Hcws).
  { intros k Hk. apply in_seq in Hk.
    destruct (col_width_fixed rows k Hne) as (cw & Hcw & _); [|eauto].
    intros row Hrow. rewrite (proj1 (Hrows row Hrow)). lia. }
  pose proof (proj1 (all_some_Forall2 _ _ _) Hcws) as HFc.
  assert (Hlc : List.length cws = n).
  { apply Forall2_length in HFc. rewrite length_seq in HFc. lia. }
  (* the row heights *)
  destruct (all_some_total (fun row : list (Z * Z) => maximum (map snd row))
              (map (map (fun v => (width v, height v))) rows)) as (rhs & Hrhs).
  { intros row Hrow. apply in_map_iff in Hrow. destruct Hrow as (r & <- & Hr).
    apply maximum_some. destruct r; [|discriminate].
    destruct (Hrows [] Hr) as [Hl _]. cbn in Hl. lia. }
  pose proof (proj1 (all_some_Forall2 _ _ _) Hrhs) as HFr.
  assert (Hlr : List.length rhs = List.length rows).
  { apply Forall2_length in HFr. rewrite length_map in HFr. lia. }
  exists cws, rhs. cbv zeta. split; [|split; [exact Hlc|split; [exact Hlr|split; [|split]]]].
  - unfold Grid.size. cbn [Grid.grid Grid.h_margin Grid.align_right].
    rewrite (size_grid_fixed rows rect Hfix).
    destruct rows as [|row0 rows']; [congruence|].
    cbn [map] in Hcws, Hrhs |- *. rewrite length_map.
    rewrite (proj1 (Hrows row0 (or_introl eq_refl))).
    rewrite Hcws, Hrhs. reflexivity.
  - intros k cw Hk.
    destruct (Forall2_nth_r _ _ _ HFc k cw Hk) as (k' & Hk' & Hcw).
    assert (k' = k).
    { pose proof (nth_error_Some (seq 0 n) k) as Hs.
      assert (Hlt : (k < n)%nat) by (rewrite length_seq in Hs; apply Hs; congruence).
      rewrite (nth_error_nth' _ 0%nat) in Hk' by (rewrite length_seq; exact Hlt).
      rewrite seq_nth in Hk' by exact Hlt. inversion Hk'. lia. }
    subst k'.
    destruct (col_width_fixed rows k Hne) as (cw' & Hcw' & Hle & Hex).
    { intros row Hrow. rewrite (proj1 (Hrows row Hrow)).
      rewrite <- Hlc. apply nth_error_Some. congruence. }
    assert (cw' = cw) by congruence. subst cw'. split; assumption.
  - intros j rh row Hj Hrow.
    destruct (Forall2_nth_r _ _ _ HFr j rh Hj) as (srow & Hsrow & Hmax).
    rewrite nth_error_map, Hrow in Hsrow. cbn in Hsrow. inversion Hsrow; subst srow.
    rewrite map_map in Hmax. cbn [snd] in Hmax.
    destruct (maximum_spec _ _ Hmax) as [Hin Hle]. split.
    + intros v Hv. apply Hle. apply (in_map height). exact Hv.
    + apply in_map_iff in Hin. destruct Hin as (v & Hv & Hin). eauto.
  - intros rect'.
    set (sized := Grid.mk rows hm ar (Some cws) (Some rhs)).
    destruct (rows_calls_spec sized rect' cws rhs eq_refl eq_refl rows 0%nat)
      as (css & Hcss & Hspec).
    { intros row Hrow. split; [exact (Hfix row Hrow)|].
      rewrite (proj1 (Hrows row Hrow)). lia. }
    exists css. split; [exact Hcss|]. split.
    { intros scr. unfold Grid.disp.
      change (Grid.calls sized rect') with (Grid.rows_calls sized rect' rows 0%nat).
      rewrite Hcss. reflexivity. }
    intros j row i v Hj Hi.
    destruct (Hspec j row Hj) as (cs & Hcs & Hrc). cbn [Nat.add] in Hrc.
    destruct (row_calls_spec sized rect' cws eq_refl row 0%nat
                (adj_rect rect' 0 (sum (firstn j rhs)) 0 0))
      as (cs' & Hcs' & Hcell).
    { exact (Hfix row (nth_error_In _ _ Hj)). }
    { rewrite (proj1 (Hrows row (nth_error_In _ _ Hj))). lia. }
    assert (cs' = cs) by congruence. subst cs'.
    destruct (Hcell i v Hi) as (r & Hr & Hy & Ht & Hf).
    exists cs, r. split; [exact Hcs|]. split; [exact Hr|].
    cbn [skipn] in Ht. cbn [Grid.align_right Grid.h_margin sized] in Ht, Hf.
    split; [rewrite Hy; destruct rect'; cbn; lia|]. split.
    + intros E. rewrite (Ht E). destruct rect'; cbn; lia.
    + intros E. rewrite (Hf E). destruct rect'; cbn; lia.
Qed.

(** The edges of a Grid: [size] raises when the grid has no row, when its
    first row has no cell, and when a row has fewer cells than the first;
    [disp] on a Grid whose [size] has not been called raises as soon as the
    grid has a row, and does nothing when it has none. *)
Theorem Grid_raises_on_ragged_or_unsized :
  (forall hm ar rect, Grid.size (Grid.init (V := V) [] hm ar) rect = None) /\
  (forall rows hm ar rect, Grid.size (Grid.init (V := V) ([] :: rows) hm ar) rect = None) /\
  (forall (self : Grid.t V) rect row0 rows row,
      Grid.grid self = row0 :: rows -> In row rows ->
      (List.length row < List.length row0)%nat ->
      Grid.size self rect = None) /\
  (forall rows hm ar rect scr,
      Grid.disp (Grid.init (V := V) rows hm ar) rect scr
      = match rows with [] => Some scr | _ :: _ => None end).
Proof.
  split; [|split; [|split]].
  - reflexivity.
  - reflexivity.
  - intros self rect row0 rows row Hg Hrow Hlen. unfold Grid.size. rewrite Hg.
    cbn [map]. rewrite length_map.
    set (sg := map (fun col => View.size col rect) row0
               :: map (map (fun col => View.size col rect)) rows).
    rewrite (all_some_none (Grid.col_width sg) (seq 0 (List.length row0)) (List.length row));
      [reflexivity| |].
    + apply in_seq. lia.
    + unfold Grid.col_width.
      rewrite (all_some_none
                 (fun r : list (Z * Z) => option_map fst (nth_error r (List.length row)))
                 sg (map (fun col => View.size col rect) row)); [reflexivity| |].
      * right. apply in_map. exact Hrow.
      * replace (nth_error (map (fun col => View.size col rect) row) (List.length row))
          with (@None (Z * Z)); [reflexivity|].
        symmetry. apply nth_error_None. rewrite length_map. lia.
  - intros rows hm ar rect scr. destruct rows; reflexivity.
Qed.

End GridFacts.

Lemma Grid_size_and_cell_positions_witness :
  let cell := fun t => Display.mk t 0 7 0 0 in
  let g := Grid.init [[cell (lit "a"); cell (lit "bbb")]; [cell (lit "cc"); cell (lit "d")]] 1 true in
  let rect := mkRect 0 0 80 24 in
  Grid.size g rect
  = Some (Grid.mk (Grid.grid g) 1 true (Some [2; 3]) (Some [1; 1]), (2 + 3 + 1, 2)) /\
  exists cws rhs,
    Grid.size g rect
    = Some (Grid.mk (Grid.grid g) 1 true (Some cws) (Some rhs),
            (sum cws + (len cws - 1) * 1, sum rhs)) /\
    List.length cws = 2%nat.
Proof.
  cbv zeta. split; [reflexivity|].
  destruct (Grid_size_and_cell_positions
              (fun v => fst (Display.size v (mkRect 0 0 0 0))) (fun _ => 1)
              (Grid.init [[Display.mk (lit "a") 0 7 0 0; Display.mk (lit "bbb") 0 7 0 0];
                          [Display.mk (lit "cc") 0 7 0 0; Display.mk (lit "d") 0 7 0 0]]
                         1 true)
              (mkRect 0 0 80 24) 2%nat)
    as (cws & rhs & Hs & Hl & _).
  - discriminate.
  - lia.
  - intros row [<-|[<-|[]]]; (split; [reflexivity|intros v r _; reflexivity]).
  - exists cws, rhs. split; [exact Hs|exact Hl].
Defined.

Lemma Grid_raises_on_ragged_or_unsized_witness :
  let cell := fun t => Display.mk t 0 7 0 0 in
  Grid.size (Grid.init [[cell (lit "a"); cell (lit "b")]; [cell (lit "c")]] 1 false) (mkRect 0 0 80 24)
  = None.
Proof.
  cbv zeta.
  apply (proj1 (proj2 (proj2 Grid_raises_on_ragged_or_unsized))
           (Grid.init [[Display.mk (lit "a") 0 7 0 0; Display.mk (lit "b") 0 7 0 0];
                       [Display.mk (lit "c") 0 7 0 0]] 1 false)
           (mkRect 0 0 80 24)
           [Display.mk (lit "a") 0 7 0 0; Display.mk (lit "b") 0 7 0 0]
           [[Display.mk (lit "c") 0 7 0 0]]
           [Display.mk (lit "c") 0 7 0 0]).
  - reflexivity.
  - left; reflexivity.
  - simpl; lia.
Defined.

(** ** render *)

(** The view of a Labeled: the label in a column at least 16 wide, bold
    and white when the focus is inside and green when it is not, and the
    view of the control right of that column; so the controls under labels
    of at most 16 characters start at the same column. *)
Theorem Labeled_control_after_label_column :
  forall (V : Type) (HV : View.t V) (focus : bool) (label : str) (inner : V)
         (rect : Rect) (scr : Screen),
    let self := Labeled_render focus label inner in
    let lab := Display.mk label 16 (if focus then white else green) black
                          (if focus then curses.A_BOLD else 0) in
    let off := Z.max 16 (len label) in
    Horizontal.calls (Horizontal.views self) (Horizontal.margin self) rect
    = [(inl lab, rect); (inr inner, mkRect (x rect + off) (y rect) (w rect - off) (h rect))] /\
    Horizontal.disp self rect scr
    = View.display inner (mkRect (x rect + off) (y rect) (w rect - off) (h rect))
                   (Display.disp lab rect scr) /\
    Horizontal.size self rect
    = Some (off + fst (View.size inner (mkRect (x rect + off) (y rect) (w rect - off) (h rect))),
            Z.max 1 (snd (View.size inner
                            (mkRect (x rect + off) (y rect) (w rect - off) (h rect))))).
Proof.
  intros V HV focus label inner rect scr. cbv zeta.
  assert (Hr : forall d, adj_rect rect (Z.max 16 (len label) + d) 0 0 0
                         = mkRect (x rect + (Z.max 16 (len label) + d)) (y rect)
                                  (w rect - (Z.max 16 (len label) + d)) (h rect)).
  { intros d. destruct rect; unfold adj_rect, sub_rect; cbn [x y w h]. f_equal; lia. }
  unfold Labeled_render.
  cbn [Horizontal.calls Horizontal.views Horizontal.margin Horizontal.disp
       Horizontal.disp_loop Horizontal.size Horizontal.measure
       View.size View.display Sum_View Display_View Display.size Display.min_width
       Display.text fst snd map maximum fold_left sum fold_right].
  split; [|split].
  - rewrite Hr. rewrite !Z.add_0_r. reflexivity.
  - rewrite Hr. rewrite !Z.add_0_r. reflexivity.
  - pose proof (Hr 0) as Hr0. rewrite !Z.add_0_r in Hr0.
    replace (adj_rect rect (Z.max 16 (len label)) 0 0 0)
      with (mkRect (x rect + Z.max 16 (len label)) (y rect)
                   (w rect - Z.max 16 (len label)) (h rect)).
    f_equal. f_equal. unfold len; cbn [List.length]. lia.
Qed.

Lemma len_repeat_str c n : len c = 1 -> len (HFill.repeat_str c n) = Z.max 0 n.
Proof.
  intros Hc. unfold HFill.repeat_str.
  assert (Hk : forall k, len (List.concat (repeat c k)) = Z.of_nat k).
  { induction k as [|k IH]; [reflexivity|].
    cbn [repeat List.concat]. rewrite len_app, IH, Hc. lia. }
  rewrite Hk. lia.
Qed.

Section CompositeFacts.
Context {V : Type} `{View.t V}.
Variables (width height : V -> Z).

Local Abbreviation spaced margin xs :=
  (Horizontal.views (Composite_render (V := V) xs margin)).
Local Abbreviation width' margin :=
  (fun v : V + Display.t => match v with inl a => width a | inr _ => Z.max 0 margin end).
Local Abbreviation height' :=
  (fun v : V + Display.t => match v with inl a => height a | inr _ => 1 end).

Lemma spaced_cons margin a xs :
  spaced margin (a :: xs)
  = inl a :: inr (Display.mk (HFill.repeat_str (lit " ") margin) 0 white black 0)
      :: spaced margin xs.
Proof. reflexivity. Qed.

Lemma spaced_fixed margin xs :
  Horizontal.fixed_size width height xs ->
  Horizontal.fixed_size (width' margin) height' (spaced margin xs).
Proof.
  intros Hf v r Hv. unfold Composite_render in Hv. cbn [Horizontal.views] in Hv.
  apply in_flat_map in Hv. destruct Hv as (a & Ha & [<-|[<-|[]]]).
  - exact (Hf a r Ha).
  - cbn [View.size Sum_View Display_View]. unfold Display.size.
    cbn [Display.min_width Display.text].
    rewrite len_repeat_str by reflexivity. f_equal. lia.
Qed.

Lemma spaced_widths margin xs :
  sum (map (width' margin) (spaced margin xs))
  = sum (map width xs) + len xs * Z.max 0 margin.
Proof.
  induction xs as [|a xs IH]; [reflexivity|].
  rewrite spaced_cons. cbn [map sum fold_right]. rewrite len_cons.
  unfold sum in IH. rewrite IH. unfold sum. lia.
Qed.

Lemma spaced_nth margin xs : forall i v,
  nth_error xs i = Some v ->
  nth_error (spaced margin xs) (2 * i) = Some (inl v) /\
  sum (map (fun u => width' margin u + 0) (firstn (2 * i) (spaced margin xs)))
  = sum (map (fun u => width u + Z.max 0 margin) (firstn i xs)).
Proof.
  induction xs as [|a xs IH]; intros i v Hi; [destruct i; discriminate|].
  destruct i as [|i].
  - inversion Hi; subst. split; reflexivity.
  - replace (2 * S i)%nat with (S (S (2 * i))) by lia. rewrite spaced_cons.
    cbn [nth_error firstn map sum fold_right].
    destruct (IH i v Hi) as [Hn Hs]. split; [exact Hn|].
    unfold sum in *. rewrite Hs. lia.
Qed.

(** The view of a Composite puts a run of [margin] spaces after every
    control, the last one included ([margin] spaces count for nothing when
    [margin] is negative).  For controls whose views have sizes
    [(width v, height v)] whatever the rectangle: the width is the sum of
    the widths plus that margin once for each control, the height is at
    least 1, and control i is displayed moved right by the sum of
    [wj + margin] over the controls before it.  A Composite of no control
    cannot be measured: [size] raises. *)
Theorem Composite_margin_after_every_control :
  forall (xs : list V) (margin : Z) (rect : Rect),
    Horizontal.fixed_size width height xs ->
    (xs = [] -> Horizontal.size (Composite_render xs margin) rect = None) /\
    (xs <> [] ->
     exists mh,
       Horizontal.size (Composite_render xs margin) rect
       = Some (sum (map width xs) + len xs * Z.max 0 margin, mh) /\
       1 <= mh /\ forall v, In v xs -> height v <= mh) /\
    (forall i v,
        nth_error xs i = Some v ->
        let off := sum (map (fun u => width u + Z.max 0 margin) (firstn i xs)) in
        nth_error (Horizontal.calls (Horizontal.views (Composite_render xs margin)) 0 rect)
                  (2 * i)
        = Some (inl v, mkRect (x rect + off) (y rect) (w rect - off) (h rect))).
Proof.
  intros xs margin rect Hf.
  pose proof (spaced_fixed margin xs Hf) as Hf'.
  split; [|split].
  - intros ->. reflexivity.
  - intros Hne. unfold Horizontal.size.
    change (Horizontal.views (Composite_render xs margin)) with (spaced margin xs).
    change (Horizontal.margin (Composite_render xs margin)) with 0.
    rewrite (measure_fixed (width' margin) height' (spaced margin xs) rect Hf').
    rewrite !map_map; cbn [fst snd].
    change (map (fun v => width' margin v) (spaced margin xs))
      with (map (width' margin) (spaced margin xs)).
    rewrite spaced_widths.
    destruct (maximum_some (map (fun v => height' v) (spaced margin xs))) as (mh & Hmh).
    { destruct xs; [congruence|]. rewrite spaced_cons. discriminate. }
    rewrite Hmh. exists mh. destruct (maximum_spec _ _ Hmh) as [_ Hle].
    split; [f_equal; f_equal; lia|]. split.
    + destruct xs as [|a xs]; [congruence|]. apply Hle. rewrite spaced_cons.
      right; left; reflexivity.
    + intros v Hv. apply Hle.
      apply (in_map (fun v => height' v) (spaced margin xs) (inl v)).
      unfold Composite_render. cbn [Horizontal.views].
      apply in_flat_map. exists v. split; [exact Hv|left; reflexivity].
  - intros i v Hi; cbv zeta.
    destruct (spaced_nth margin xs i v Hi) as [Hn Hs].
    change (Horizontal.views (Composite_render xs margin)) with (spaced margin xs).
    rewrite (calls_fixed (width' margin) height' (spaced margin xs) 0 rect (2 * i)
                         (inl v) Hf' Hn).
    rewrite Hs. f_equal. f_equal.
    destruct rect; unfold adj_rect, sub_rect; cbn [x y w h]. f_equal; lia.
Qed.

End CompositeFacts.

Lemma Composite_margin_after_every_control_witness :
  let ab := Display.mk (lit "ab") 0 7 0 0 in
  let cde := Display.mk (lit "cde") 0 7 0 0 in
  exists mh,
    Horizontal.size (Composite_render [ab; cde] 2) (mkRect 0 0 80 24)
    = Some (sum [2; 3] + len [ab; cde] * Z.max 0 2, mh) /\ 1 <= mh.
Proof.
  cbv zeta.
  destruct (Composite_margin_after_every_control
              (fun v => fst (Display.size v (mkRect 0 0 0 0))) (fun _ => 1)
              [Display.mk (lit "ab") 0 7 0 0; Display.mk (lit "cde") 0 7 0 0] 2
              (mkRect 0 0 80 24)) as (_ & Hs & _).
  - intros v r _; reflexivity.
  - destruct Hs as (mh & Hs & Hmh & _); [discriminate|].
    exists mh. split; [exact Hs|exact Hmh].
Defined.

Lemma item_at_nth {A} (s : list A) i :
  0 <= i < len s -> item_at s i = nth_error s (Z.to_nat i).
Proof.
  intros Hi. unfold item_at.
  destruct (Z.ltb_spec i 0); [lia|].
  destruct (Z.leb_spec 0 i); [|lia]. destruct (Z.ltb_spec i (len s)); [|lia].
  reflexivity.
Qed.

Lemma item_at_outside {A} (s : list A) i :
  len s <= i \/ i < - len s -> item_at s i = None.
Proof.
  intros Hi. unfold item_at. pose proof (len_nonneg s).
  destruct (Z.ltb_spec i 0).
  - destruct (Z.leb_spec 0 (i + len s)); [|reflexivity].
    destruct (Z.ltb_spec (i + len s) (len s)); [lia|reflexivity].
  - destruct (Z.leb_spec 0 i); [|reflexivity].
    destruct (Z.ltb_spec i (len s)); [lia|reflexivity].
Qed.

Lemma firstn_nth_skipn {A} (s : list A) n a :
  nth_error s n = Some a -> firstn n s ++ [a] ++ skipn (S n) s = s.
Proof.
  revert s. induction n as [|n IH]; intros [|b s] E; try discriminate.
  - inversion E; reflexivity.
  - cbn [nth_error] in E. cbn [firstn skipn app]. f_equal. exact (IH s E).
Qed.

Module EditViewFacts.
Import Edit.

(** The view of an Edit whose cursor is inside its value.  Without the
    focus it is the value.  With the focus it is three Displays side by
    side: the characters before the cursor underlined, one reversed cell,
    and the characters after it underlined; the reversed cell holds the
    character under the cursor, and the three texts together are the
    value, or a space when the cursor is at the end, where the view is one
    cell wider than the value.  [render] never raises then. *)
Theorem Edit_render_shows_value_and_cursor :
  forall (self : t) (rect : Rect),
    cursor_ok self ->
    render false self = Some (inr (Display.mk (value self) 0 white black 0)) /\
    exists before hi after,
      let row := Horizontal.mk
                   [Display.mk before 0 white black curses.A_UNDERLINE;
                    Display.mk hi 0 white black curses.A_REVERSE;
                    Display.mk after 0 white black curses.A_UNDERLINE] 0 in
      render true self = Some (inl row) /\
      len before = cursor self /\ len hi = 1 /\
      (cursor self < len (value self) -> before ++ hi ++ after = value self) /\
      (cursor self = len (value self) ->
       before = value self /\ hi = lit " " /\ after = []) /\
      Horizontal.size row rect
      = Some (Z.max (len (value self)) (cursor self + 1), 1).
Proof.
  intros [v c] rect [Hc0 Hc1]; cbn [value cursor] in *.
  split; [reflexivity|].
  unfold render; cbn [value cursor].
  destruct (Z.ltb_spec c (len v)) as [Hlt|Hge].
  - rewrite item_at_nth by lia.
    destruct (nth_error v (Z.to_nat c)) as [a|] eqn:Ea.
    2:{ apply nth_error_None in Ea. unfold len in Hlt. lia. }
    cbn [option_map].
    exists (slice_to v c), [a], (slice_from v (c + 1)). cbv zeta.
    split; [reflexivity|].
    assert (Hb : len (slice_to v c) = c) by (rewrite len_slice_to by lia; lia).
    assert (Ha : len (slice_from v (c + 1)) = len v - (c + 1))
      by (rewrite len_slice_from by lia; lia).
    split; [exact Hb|]. split; [reflexivity|]. split; [|split].
    + intros _. rewrite slice_to_firstn by lia. rewrite slice_from_skipn by lia.
      replace (Z.to_nat (c + 1)) with (S (Z.to_nat c)) by lia.
      exact (firstn_nth_skipn v (Z.to_nat c) a Ea).
    + lia.
    + unfold Horizontal.size.
      cbn [Horizontal.views Horizontal.margin Horizontal.measure View.size Display_View
           map fst snd maximum fold_left sum fold_right].
      unfold Display.size; cbn [Display.min_width Display.text fst snd].
      rewrite Hb, Ha. f_equal. apply f_equal2; [|reflexivity].
      change (len [a]) with 1. change (len [_; _; _]) with 3. lia.
  - assert (c = len v) by lia. subst c.
    exists (slice_to v (len v)), (lit " "), (slice_from v (len v + 1)). cbv zeta.
    split; [reflexivity|].
    assert (Hb : slice_to v (len v) = v).
    { rewrite slice_to_firstn by lia. apply firstn_all2. unfold len. lia. }
    assert (Ha : slice_from v (len v + 1) = []).
    { rewrite slice_from_skipn by lia. apply skipn_all2. unfold len. lia. }
    rewrite Hb, Ha. split; [reflexivity|]. split; [reflexivity|].
    split; [lia|]. split; [intros _; auto|].
    unfold Horizontal.size.
    cbn [Horizontal.views Horizontal.margin Horizontal.measure View.size Display_View
         map fst snd maximum fold_left sum fold_right].
    unfold Display.size; cbn [Display.min_width Display.text fst snd].
    f_equal. apply f_equal2; [|reflexivity].
    change (len (lit " ")) with 1. change (len (@nil Ascii.ascii)) with 0.
    change (len [_; _; _]) with 3. lia.
Qed.

Lemma Edit_render_shows_value_and_cursor_witness :
  render true (mk (lit "hello") 2)
  = Some (inl (Horizontal.mk
                 [Display.mk (lit "he") 0 white black curses.A_UNDERLINE;
                  Display.mk (lit "l") 0 white black curses.A_REVERSE;
                  Display.mk (lit "lo") 0 white black curses.A_UNDERLINE] 0)) /\
  render false (mk (lit "hello") 2)
  = Some (inr (Display.mk (lit "hello") 0 white black 0)).
Proof.
  split; [reflexivity|].
  apply (Edit_render_shows_value_and_cursor (mk (lit "hello") 2) (mkRect 0 0 80 24)).
  unfold cursor_ok; cbn [value cursor]. change (len (lit "hello")) with 5. lia.
Defined.

End EditViewFacts.

Module SelectListViewFacts.
Import SelectList.

Lemma on_event_index self ev :
  0 <= index self < len (choices self) ->
  0 <= index (fst (on_event self ev)) < len (choices self) /\
  choices (fst (on_event self ev)) = choices self.
Proof.
  intros Hi. unfold on_event, on_down, on_up.
  destruct (EventType_eqb (type ev) key_event); [|cbn [fst]; auto].
  destruct (is_code (key ev) curses.KEY_UP && (0 <? index self)) eqn:Eu.
  - apply andb_prop in Eu. destruct Eu as [_ Eu]. apply Z.ltb_lt in Eu.
    cbn [key stop index choices].
    destruct (is_code (key ev) curses.KEY_DOWN
              && (index self - 1 <? len (choices self) - 1)) eqn:Ed;
      cbn [fst index choices]; split; auto; lia.
  - destruct (is_code (key ev) curses.KEY_DOWN
              && (index self <? len (choices self) - 1)) eqn:Ed;
      cbn [fst index choices]; [|auto].
    apply andb_prop in Ed. destruct Ed as [_ Ed]. apply Z.ltb_lt in Ed. split; auto; lia.
Qed.

(** A SelectList built on a valid index keeps a valid index whatever
    events it receives, and its choices never change: [value] never raises
    and is always one of the choices. *)
Theorem SelectList_value_is_always_a_choice :
  forall (cs : list str) (i w h : Z) (evs : list Event),
    0 <= i < len cs ->
    let self := run (init cs i w h) evs in
    choices self = cs /\ 0 <= index self < len cs /\
    exists v, value self = Some v /\ nth_error cs (Z.to_nat (index self)) = Some v.
Proof.
  intros cs i w h evs Hi. cbv zeta.
  assert (Hrun : forall self,
             choices self = cs -> 0 <= index self < len cs ->
             choices (run self evs) = cs /\ 0 <= index (run self evs) < len cs).
  { unfold run. induction evs as [|ev evs IH]; intros self Hc Hx; cbn [fold_left]; [auto|].
    rewrite <- Hc in Hx. destruct (on_event_index self ev Hx) as [Hx' Hc'].
    apply IH; congruence. }
  destruct (Hrun (init cs i w h) eq_refl Hi) as [Hc Hx].
  split; [exact Hc|]. split; [exact Hx|].
  unfold value. rewrite Hc. rewrite item_at_nth by exact Hx.
  destruct (nth_error cs (Z.to_nat (index (run (init cs i w h) evs)))) as [v|] eqn:E;
    [eauto|].
  apply nth_error_None in E. unfold len in Hx. lia.
Qed.

Lemma SelectList_value_is_always_a_choice_witness :
  value (run (init [lit "a"; lit "b"; lit "c"] 1 30 2)
             [press curses.KEY_DOWN (CtrlRef 0); press curses.KEY_DOWN (CtrlRef 0)])
  = Some (lit "c").
Proof.
  destruct (SelectList_value_is_always_a_choice
              [lit "a"; lit "b"; lit "c"] 1 30 2
              [press curses.KEY_DOWN (CtrlRef 0); press curses.KEY_DOWN (CtrlRef 0)])
    as (_ & _ & v & Hv & Hn).
  - change (len [lit "a"; lit "b"; lit "c"]) with 3. lia.
  - vm_compute in Hn. injection Hn as <-. exact Hv.
Defined.

(** The lines of the window: line [k] is choice [scroll_offset + k], or
    the empty string past the last choice. *)
Lemma window_lines (cs : list str) s hh :
  0 <= s <= len cs -> 0 <= hh ->
  let lines := slice cs s (s + hh) in
  let lines := lines ++ repeat [] (Z.to_nat (hh - len lines)) in
  len lines = hh /\
  forall k, (k < Z.to_nat hh)%nat ->
            nth_error lines k = Some (nth (Z.to_nat s + k) cs []).
Proof.
  intros Hs Hh. cbv zeta. unfold slice.
  rewrite !slice_bound_nonneg by (auto using len_nonneg; lia).
  replace (Z.min s (len cs)) with s by lia.
  set (n := Z.to_nat (Z.min (s + hh) (len cs) - s)).
  set (l0 := firstn n (skipn (Z.to_nat s) cs)).
  assert (Hl0 : List.length l0 = n).
  { unfold l0. rewrite length_firstn, length_skipn. unfold n, len in *. lia. }
  assert (Hlen0 : len l0 = Z.of_nat n) by (unfold len; lia).
  split.
  - rewrite len_app, Hlen0. unfold len. rewrite repeat_length. unfold n. lia.
  - intros k Hk. destruct (Nat.lt_ge_cases k n) as [Hlt|Hge].
    + rewrite nth_error_app1 by lia. unfold l0.
      rewrite nth_error_firstn.
      destruct (Nat.ltb_spec k n); [|lia].
      rewrite nth_error_skipn. apply nth_error_nth'.
      unfold n, len in *. lia.
    + rewrite nth_error_app2 by lia. rewrite Hl0.
      rewrite nth_error_repeat by (rewrite Hlen0; lia).
      rewrite nth_overflow; [reflexivity|]. unfold n, len in *. lia.
Qed.

(** The view of a SelectList whose window holds its index (height at least
    1, a valid index): a column of exactly [height] Displays, all at least
    [width] wide; the one at row [index - scroll_offset] shows the chosen
    entry in standout, every other one is plain; row [k] shows choice
    [scroll_offset + k], or nothing past the last choice.  [render] never
    raises then. *)
Theorem SelectList_render_highlights_selection :
  forall (self : t),
    window_ok self -> 1 <= height self -> 0 <= index self < len (choices self) ->
    exists ds hi,
      render self = Some (Vertical.mk ds 0) /\
      len ds = height self /\
      value self = Some hi /\
      nth_error ds (Z.to_nat (index self - scroll_offset self))
      = Some (Display.mk hi (width self) white black curses.A_STANDOUT) /\
      forall k d,
        nth_error ds k = Some d ->
        Display.text d = nth (Z.to_nat (scroll_offset self) + k) (choices self) [] /\
        Display.min_width d = width self /\
        Display.attr d
        = (if (k =? Z.to_nat (index self - scroll_offset self))%nat
           then curses.A_STANDOUT else 0).
Proof.
  intros [cs i wd hh s] [[Hs0 Hs1] [Hi0 Hi1]] Hh Hi;
    cbn [choices index width height scroll_offset] in *.
  assert (Hs : 0 <= s <= len cs) by lia.
  destruct (window_lines cs s hh Hs ltac:(lia)) as [Hlen Hnth]. cbv zeta in Hlen, Hnth.
  unfold render, value; cbn [choices index width height scroll_offset].
  set (lines := slice cs s (s + hh)
                ++ repeat [] (Z.to_nat (hh - len (slice cs s (s + hh))))) in *.
  set (j := Z.to_nat (i - s)).
  assert (Hj : (j < Z.to_nat hh)%nat) by (unfold j; lia).
  assert (Hhi : nth_error lines j = Some (nth (Z.to_nat i) cs [])).
  { rewrite (Hnth j Hj). f_equal. f_equal. unfold j. lia. }
  rewrite (item_at_nth lines (i - s)) by lia. fold j. rewrite Hhi.
  rewrite (item_at_nth cs i) by lia.
  rewrite (nth_error_nth' cs []) by (unfold len in Hi; lia).
  rewrite slice_to_firstn by lia. rewrite slice_from_skipn by lia.
  replace (Z.to_nat (i - s + 1)) with (S j) by (unfold j; lia). fold j.
  set (plain := fun l : str => Display.mk l wd white black 0).
  set (hi := nth (Z.to_nat i) cs []).
  assert (Hfl : List.length (firstn j lines) = j).
  { rewrite length_firstn. unfold len in Hlen. lia. }
  eexists; exists hi. split; [reflexivity|]. split; [|split; [reflexivity|split]].
  - rewrite !len_app. unfold len. rewrite !length_map, Hfl. cbn [List.length].
    rewrite length_skipn. unfold len in Hlen. lia.
  - rewrite nth_error_app2 by (rewrite length_map, Hfl; lia).
    rewrite length_map, Hfl, Nat.sub_diag. reflexivity.
  - intros k d Hk. destruct (Nat.lt_trichotomy k j) as [Hlt|[->|Hgt]].
    + rewrite nth_error_app1 in Hk by (rewrite length_map, Hfl; lia).
      rewrite nth_error_map, nth_error_firstn in Hk.
      destruct (Nat.ltb_spec k j); [|lia].
      rewrite (Hnth k ltac:(lia)) in Hk. cbn [option_map] in Hk.
      inversion Hk; subst d. cbn [Display.text Display.min_width Display.attr plain].
      destruct (Nat.eqb_spec k j); [lia|]. auto.
    + rewrite nth_error_app2 in Hk by (rewrite length_map, Hfl; lia).
      rewrite length_map, Hfl, Nat.sub_diag in Hk. cbn [app nth_error] in Hk.
      inversion Hk; subst d. cbn [Display.text Display.min_width Display.attr].
      rewrite Nat.eqb_refl. split; [|auto]. unfold hi, j. f_equal. lia.
    + rewrite nth_error_app2 in Hk by (rewrite length_map, Hfl; lia).
      rewrite length_map, Hfl in Hk.
      destruct (k - j)%nat as [|q] eqn:Eq; [lia|]. cbn [app nth_error] in Hk.
      rewrite nth_error_map, nth_error_skipn in Hk.
      replace (S j + q)%nat with k in Hk by lia.
      destruct (nth_error lines k) as [l|] eqn:El; [|discriminate].
      assert (Hkh : (k < Z.to_nat hh)%nat).
      { assert (k < List.length lines)%nat by (apply nth_error_Some; congruence).
        unfold len in Hlen. lia. }
      rewrite (Hnth k Hkh) in El. inversion El; subst l. cbn [option_map] in Hk.
      inversion Hk; subst d. cbn [Display.text Display.min_width Display.attr plain].
      destruct (Nat.eqb_spec k j); [lia|]. auto.
Qed.

Lemma SelectList_render_highlights_selection_witness :
  render (mk [lit "a"; lit "b"; lit "c"] 2 30 2 1)
  = Some (Vertical.mk [Display.mk (lit "b") 30 white black 0;
                       Display.mk (lit "c") 30 white black curses.A_STANDOUT] 0) /\
  exists ds hi,
    render (mk [lit "a"; lit "b"; lit "c"] 2 30 2 1) = Some (Vertical.mk ds 0) /\
    len ds = 2 /\ value (mk [lit "a"; lit "b"; lit "c"] 2 30 2 1) = Some hi.
Proof.
  split; [reflexivity|].
  destruct (SelectList_render_highlights_selection (mk [lit "a"; lit "b"; lit "c"] 2 30 2 1))
    as (ds & hi & Hr & Hl & Hv & _).
  - unfold window_ok; cbn [choices index height scroll_offset].
    change (len [lit "a"; lit "b"; lit "c"]) with 3. lia.
  - cbn [height]. lia.
  - cbn [choices index]. change (len [lit "a"; lit "b"; lit "c"]) with 3. lia.
  - exists ds, hi. auto.
Defined.

End SelectListViewFacts.

(** ** The object tree, again *)

Lemma length_expand c : S (List.length (expand c)) = count c.
Proof.
  induction c as [c IH] using Control_children_ind.
  rewrite expand_unfold, count_unfold, length_app, length_map. f_equal.
  induction (children c) as [|ch cs IHcs]; [reflexivity|].
  inversion IH as [|? ? Hch Hcs]; subst. specialize (IHcs Hcs).
  cbn [flat_map map list_sum fold_right List.length].
  rewrite length_app. unfold list_sum in *. lia.
Qed.

Lemma length_object_tree app :
  List.length (object_tree app) = count_obj app AppObj.
Proof.
  unfold object_tree, count_obj. cbn [List.length]. f_equal.
  rewrite length_app, length_map.
  induction (layers app) as [|l ls IH]; [reflexivity|].
  cbn [flat_map map list_sum fold_right List.length]. rewrite length_app.
  unfold expand_layer at 1. cbn [List.length].
  pose proof (length_expand (root l)). unfold list_sum in *. lia.
Qed.

Lemma count_in_layers app l :
  In l (layers app) -> (count (root l) + 2 <= List.length (object_tree app))%nat.
Proof.
  intros Hl. rewrite length_object_tree. unfold count_obj.
  induction (layers app) as [|l0 ls IH]; [contradiction|].
  cbn [map list_sum fold_right]. destruct Hl as [->|Hl].
  - lia.
  - specialize (IH Hl). unfold list_sum in *. lia.
Qed.

(** [object_tree(app)] ends: run for as many turns as there are objects,
    the generator has yielded [(None, app)] and then, for every object it
    pops, the pairs of that object and its children.  So it yields every
    layer under the App, every root under its layer and every other
    control under the control that holds it, nothing else, one pair for
    each object; and when no object sits at two places of the forest no
    object is yielded twice. *)
Theorem object_tree_yields_each_object_under_its_parent :
  forall app : App,
    (forall fuel, (count_obj app AppObj <= fuel)%nat ->
                  (None, AppObj) :: object_tree_loop fuel app [AppObj] = object_tree app) /\
    (forall l fuel, (count_obj app (LayerObj l) <= fuel)%nat ->
                    (None, LayerObj l) :: object_tree_loop fuel app [LayerObj l]
                    = object_tree_layer l) /\
    (forall p o,
        In (p, o) (object_tree app) <->
        (p = None /\ o = AppObj) \/
        (exists l, In l (layers app) /\ p = Some AppRef /\ o = LayerObj l) \/
        (exists l, In l (layers app) /\ p = Some (LayerRef (lid l)) /\
                   o = CtrlObj (root l)) \/
        (exists l P ch, In l (layers app) /\ In P (nodes (root l)) /\
                        In ch (children P) /\
                        p = Some (CtrlRef (addr_of P)) /\ o = CtrlObj ch)) /\
    List.length (object_tree app)
    = S (List.length (layers app) + List.length (app_nodes app)) /\
    (wf app -> NoDup (map (fun pc => ref_of (snd pc)) (object_tree app))).
Proof.
  intros app. split; [|split; [|split; [|split]]].
  - intros fuel Hfuel. rewrite object_tree_loop_yield.
    + cbn [flat_map]. rewrite app_nil_r. reflexivity.
    + cbn [map list_sum fold_right]. lia.
  - intros l fuel Hfuel. rewrite object_tree_loop_yield.
    + cbn [flat_map]. rewrite app_nil_r. reflexivity.
    + cbn [map list_sum fold_right]. lia.
  - intros p o. apply object_tree_in.
  - pose proof (Permutation_length (object_tree_children app)) as Hp.
    rewrite length_map in Hp. rewrite Hp. cbn [List.length].
    rewrite length_app, !length_map. reflexivity.
  - apply object_tree_refs_NoDup.
Qed.

Lemma object_tree_yields_each_object_under_its_parent_witness :
  let app := App.init (Panel 1 [Labeled 2 (lit "name") (Edit 3 (Edit.init (lit "a")));
                                Edit 4 (Edit.init (lit "b"))]) 10 in
  map (fun pc => ref_of (snd pc)) (object_tree app)
  = [AppRef; LayerRef 10; CtrlRef 1; CtrlRef 2; CtrlRef 4; CtrlRef 3] /\
  NoDup (map (fun pc => ref_of (snd pc)) (object_tree app)).
Proof.
  cbv zeta. split; [reflexivity|].
  apply (object_tree_yields_each_object_under_its_parent
           (App.init (Panel 1 [Labeled 2 (lit "name") (Edit 3 (Edit.init (lit "a")));
                               Edit 4 (Edit.init (lit "b"))]) 10)).
  apply init_wf.
  - simpl. repeat constructor; simpl; intuition discriminate.
  - simpl. intros c [<-|[<-|[<-|[<-|[]]]]]; reflexivity.
Defined.

(** In an application whose objects sit at one place each, [get_parent]
    gives the control that holds a control, the layer of a root, the App
    for a layer, and [None] for the App itself and for an object that is
    not in the application. *)
Theorem get_parent_is_the_holder :
  forall app : App,
    wf app ->
    App.get_parent app AppRef = None /\
    (forall l, In l (layers app) ->
               App.get_parent app (LayerRef (lid l)) = Some AppRef /\
               App.get_parent app (CtrlRef (addr_of (root l))) = Some (LayerRef (lid l)) /\
               forall P ch, In P (nodes (root l)) -> In ch (children P) ->
                            App.get_parent app (CtrlRef (addr_of ch))
                            = Some (CtrlRef (addr_of P))) /\
    (forall a, (forall c, In c (app_nodes app) -> addr_of c <> a) ->
               App.get_parent app (CtrlRef a) = None) /\
    (forall a, (forall l, In l (layers app) -> lid l <> a) ->
               App.get_parent app (LayerRef a) = None).
Proof.
  intros app Hwf. split; [apply get_parent_app|]. split; [|split].
  - intros l Hl. split; [|split].
    + apply (get_parent_of app (Some AppRef) (LayerObj l) Hwf).
      apply object_tree_in. right; left. eauto.
    + apply (get_parent_of app (Some (LayerRef (lid l))) (CtrlObj (root l)) Hwf).
      apply object_tree_in. right; right; left. eauto.
    + intros P ch HP Hch.
      apply (get_parent_of app (Some (CtrlRef (addr_of P))) (CtrlObj ch) Hwf).
      apply object_tree_in. right; right; right. exists l, P, ch. auto.
  - intros a Ha. apply get_parent_absent. intros p o Hin E.
    destruct o as [|l|c]; try discriminate.
    injection E as E. apply (Ha c); [|exact E].
    apply object_tree_ctrl. eauto.
  - intros a Ha. apply get_parent_absent. intros p o Hin E.
    destruct o as [|l|c]; try discriminate.
    injection E as E. apply (Ha l); [|exact E].
    apply object_tree_in in Hin.
    destruct Hin as [[_ E']|[(l' & Hl' & _ & E')|[(l' & _ & _ & E')|
               (l' & P & ch & _ & _ & _ & _ & E')]]]; try discriminate.
    injection E' as ->. exact Hl'.
Qed.

Lemma get_parent_is_the_holder_witness :
  let app := App.init (Panel 1 [Labeled 2 (lit "name") (Edit 3 (Edit.init (lit "a")));
                                Edit 4 (Edit.init (lit "b"))]) 10 in
  App.get_parent app AppRef = None /\
  App.get_parent app (CtrlRef 3) = Some (CtrlRef 2) /\
  App.get_parent app (CtrlRef 7) = None.
Proof.
  cbv zeta.
  destruct (get_parent_is_the_holder
              (App.init (Panel 1 [Labeled 2 (lit "name") (Edit 3 (Edit.init (lit "a")));
                                  Edit 4 (Edit.init (lit "b"))]) 10))
    as (Happ & _ & Hout & _).
  - apply init_wf.
    + simpl. repeat constructor; simpl; intuition discriminate.
    + simpl. intros c [<-|[<-|[<-|[<-|[]]]]]; reflexivity.
  - split; [exact Happ|]. split; [reflexivity|].
    apply Hout. simpl. intros c [<-|[<-|[<-|[<-|[]]]]]; discriminate.
Defined.

Lemma contains_is_membership_in_the_tree_aux (self : Control) (a : addr) :
  contains self a = true <-> exists c, In c (nodes self) /\ addr_of c = a.
Proof.
  induction self as [c IH] using Control_children_ind.
  rewrite Forall_forall in IH.
  assert (Hc : contains c a
               = (addr_of c =? a) || existsb (fun ch => contains ch a) (children c)).
  { destruct c; cbn [contains addr_of children existsb];
      destruct (_ =? a); cbn [orb]; rewrite ?orb_false_r; reflexivity. }
  rewrite Hc, nodes_unfold, orb_true_iff, existsb_exists. split.
  - intros [E|(ch & Hch & E)].
    + apply Z.eqb_eq in E. exists c. split; [left; reflexivity|exact E].
    + apply (IH ch Hch) in E. destruct E as (x & Hx & Ex).
      exists x. split; [|exact Ex]. right. apply in_flat_map. eauto.
  - intros (x & [<-|Hx] & Ex).
    + left. apply Z.eqb_eq. exact Ex.
    + right. apply in_flat_map in Hx. destruct Hx as (ch & Hch & Hx).
      exists ch. split; [exact Hch|]. apply (IH ch Hch). eauto.
Qed.

(** [self.contains(ctrl)] is true exactly when [ctrl] is [self] or one of
    the controls below it; so it is true of [self], and true of whatever a
    child contains. *)
Theorem contains_is_membership_in_the_tree :
  forall (self : Control) (a : addr),
    (contains self a = true <-> exists c, In c (nodes self) /\ addr_of c = a) /\
    contains self (addr_of self) = true /\
    (forall ch, In ch (children self) -> contains ch a = true -> contains self a = true).
Proof.
  intros self a. split; [apply contains_is_membership_in_the_tree_aux|]. split.
  - apply contains_is_membership_in_the_tree_aux. exists self.
    split; [apply nodes_self|reflexivity].
  - intros ch Hch E. apply contains_is_membership_in_the_tree_aux in E.
    destruct E as (x & Hx & Ex). apply contains_is_membership_in_the_tree_aux.
    exists x. split; [exact (nodes_child self ch x Hch Hx)|exact Ex].
Qed.

Lemma contains_is_membership_in_the_tree_witness :
  let root := Panel 1 [Labeled 2 (lit "name") (Edit 3 (Edit.init (lit "a")));
                       Edit 4 (Edit.init (lit "b"))] in
  contains root 3 = true /\ contains root 7 = false /\
  contains (Labeled 2 (lit "name") (Edit 3 (Edit.init (lit "a")))) 4 = false.
Proof.
  cbv zeta. split; [|split; reflexivity].
  apply (proj2 (proj2 (contains_is_membership_in_the_tree
                         (Panel 1 [Labeled 2 (lit "name") (Edit 3 (Edit.init (lit "a")));
                                   Edit 4 (Edit.init (lit "b"))]) 3))
           (Labeled 2 (lit "name") (Edit 3 (Edit.init (lit "a"))))).
  - left; reflexivity.
  - reflexivity.
Defined.

(** The blur and focus events [Layer.focus] sends to the control that
    loses the focus and to the one that takes it are ignored by every
    object of the application: no handler changes anything on them, and
    none stops them. *)
Theorem blur_and_focus_events_change_nothing :
  forall (now : datetime.t) (app : App) (p : option ref) (o : obj)
         (ty : EventType) (tgt : ref),
    wf app -> In (p, o) (object_tree app) -> ty <> key_event ->
    on_event now app o (Event_init ty None tgt) = Some (app, Event_init ty None tgt).
Proof.
  intros now app p o ty tgt Hwf Hin Hty.
  exact (on_event_blur_focus now app p o ty tgt Hwf Hin Hty).
Qed.

Lemma blur_and_focus_events_change_nothing_witness :
  let app := App.init (Panel 1 [Text 2 (lit "hello"); Edit 3 (Edit.init (lit "x"))]) 10 in
  on_event (SelectDate.date 2024 1 15) app (CtrlObj (Edit 3 (Edit.init (lit "x"))))
           (Event_init blur_event None (CtrlRef 3))
  = Some (app, Event_init blur_event None (CtrlRef 3)).
Proof.
  cbv zeta.
  apply (blur_and_focus_events_change_nothing
           (SelectDate.date 2024 1 15)
           (App.init (Panel 1 [Text 2 (lit "hello"); Edit 3 (Edit.init (lit "x"))]) 10)
           (Some (CtrlRef 1))).
  - apply init_wf.
    + simpl. repeat constructor; simpl; intuition discriminate.
    + simpl. intros c [<-|[<-|[<-|[]]]]; reflexivity.
  - simpl. tauto.
  - discriminate.
Defined.

(** ** find_ancestor *)

Lemma count_child c ch : In ch (children c) -> (count ch < count c)%nat.
Proof.
  intros Hch. rewrite (count_unfold c).
  induction (children c) as [|a cs IH]; [contradiction|].
  cbn [map list_sum fold_right]. destruct Hch as [->|Hch].
  - lia.
  - specialize (IH Hch). unfold list_sum in *. lia.
Qed.

Lemma count_nodes c : forall x, In x (nodes c) -> (count x <= count c)%nat.
Proof.
  induction c as [c IH] using Control_children_ind. intros x Hx.
  rewrite Forall_forall in IH. rewrite nodes_unfold in Hx.
  destruct Hx as [<-|Hx]; [lia|].
  apply in_flat_map in Hx. destruct Hx as (ch & Hch & Hx).
  pose proof (IH ch Hch x Hx). pose proof (count_child c ch Hch). lia.
Qed.

Lemma find_ancestor_hit fuel app r set :
  existsb (ref_eqb r) set = true ->
  App.find_ancestor_loop fuel app (Some r) set = Some (Some r).
Proof. intros E. destruct fuel; cbn [App.find_ancestor_loop]; rewrite E; reflexivity. Qed.

Lemma find_ancestor_step fuel app p o set :
  wf app -> In (p, o) (object_tree app) ->
  existsb (ref_eqb (ref_of o)) set = false ->
  App.find_ancestor_loop (S fuel) app (Some (ref_of o)) set
  = App.find_ancestor_loop fuel app p set.
Proof.
  intros Hwf Hin E. cbn [App.find_ancestor_loop]. rewrite E.
  rewrite (get_parent_of app p o Hwf Hin). reflexivity.
Qed.

(** Climbing from a control of a layer with a set that holds the layers:
    the layer is found. *)
Lemma find_ancestor_layer app l :
  wf app -> In l (layers app) ->
  forall x, In x (nodes (root l)) ->
  forall fuel, (count (root l) + 1 <= fuel + count x)%nat ->
    App.find_ancestor_loop fuel app (Some (CtrlRef (addr_of x)))
                           (map (fun l => LayerRef (lid l)) (layers app))
    = Some (Some (LayerRef (lid l))).
Proof.
  intros Hwf Hl.
  set (refs := map (fun l => LayerRef (lid l)) (layers app)).
  assert (Hgen : forall c,
             (forall x, In x (nodes c) -> In x (nodes (root l))) ->
             (forall fuel, (count (root l) + 1 <= fuel + count c)%nat ->
                App.find_ancestor_loop fuel app (Some (CtrlRef (addr_of c))) refs
                = Some (Some (LayerRef (lid l)))) ->
             forall x, In x (nodes c) ->
             forall fuel, (count (root l) + 1 <= fuel + count x)%nat ->
               App.find_ancestor_loop fuel app (Some (CtrlRef (addr_of x))) refs
               = Some (Some (LayerRef (lid l)))).
  { induction c as [c IH] using Control_children_ind. intros Hsub Hc x Hx.
    rewrite Forall_forall in IH. rewrite nodes_unfold in Hx.
    destruct Hx as [<-|Hx]; [exact Hc|].
    apply in_flat_map in Hx. destruct Hx as (ch & Hch & Hx).
    apply (IH ch Hch); [| |exact Hx].
    - intros z Hz. apply Hsub. exact (nodes_child c ch z Hch Hz).
    - intros fuel Hfuel.
      pose proof (count_child c ch Hch) as Hlt.
      pose proof (count_nodes (root l) c (Hsub c (nodes_self c))) as Hle.
      destruct fuel as [|fuel]; [lia|].
      change (CtrlRef (addr_of ch)) with (ref_of (CtrlObj ch)).
      rewrite (find_ancestor_step fuel app (Some (CtrlRef (addr_of c))) (CtrlObj ch) refs Hwf).
      + apply Hc. lia.
      + apply object_tree_in. right; right; right. exists l, c, ch.
        split; [exact Hl|]. split; [exact (Hsub c (nodes_self c))|]. auto.
      + apply layer_refs_no_ctrl. }
  apply Hgen; [auto|].
  intros fuel Hfuel. destruct fuel as [|fuel]; [lia|].
  change (CtrlRef (addr_of (root l))) with (ref_of (CtrlObj (root l))).
  rewrite (find_ancestor_step fuel app (Some (LayerRef (lid l))) (CtrlObj (root l)) refs Hwf).
  - apply find_ancestor_hit. apply layer_refs_in. exact Hl.
  - apply object_tree_in. right; right; left. eauto.
  - apply layer_refs_no_ctrl.
Qed.

Lemma layer_found app l x :
  wf app -> In l (layers app) -> In x (nodes (root l)) ->
  App.layer app (CtrlRef (addr_of x)) = Some (Some (LayerRef (lid l))).
Proof.
  intros Hwf Hl Hx. unfold App.layer, App.find_ancestor.
  apply (find_ancestor_layer app l Hwf Hl x Hx).
  pose proof (count_in_layers app l Hl). lia.
Qed.

(** [app.layer(ctrl)] is the Layer whose tree holds the control, for every
    control of an application whose objects sit at one place each; for a
    control that is not in the application it is [None]. *)
Theorem layer_is_the_layer_of_the_control :
  forall app : App,
    wf app ->
    (forall l x, In l (layers app) -> In x (nodes (root l)) ->
                 App.layer app (CtrlRef (addr_of x)) = Some (Some (LayerRef (lid l)))) /\
    (forall a, (forall c, In c (app_nodes app) -> addr_of c <> a) ->
               App.layer app (CtrlRef a) = Some None).
Proof.
  intros app Hwf. split.
  - intros l x Hl Hx. exact (layer_found app l x Hwf Hl Hx).
  - intros a Ha. unfold App.layer, App.find_ancestor.
    pose proof (length_object_tree app) as Hlen. unfold count_obj in Hlen.
    destruct (List.length (object_tree app)) as [|fuel]; [discriminate|].
    cbn [App.find_ancestor_loop]. rewrite layer_refs_no_ctrl.
    rewrite get_parent_absent; [destruct fuel; reflexivity|].
    intros p o Hin E. destruct o as [|l|c]; try discriminate.
    injection E as E. apply (Ha c); [|exact E]. apply object_tree_ctrl. eauto.
Qed.

Lemma layer_is_the_layer_of_the_control_witness :
  let app := App.push_layer
               (App.init (Panel 1 [Labeled 2 (lit "name") (Edit 3 (Edit.init (lit "a")))]) 10)
               (Text 5 (lit "top")) in
  App.layer app (CtrlRef 3) = Some (Some (LayerRef 10)) /\
  App.layer app (CtrlRef 5) = Some (Some (LayerRef 11)) /\
  App.layer app (CtrlRef 7) = Some None.
Proof.
  cbv zeta. split; [reflexivity|]. split; [reflexivity|].
  apply (layer_is_the_layer_of_the_control
           (App.push_layer
              (App.init (Panel 1 [Labeled 2 (lit "name") (Edit 3 (Edit.init (lit "a")))]) 10)
              (Text 5 (lit "top")))).
  - unfold wf. simpl. split; [|split; [|split]].
    + repeat constructor; simpl; intuition discriminate.
    + repeat constructor; simpl; intuition discriminate.
    + intros c [<-|[<-|[<-|[<-|[]]]]]; reflexivity.
    + intros l [<-|[<-|[]]]; reflexivity.
  - simpl. intros c [<-|[<-|[<-|[<-|[]]]]]; discriminate.
Defined.

(** Climbing from a control below [c] with the set [[c]]: [c] is found. *)
Lemma find_ancestor_below app l c :
  wf app -> In l (layers app) -> In c (nodes (root l)) ->
  forall x, In x (nodes c) ->
  forall fuel, (count c <= fuel + count x)%nat ->
    App.find_ancestor_loop fuel app (Some (CtrlRef (addr_of x))) [CtrlRef (addr_of c)]
    = Some (Some (CtrlRef (addr_of c))).
Proof.
  intros Hwf Hl Hc.
  assert (Hgen : forall c',
             In c' (nodes c) ->
             (forall fuel, (count c <= fuel + count c')%nat ->
                App.find_ancestor_loop fuel app (Some (CtrlRef (addr_of c')))
                                       [CtrlRef (addr_of c)]
                = Some (Some (CtrlRef (addr_of c)))) ->
             forall x, In x (nodes c') ->
             forall fuel, (count c <= fuel + count x)%nat ->
               App.find_ancestor_loop fuel app (Some (CtrlRef (addr_of x)))
                                      [CtrlRef (addr_of c)]
               = Some (Some (CtrlRef (addr_of c)))).
  { induction c' as [c' IH] using Control_children_ind. intros Hsub Hc' x Hx.
    rewrite Forall_forall in IH. rewrite nodes_unfold in Hx.
    destruct Hx as [<-|Hx]; [exact Hc'|].
    apply in_flat_map in Hx. destruct Hx as (ch & Hch & Hx).
    apply (IH ch Hch); [| |exact Hx].
    - exact (nodes_trans _ _ _ (nodes_child c' ch ch Hch (nodes_self ch)) Hsub).
    - intros fuel Hfuel.
      destruct (existsb (ref_eqb (CtrlRef (addr_of ch))) [CtrlRef (addr_of c)]) eqn:E.
      + rewrite (find_ancestor_hit fuel app _ _ E). cbn [existsb] in E.
        rewrite orb_false_r in E. apply ref_eqb_eq in E. rewrite E. reflexivity.
      + pose proof (count_child c' ch Hch) as Hlt.
        pose proof (count_nodes c c' Hsub) as Hle.
        destruct fuel as [|fuel]; [lia|].
        change (CtrlRef (addr_of ch)) with (ref_of (CtrlObj ch)).
        rewrite (find_ancestor_step fuel app (Some (CtrlRef (addr_of c'))) (CtrlObj ch)
                                    _ Hwf); [apply Hc'; lia| |exact E].
        apply object_tree_in. right; right; right. exists l, c', ch.
        split; [exact Hl|]. split; [exact (nodes_trans _ _ _ Hsub Hc)|]. auto. }
  apply Hgen; [apply nodes_self|].
  intros fuel _. apply find_ancestor_hit. cbn [existsb]. rewrite ref_eqb_refl. reflexivity.
Qed.

(** Climbing from a control that no control at address [a] holds, with
    the set [[a]]: nothing is found. *)
Lemma find_ancestor_outside app l a :
  wf app -> In l (layers app) ->
  forall x, In x (nodes (root l)) ->
  (forall z, In z (nodes (root l)) -> In x (nodes z) -> addr_of z <> a) ->
  forall fuel, (count (root l) + 3 <= fuel + count x)%nat ->
    App.find_ancestor_loop fuel app (Some (CtrlRef (addr_of x))) [CtrlRef a] = Some None.
Proof.
  intros Hwf Hl.
  assert (Hno : forall z, addr_of z <> a ->
                          existsb (ref_eqb (CtrlRef (addr_of z))) [CtrlRef a] = false).
  { intros z Hz. cbn [existsb ref_eqb]. rewrite orb_false_r. apply Z.eqb_neq. exact Hz. }
  assert (Hgen : forall c,
             (forall x, In x (nodes c) -> In x (nodes (root l))) ->
             ((forall z, In z (nodes (root l)) -> In c (nodes z) -> addr_of z <> a) ->
              forall fuel, (count (root l) + 3 <= fuel + count c)%nat ->
                App.find_ancestor_loop fuel app (Some (CtrlRef (addr_of c))) [CtrlRef a]
                = Some None) ->
             forall x, In x (nodes c) ->
             (forall z, In z (nodes (root l)) -> In x (nodes z) -> addr_of z <> a) ->
             forall fuel, (count (root l) + 3 <= fuel + count x)%nat ->
               App.find_ancestor_loop fuel app (Some (CtrlRef (addr_of x))) [CtrlRef a]
               = Some None).
  { induction c as [c IH] using Control_children_ind. intros Hsub Hc x Hx.
    rewrite Forall_forall in IH. rewrite nodes_unfold in Hx.
    destruct Hx as [<-|Hx]; [exact Hc|].
    apply in_flat_map in Hx. destruct Hx as (ch & Hch & Hx).
    apply (IH ch Hch); [| |exact Hx].
    - intros z Hz. apply Hsub. exact (nodes_child c ch z Hch Hz).
    - intros Hout fuel Hfuel.
      pose proof (count_child c ch Hch) as Hlt.
      pose proof (count_nodes (root l) c (Hsub c (nodes_self c))) as Hle.
      destruct fuel as [|fuel]; [lia|].
      change (CtrlRef (addr_of ch)) with (ref_of (CtrlObj ch)).
      rewrite (find_ancestor_step fuel app (Some (CtrlRef (addr_of c))) (CtrlObj ch) _ Hwf).
      + apply Hc; [|lia]. intros z Hz Hcz. apply (Hout z Hz).
        exact (nodes_trans _ _ _ (nodes_child c ch ch Hch (nodes_self ch)) Hcz).
      + apply object_tree_in. right; right; right. exists l, c, ch.
        split; [exact Hl|]. split; [exact (Hsub c (nodes_self c))|]. auto.
      + apply Hno. apply Hout; [|apply nodes_self].
        apply Hsub. exact (nodes_child c ch ch Hch (nodes_self ch)). }
  intros x Hx. apply (Hgen (root l)); [auto| |exact Hx].
  intros Hout fuel Hfuel.
  destruct fuel as [|[|[|fuel]]]; try lia.
  change (CtrlRef (addr_of (root l))) with (ref_of (CtrlObj (root l))).
  rewrite (find_ancestor_step _ app (Some (LayerRef (lid l))) (CtrlObj (root l)) _ Hwf).
  - change (LayerRef (lid l)) with (ref_of (LayerObj l)).
    rewrite (find_ancestor_step _ app (Some AppRef) (LayerObj l) _ Hwf).
    + cbn [App.find_ancestor_loop existsb ref_eqb orb].
      rewrite get_parent_app. destruct fuel; reflexivity.
    + apply object_tree_in. right; left. eauto.
    + reflexivity.
  - apply object_tree_in. right; right; left. eauto.
  - apply Hno. apply Hout; apply nodes_self.
Qed.

(** [app.contains_focus(ctrl)], for a control of an application whose
    objects sit at one place each and whose active layer has its focus in
    order, is [ctrl.contains(focused)]: true exactly when the focused
    control is [ctrl] or below it. *)
Theorem contains_focus_is_contains_focused :
  forall (app : App) (l : Layer) (c : Control),
    wf app -> App.active_layer app = Some l -> layer_ok l ->
    In c (app_nodes app) ->
    App.contains_focus app (CtrlRef (addr_of c)) = Some (contains c (focused l)) /\
    (contains c (focused l) = true <->
     exists x, In x (nodes c) /\ addr_of x = focused l).
Proof.
  intros app l c Hwf Hact Hok Hc.
  split; [|apply contains_is_membership_in_the_tree_aux].
  pose proof (last_item_in _ _ Hact) as Hl.
  assert (Hf : exists f, In f (nodes (root l)) /\ addr_of f = focused l).
  { destruct Hok as [E|(f & Hf & E & _)]; [|eauto].
    exists (root l). split; [apply nodes_self|congruence]. }
  destruct Hf as (f & Hf & Ef).
  unfold App.contains_focus. rewrite Hact. rewrite <- Ef. unfold App.find_ancestor.
  pose proof (count_in_layers app l Hl) as Hlen.
  pose proof (count_nodes (root l) f Hf) as Hcf.
  assert (Hf1 : (1 <= count f)%nat) by (rewrite count_unfold; lia).
  destruct (contains c (addr_of f)) eqn:E.
  - apply contains_is_membership_in_the_tree_aux in E. destruct E as (x & Hx & Ex).
    unfold app_nodes in Hc. apply in_flat_map in Hc. destruct Hc as (l' & Hl' & Hc).
    assert (x = f).
    { apply (wf_addr_inj app x f Hwf); [|exact (in_app_nodes app l f Hl Hf)|exact Ex].
      exact (in_app_nodes app l' x Hl' (nodes_trans _ _ _ Hx Hc)). }
    subst x.
    rewrite (find_ancestor_below app l' c Hwf Hl' Hc f Hx); [reflexivity|].
    pose proof (count_in_layers app l' Hl').
    pose proof (count_nodes (root l') c Hc). lia.
  - rewrite (find_ancestor_outside app l (addr_of c) Hwf Hl f Hf); [reflexivity| |lia].
    intros z Hz Hfz Ez.
    assert (z = c).
    { apply (wf_addr_inj app z c Hwf); [exact (in_app_nodes app l z Hl Hz)|exact Hc|exact Ez]. }
    subst z.
    assert (contains c (addr_of f) = true); [|congruence].
    apply contains_is_membership_in_the_tree_aux. eauto.
Qed.

Lemma contains_focus_is_contains_focused_witness :
  let root := Panel 1 [Labeled 2 (lit "name") (Edit 3 (Edit.init (lit "a")));
                       Edit 4 (Edit.init (lit "b"))] in
  let app := App.init root 10 in
  App.contains_focus app (CtrlRef 2) = Some false /\
  App.contains_focus app (CtrlRef 4) = Some true /\
  App.contains_focus app (CtrlRef 1) = Some (contains root (focused (Layer.init 10 root))).
Proof.
  cbv zeta. split; [reflexivity|]. split; [reflexivity|].
  apply (contains_focus_is_contains_focused
           (App.init (Panel 1 [Labeled 2 (lit "name") (Edit 3 (Edit.init (lit "a")));
                               Edit 4 (Edit.init (lit "b"))]) 10)
           (Layer.init 10 (Panel 1 [Labeled 2 (lit "name") (Edit 3 (Edit.init (lit "a")));
                                    Edit 4 (Edit.init (lit "b"))]))
           (Panel 1 [Labeled 2 (lit "name") (Edit 3 (Edit.init (lit "a")));
                     Edit 4 (Edit.init (lit "b"))])).
  - apply init_wf.
    + simpl. repeat constructor; simpl; intuition discriminate.
    + simpl. intros c [<-|[<-|[<-|[<-|[]]]]]; reflexivity.
  - reflexivity.
  - apply init_ok.
  - simpl. tauto.
Defined.

(** ** Layer.focus *)

Lemma find_over_app {A} (f : A -> bool) l1 l2 :
  find f (l1 ++ l2) = match find f l1 with Some a => Some a | None => find f l2 end.
Proof.
  induction l1 as [|a l1 IH]; [reflexivity|]. cbn [app find].
  destruct (f a); [reflexivity|exact IH].
Qed.

Lemma focus_find l c :
  Layer.focus l c
  = match find can_focus (nodes c) with
    | Some x => (mkLayer (lid l) (root l) (addr_of x), true)
    | None => (l, false)
    end.
Proof.
  induction c as [c IH] using Control_children_ind.
  assert (Heach : forall cs,
             Forall (fun ch => In ch (children c)) cs ->
             (fix each (cs : list Control) : Layer * bool :=
                match cs with
                | [] => (l, false)
                | child :: rest =>
                    let r := Layer.focus l child in
                    if snd r then (fst r, true) else each rest
                end) cs
             = match find can_focus (flat_map nodes cs) with
               | Some x => (mkLayer (lid l) (root l) (addr_of x), true)
               | None => (l, false)
               end).
  { rewrite Forall_forall in IH.
    induction cs as [|ch rest IHr]; intros Hsub; [reflexivity|].
    inversion Hsub as [|? ? Hch Hrest]; subst. cbv zeta.
    rewrite (IH ch Hch). cbn [flat_map]. rewrite find_over_app.
    destruct (find can_focus (nodes ch)) as [x|]; cbn [snd fst]; [reflexivity|].
    exact (IHr Hrest). }
  assert (Hall : Forall (fun ch => In ch (children c)) (children c))
    by (apply Forall_forall; auto).
  rewrite nodes_unfold. cbn [find].
  destruct c; cbn [Layer.focus can_focus]; cbv zeta; try reflexivity;
    exact (Heach _ Hall).
Qed.

(** [layer.focus(ctrl)] gives the focus to the first control with
    [can_focus] among [ctrl] and the controls below it, in document order
    (a control before its children, the children in order), and returns
    True; when none of them can take the focus it changes nothing and
    returns False.  It never changes the root of the layer. *)
Theorem Layer_focus_takes_first_in_document_order :
  forall (l : Layer) (ctrl : Control),
    (forall x, find can_focus (nodes ctrl) = Some x ->
               Layer.focus l ctrl = (mkLayer (lid l) (root l) (addr_of x), true) /\
               In x (nodes ctrl) /\ can_focus x = true) /\
    (find can_focus (nodes ctrl) = None -> Layer.focus l ctrl = (l, false)) /\
    (snd (Layer.focus l ctrl) = false <->
     forall x, In x (nodes ctrl) -> can_focus x = false) /\
    root (fst (Layer.focus l ctrl)) = root l.
Proof.
  intros l ctrl. rewrite focus_find. split; [|split; [|split]].
  - intros x E. rewrite E. split; [reflexivity|].
    apply find_some in E. exact E.
  - intros ->. reflexivity.
  - destruct (find can_focus (nodes ctrl)) as [x|] eqn:E; cbn [snd]; split.
    + discriminate.
    + intros Hall. apply find_some in E. destruct E as [Hx Hc].
      rewrite (Hall x Hx) in Hc. discriminate.
    + intros _ x Hx. pose proof (find_none _ _ E x Hx) as Hn. exact Hn.
    + reflexivity.
  - destruct (find can_focus (nodes ctrl)); reflexivity.
Qed.

Lemma Layer_focus_takes_first_in_document_order_witness :
  let first := Edit 3 (Edit.init (lit "a")) in
  let second := Edit 4 (Edit.init (lit "b")) in
  let root := Panel 1 [Labeled 2 (lit "name") first; second] in
  Layer.focus (mkLayer 10 root 1) root = (mkLayer 10 root 3, true).
Proof.
  cbv zeta.
  apply (proj1 (Layer_focus_takes_first_in_document_order
                  (mkLayer 10 (Panel 1 [Labeled 2 (lit "name") (Edit 3 (Edit.init (lit "a")));
                                        Edit 4 (Edit.init (lit "b"))]) 1)
                  (Panel 1 [Labeled 2 (lit "name") (Edit 3 (Edit.init (lit "a")));
                            Edit 4 (Edit.init (lit "b"))]))
               (Edit 3 (Edit.init (lit "a")))).
  reflexivity.
Defined.

(** ** What makes the application exit *)

Section ExitFacts.
Variable now : datetime.t.

(** The event is an Escape key or not. *)
Local Abbreviation esc ev := (code_in (key ev) [curses.ascii.ESC]).

Lemma focus_in_exit app l ctrl : exit (fst (App.focus_in app l ctrl)) = exit app.
Proof. unfold App.focus_in. destruct (find _ (layers app)); reflexivity. Qed.

Lemma focus_scan_exit self controls back : forall fuel app i ev app' ev',
  focus_scan fuel app self controls back i ev = Some (app', ev') ->
  exit app' = exit app /\ key ev' = key ev.
Proof.
  induction fuel as [|fuel IH]; intros app i ev app' ev'; cbn [focus_scan].
  - destruct ((0 <=? i) && (i <? len controls) && propagating ev); [discriminate|].
    intros E; inversion E; auto.
  - destruct ((0 <=? i) && (i <? len controls) && propagating ev).
    2:{ intros E; inversion E; auto. }
    destruct ((0 <=? i + (if back then -1 else 1))
              && (i + (if back then -1 else 1) <? len controls)).
    2:{ apply IH. }
    destruct (App.layer app (CtrlRef self)) as [[[|l|a]|]|]; try discriminate.
    destruct (nth_error controls _) as [ctrl|]; [|discriminate].
    intros E. apply IH in E. rewrite focus_in_exit in E.
    destruct E as [E1 E2]. split; [exact E1|].
    rewrite E2. destruct (snd (App.focus_in app l ctrl)); reflexivity.
Qed.

Lemma focus_move_exit app self controls back ev app' ev' :
  focus_move app self controls back ev = Some (app', ev') ->
  exit app' = exit app /\ key ev' = key ev.
Proof.
  unfold focus_move.
  destruct (App.find_ancestor app (last ev) _) as [[current|]|]; try discriminate.
  - destruct (index_of current controls); [|discriminate]. apply focus_scan_exit.
  - intros E; inversion E; auto.
Qed.

Lemma on_active_layer_exit f app app' :
  App.on_active_layer f app = Some app' -> exit app' = exit app.
Proof.
  unfold App.on_active_layer. destruct (App.active_layer app); [|discriminate].
  intros E; inversion E; reflexivity.
Qed.

Lemma App_on_event_exit app ev app' ev' :
  App_on_event app ev = Some (app', ev') ->
  key ev' = key ev /\
  (exit app' = exit app \/ (esc ev = true /\ exit app' = true)).
Proof.
  unfold App_on_event.
  destruct (esc ev) eqn:Ek; cbn [key stop];
    destruct (code_in (key ev) [curses.KEY_DOWN; curses.ascii.TAB]);
    destruct (code_in (key ev) [curses.KEY_UP; SHIFT_TAB]); cbn [bind];
    repeat match goal with
      | |- context [App.on_active_layer ?f ?a] =>
          let E := fresh "E" in
          destruct (App.on_active_layer f a) eqn:E; cbn [bind];
          [apply on_active_layer_exit in E|discriminate]
      end;
    intros H; inversion H; subst; cbn [key stop exit] in *; split; auto;
    try (right; split; [reflexivity|congruence]); left; congruence.
Qed.

Lemma call_on_close_exit app cb success inner app' :
  call_on_close app cb success inner = Some app' -> exit app' = exit app.
Proof.
  destruct cb; cbn [call_on_close];
    unfold Combo_on_popup_close, DateCombo_on_popup_close;
    (destruct success; [|intros E; inversion E; reflexivity]).
  - destruct (inner_index inner); [|discriminate].
    destruct (App.lookup app (CtrlRef self)) as [[|?|[]]|];
      intros E; inversion E; reflexivity.
  - destruct (inner_value inner); [|discriminate].
    destruct (App.lookup app (CtrlRef self)) as [[|?|[]]|];
      intros E; inversion E; reflexivity.
Qed.

Lemma close_exit app cb success inner app' :
  bind (call_on_close app cb success inner) App.pop_layer = Some app' ->
  exit app' = exit app.
Proof.
  destruct (call_on_close app cb success inner) as [app1|] eqn:E; [|discriminate].
  cbn [bind]. apply call_on_close_exit in E. unfold App.pop_layer.
  destruct (layers app1); [discriminate|]. intros H; inversion H; subst. exact E.
Qed.

Lemma Popup_on_event_exit app inner cb ev app' ev' :
  Popup_on_event app inner cb ev = Some (app', ev') ->
  exit app' = exit app /\ ev' = ev.
Proof.
  unfold Popup_on_event. destruct (EventType_eqb (type ev) key_event).
  2:{ intros E; inversion E; auto. }
  destruct (is_code (key ev) curses.ascii.ESC).
  - destruct (bind (call_on_close app cb false inner) App.pop_layer) as [app1|] eqn:E1;
      [|discriminate].
    apply close_exit in E1. cbn [bind]. destruct (is_enter ev).
    + destruct (bind (call_on_close app1 cb true inner) App.pop_layer) as [app2|] eqn:E2;
        [|discriminate].
      apply close_exit in E2. cbn [bind]. intros E; inversion E; subst.
      split; [congruence|reflexivity].
    + cbn [bind]. intros E; inversion E; subst. auto.
  - cbn [bind]. destruct (is_enter ev).
    + destruct (bind (call_on_close app cb true inner) App.pop_layer) as [app2|] eqn:E2;
        [|discriminate].
      apply close_exit in E2. cbn [bind]. intros E; inversion E; subst. auto.
    + cbn [bind]. intros E; inversion E; subst. auto.
Qed.

Lemma SelectList_on_event_key s ev : key (snd (SelectList.on_event s ev)) = key ev.
Proof.
  unfold SelectList.on_event, SelectList.on_down, SelectList.on_up.
  destruct (EventType_eqb (type ev) key_event); [|reflexivity].
  destruct (is_code (key ev) curses.KEY_UP && _); cbn [key stop];
    destruct (is_code (key ev) curses.KEY_DOWN && _); reflexivity.
Qed.

Lemma on_what_key c f st st' :
  SelectDate.on_what c f st = Some st' -> key (snd st') = key (snd st).
Proof.
  destruct st as [self ev]. unfold SelectDate.on_what.
  destruct (is_code (what ev) c).
  - destruct (f (SelectDate.value self)); [|discriminate].
    intros E; inversion E; reflexivity.
  - intros E; inversion E; reflexivity.
Qed.

Lemma SelectDate_on_event_key s ev s' ev' :
  SelectDate.on_event now s ev = Some (s', ev') -> key ev' = key ev.
Proof.
  unfold SelectDate.on_event. destruct (EventType_eqb (type ev) key_event).
  2:{ intros E; inversion E; reflexivity. }
  cbv zeta. unfold SelectDate.then_.
  destruct (SelectDate.on_what ord_t _ (s, ev)) as [st1|] eqn:E1; [|discriminate].
  destruct (SelectDate.on_what curses.KEY_LEFT _ st1) as [st2|] eqn:E2; [|discriminate].
  destruct (SelectDate.on_what curses.KEY_RIGHT _ st2) as [st3|] eqn:E3; [|discriminate].
  destruct (SelectDate.on_what curses.KEY_UP _ st3) as [st4|] eqn:E4; [|discriminate].
  intros E5.
  apply on_what_key in E1, E2, E3, E4, E5. cbn [snd] in *. congruence.
Qed.

Lemma Edit_on_event_esc s ev s' ev' :
  Edit.on_event s ev = Some (s', ev') -> esc ev' = esc ev.
Proof.
  unfold Edit.on_event. destruct (EventType_eqb (type ev) key_event).
  2:{ intros E; inversion E; reflexivity. }
  assert (Hstep : forall (f : Edit.t * Event -> Edit.t * Event) st,
             In f [Edit.on_ctrl_a; Edit.on_ctrl_e; Edit.on_backspace; Edit.on_delete;
                   Edit.on_left; Edit.on_right] ->
             key (snd (f st)) = key (snd st)).
  { intros f [self e] Hf. cbn [In] in Hf.
    repeat (destruct Hf as [<-|Hf]; [
      unfold Edit.on_ctrl_a, Edit.on_ctrl_e, Edit.on_backspace, Edit.on_delete,
        Edit.on_left, Edit.on_right;
      match goal with |- context [if ?b then _ else _] => destruct b end; reflexivity|]).
    contradiction. }
  set (st6 := Edit.on_right (Edit.on_left (Edit.on_delete (Edit.on_backspace
                (Edit.on_ctrl_e (Edit.on_ctrl_a (s, ev))))))).
  assert (H6 : key (snd st6) = key ev).
  { unfold st6.
    rewrite (Hstep Edit.on_right) by (cbn; tauto).
    rewrite (Hstep Edit.on_left) by (cbn; tauto).
    rewrite (Hstep Edit.on_delete) by (cbn; tauto).
    rewrite (Hstep Edit.on_backspace) by (cbn; tauto).
    rewrite (Hstep Edit.on_ctrl_e) by (cbn; tauto).
    rewrite (Hstep Edit.on_ctrl_a) by (cbn; tauto). reflexivity. }
  destruct st6 as [s6 e6]. cbn [snd] in H6.
  unfold Edit.on_enter, Edit.on_printable.
  destruct (is_enter e6) eqn:Een.
  - cbn [key set_key]. cbn [andb Z.leb Z.ltb Z.compare Pos.compare Pos.compare_cont].
    intros E. inversion E; subst. cbn [key set_key].
    unfold is_enter in Een. rewrite H6 in Een.
    destruct (key ev) as [k|]; [|discriminate]. cbn [code_in existsb is_code] in *.
    rewrite !orb_false_r in *. apply orb_prop in Een.
    unfold curses.ascii.TAB, curses.ascii.ESC, curses.KEY_ENTER, ALT_ENTER in *.
    destruct Een as [Een|Een]; apply Z.eqb_eq in Een; subst k; reflexivity.
  - destruct (key e6) as [k|] eqn:Ek; [|discriminate].
    destruct ((32 <=? k) && (k <? 127)); intros E; inversion E; subst;
      cbn [key stop]; rewrite ?Ek; congruence.
Qed.

Lemma store_exit app c : exit (App.store app c) = exit app.
Proof. reflexivity. Qed.

(** A handler sets [exit] only to true, only the App's does, and only on
    Escape; and no handler turns a key into Escape or Escape into another
    key. *)
Lemma on_event_exit app o ev app' ev' :
  on_event now app o ev = Some (app', ev') ->
  esc ev' = esc ev /\
  (exit app' = exit app \/ (esc ev = true /\ exit app' = true)).
Proof.
  destruct o as [|l|c]; cbn [on_event].
  - intros E. apply App_on_event_exit in E. destruct E as [Ek E].
    split; [rewrite Ek; reflexivity|exact E].
  - intros E; inversion E; auto.
  - destruct c; cbn [on_event].
    + intros E; inversion E; auto.
    + unfold Panel_on_event. destruct (code_in (key ev) _).
      * intros E. apply focus_move_exit in E. destruct E as [E1 E2].
        rewrite E2. auto.
      * intros E; inversion E; auto.
    + intros E; inversion E; auto.
    + intros E; inversion E; subst. rewrite SelectList_on_event_key. auto.
    + destruct (SelectDate.on_event now s ev) as [[s' e']|] eqn:Es; [|discriminate].
      cbn [bind fst snd]. intros E; inversion E; subst.
      apply SelectDate_on_event_key in Es. rewrite Es. auto.
    + unfold Composite_on_event. destruct (EventType_eqb (type ev) key_event).
      2:{ intros E; inversion E; auto. }
      destruct (code_in (key ev) _).
      * intros E. apply focus_move_exit in E. destruct E as [E1 E2].
        rewrite E2. auto.
      * intros E; inversion E; auto.
    + intros E. apply Popup_on_event_exit in E. destruct E as [E1 ->]. auto.
    + unfold Combo_on_event. destruct (EventType_eqb (type ev) key_event && is_enter ev).
      * destruct (Combo.last_combo s); [|discriminate].
        intros E; inversion E; subst. auto.
      * intros E; inversion E; auto.
    + unfold DateCombo_on_event.
      destruct (EventType_eqb (type ev) key_event && is_enter ev).
      * destruct (DateCombo.last_combo s); [|discriminate].
        intros E; inversion E; subst. auto.
      * intros E; inversion E; auto.
    + destruct (Edit.on_event s ev) as [[s' e']|] eqn:Es; [|discriminate].
      cbn [bind fst snd]. intros E; inversion E; subst.
      apply Edit_on_event_esc in Es. auto.
Qed.

Lemma dispatch_loop_exit : forall fuel app ev tgt app' ev',
  dispatch_loop fuel now app ev tgt = Some (app', ev') ->
  exit app' = exit app \/ (esc ev = true /\ exit app' = true).
Proof.
  induction fuel as [|fuel IH]; intros app ev tgt app' ev'; cbn [dispatch_loop].
  - destruct tgt; [destruct (propagating ev); [discriminate|]|];
      intros E; inversion E; auto.
  - destruct tgt as [r|]; [|intros E; inversion E; auto].
    destruct (propagating ev); [|intros E; inversion E; auto].
    destruct (App.lookup app r) as [o|]; [|discriminate]. cbn [bind].
    destruct (on_event now app o ev) as [[app1 ev1]|] eqn:E1; [|discriminate].
    cbn [bind fst snd]. intros E. apply IH in E.
    apply on_event_exit in E1. destruct E1 as [Ek E1].
    change (esc (set_last ev1 r)) with (esc ev1) in E. rewrite Ek in E.
    destruct E as [E|[E2 E3]]; [|right; auto].
    destruct E1 as [E1|[E1 E4]]; [left; congruence|right; split; [exact E1|congruence]].
Qed.

(** The [exit] flag is written by the Escape statement of [App.on_event]
    and by nothing else.  In an application whose objects sit at one place
    each, whose layers have their focus in their tree and whose Popups
    closing for a DateCombo hold a date control, a keystroke that is
    handled without an exception leaves [exit] as it was, unless the key is
    Escape and [exit] is true afterwards; so no handler sets [exit] back to
    false.  (A keystroke that raises, as the one after the last layer has
    been closed does, is not covered.) *)
Theorem only_Escape_sets_exit :
  forall (fuel : nat) (app : App) (c : Z) (app' : App),
    app_ok app -> dated app ->
    keystroke fuel now app c = Some app' ->
    exit app' = exit app \/ (c = curses.ascii.ESC /\ exit app' = true).
Proof.
  intros fuel app c app' _ _. unfold keystroke.
  destruct (App.active_layer app) as [l|]; [|discriminate]. cbn [bind].
  unfold dispatch_event.
  destruct (dispatch_loop fuel now app (press c (CtrlRef (focused l))) _)
    as [[app1 ev1]|] eqn:E; [|discriminate].
  cbn [bind fst]. intros H; inversion H; subst app1.
  apply dispatch_loop_exit in E. destruct E as [E|[E1 E2]]; [left; exact E|].
  right. split; [|exact E2].
  cbn [press Event_init key code_in existsb is_code] in E1.
  rewrite orb_false_r in E1. apply Z.eqb_eq in E1. exact E1.
Qed.

End ExitFacts.

Lemma only_Escape_sets_exit_witness :
  let app := App.init (Panel 1 [Text 2 (lit "hello"); Edit 3 (Edit.init (lit "x"))]) 10 in
  exists app',
    keystroke 10 (SelectDate.date 2024 1 15) app ALT_ENTER = Some app' /\
    exit app' = false.
Proof.
  cbv zeta. eexists. split; [reflexivity|].
  match goal with
  | |- exit ?a = false =>
      destruct (only_Escape_sets_exit (SelectDate.date 2024 1 15) 10
                  (App.init (Panel 1 [Text 2 (lit "hello"); Edit 3 (Edit.init (lit "x"))]) 10)
                  ALT_ENTER a) as [E|[E _]]
  end.
  - apply init_app_ok.
    + simpl. repeat constructor; simpl; intuition discriminate.
    + simpl. intros c [<-|[<-|[<-|[]]]]; reflexivity.
  - intros a x y inner c cap Hin. simpl in Hin.
    destruct Hin as [H|[H|[H|[]]]]; discriminate.
  - reflexivity.
  - exact E.
  - discriminate E.
Defined.

(** ** Moving the focus with the keyboard *)

Section FocusMoveFacts.
Variable now : datetime.t.

Lemma nodes_split c : forall P,
  In P (nodes c) -> exists pre post, nodes c = pre ++ nodes P ++ post.
Proof.
  induction c as [c IH] using Control_children_ind. intros P HP.
  rewrite Forall_forall in IH. rewrite nodes_unfold in HP.
  destruct HP as [<-|HP].
  - exists [], []. rewrite app_nil_r. reflexivity.
  - apply in_flat_map in HP. destruct HP as (ch & Hch & HP).
    destruct (IH ch Hch P HP) as (pre & post & E).
    apply in_split in Hch. destruct Hch as (l1 & l2 & Hcs).
    exists (c :: flat_map nodes l1 ++ pre), (post ++ flat_map nodes l2).
    rewrite nodes_unfold, Hcs, flat_map_app. cbn [flat_map]. rewrite E.
    cbn [app]. rewrite <- !app_assoc. reflexivity.
Qed.

Lemma heads_NoDup cs :
  NoDup (map addr_of (flat_map nodes cs)) -> NoDup (map addr_of cs).
Proof.
  induction cs as [|c cs IH]; intros Hnd; [constructor|].
  cbn [flat_map] in Hnd. rewrite nodes_unfold in Hnd.
  cbn [app map] in Hnd. rewrite map_app in Hnd.
  inversion Hnd as [|a0 l0 Hnin Hrest]; subst. cbn [map]. constructor.
  - intros Hin. apply Hnin. rewrite in_app_iff. right.
    apply in_map_iff in Hin. destruct Hin as (z & Ez & Hz).
    apply in_map_iff. exists z. split; [exact Ez|].
    apply in_flat_map. exists z. split; [exact Hz|apply nodes_self].
  - apply IH. exact (NoDup_app_remove_l _ _ Hrest).
Qed.

Lemma children_NoDup app l P :
  wf app -> In l (layers app) -> In P (nodes (root l)) ->
  NoDup (map addr_of (children P)).
Proof.
  intros (Hnd & _) Hl HP. apply heads_NoDup.
  unfold app_nodes in Hnd. apply in_split in Hl. destruct Hl as (l1 & l2 & El).
  rewrite El, flat_map_app in Hnd. cbn [flat_map] in Hnd.
  rewrite !map_app in Hnd.
  apply NoDup_app_remove_l, NoDup_app_remove_r in Hnd.
  destruct (nodes_split (root l) P HP) as (pre & post & E).
  rewrite E, !map_app in Hnd.
  apply NoDup_app_remove_l, NoDup_app_remove_r in Hnd.
  rewrite nodes_unfold in Hnd. cbn [map] in Hnd.
  inversion Hnd; assumption.
Qed.

Lemma index_of_nth cs : forall i c,
  NoDup (map addr_of cs) -> nth_error cs i = Some c ->
  index_of (CtrlRef (addr_of c)) cs = Some (Z.of_nat i).
Proof.
  induction cs as [|a cs IH]; intros i c Hnd Hi; [destruct i; discriminate|].
  cbn [map] in Hnd. inversion Hnd as [|a0 l0 Hnin Hrest]; subst.
  cbn [index_of ref_eqb]. destruct i as [|i]; cbn [nth_error] in Hi.
  - inversion Hi; subst. rewrite Z.eqb_refl. reflexivity.
  - destruct (Z.eqb_spec (addr_of a) (addr_of c)) as [E|_].
    + exfalso. apply Hnin. rewrite E. apply in_map. exact (nth_error_In _ _ Hi).
    + rewrite (IH i c Hrest Hi). f_equal. lia.
Qed.

Lemma find_layer app l :
  wf app -> In l (layers app) ->
  find (fun z => lid z =? lid l) (layers app) = Some l.
Proof.
  intros (_ & Hnd & _) Hl. induction (layers app) as [|z ls IH]; [contradiction|].
  cbn [map] in Hnd. inversion Hnd as [|a0 l0 Hnin Hrest]; subst. cbn [find].
  destruct Hl as [->|Hl]; [rewrite Z.eqb_refl; reflexivity|].
  destruct (Z.eqb_spec (lid z) (lid l)) as [E|_]; [|exact (IH Hrest Hl)].
  exfalso. apply Hnin. rewrite E. apply in_map. exact Hl.
Qed.

Lemma focus_in_spec app l ctrl :
  wf app -> In l (layers app) ->
  App.focus_in app (lid l) ctrl
  = match find can_focus (nodes ctrl) with
    | Some x => (focus_on app (lid l) (addr_of x), true)
    | None => (app, false)
    end.
Proof.
  intros Hwf Hl. unfold App.focus_in. rewrite (find_layer app l Hwf Hl).
  rewrite focus_find. cbv zeta.
  destruct (find can_focus (nodes ctrl)) as [x|]; cbn [fst snd].
  - f_equal. unfold focus_on. f_equal. apply map_ext_in. intros z Hz.
    destruct (Z.eqb_spec (lid z) (lid l)) as [E|_]; [|reflexivity].
    rewrite (wf_lid_inj app z l Hwf Hz Hl E). reflexivity.
  - f_equal. destruct app as [e ls n]. cbn [exit layers next_addr] in *. f_equal.
    rewrite <- (map_id ls) at 2. apply map_ext_in. intros z Hz.
    destruct (Z.eqb_spec (lid z) (lid l)) as [E|_]; [|reflexivity].
    symmetry. exact (wf_lid_inj (mkApp e ls n) z l Hwf Hz Hl E).
Qed.

Lemma siblings_after_step (back : bool) (cs : list Control) (i : nat) :
  let j := Z.of_nat i + (if back then -1 else 1) in
  (0 <= j < len cs ->
   exists s, nth_error cs (Z.to_nat j) = Some s /\
             siblings_after back cs i = s :: siblings_after back cs (Z.to_nat j)) /\
  (~ 0 <= j < len cs -> (i < List.length cs)%nat -> siblings_after back cs i = []).
Proof.
  cbv zeta. unfold siblings_after, len. destruct back; split.
  - intros Hj. destruct i as [|i]; [lia|].
    replace (Z.to_nat (Z.of_nat (S i) + -1)) with i by lia.
    destruct (nth_error cs i) as [s|] eqn:E;
      [|apply nth_error_None in E; lia].
    exists s. split; [reflexivity|].
    clear Hj. revert cs E. induction i as [|i IH]; intros [|a cs] E; try discriminate.
    + inversion E; reflexivity.
    + cbn [nth_error] in E. specialize (IH cs E).
      change (firstn (S (S i)) (a :: cs)) with (a :: firstn (S i) cs).
      change (firstn (S i) (a :: cs)) with (a :: firstn i cs).
      cbn [rev]. rewrite IH. reflexivity.
  - intros Hj Hi. destruct i as [|i]; [reflexivity|lia].
  - intros Hj. replace (Z.to_nat (Z.of_nat i + 1)) with (S i) by lia.
    destruct (nth_error cs (S i)) as [s|] eqn:E;
      [|apply nth_error_None in E; lia].
    exists s. split; [reflexivity|].
    clear Hj. revert cs E. generalize (S i) as k.
    induction k as [|k IH]; intros [|a cs] E; try discriminate.
    + inversion E; reflexivity.
    + cbn [nth_error] in E. exact (IH cs E).
  - intros Hj Hi. apply skipn_all2. lia.
Qed.

Lemma focus_scan_done fuel app self controls back i ev :
  (0 <=? i) && (i <? len controls) && propagating ev = false ->
  focus_scan fuel app self controls back i ev = Some (app, ev).
Proof. intros E. destruct fuel; cbn [focus_scan]; rewrite E; reflexivity. Qed.

(** The loop of Panel and Composite, from the child [i] of [P]: the focus
    goes to the first control that can take it among the siblings the loop
    tries and what lies below them, and the event is stopped; if there is
    none the loop changes nothing. *)
Lemma focus_scan_spec app l P back :
  wf app -> In l (layers app) -> In P (nodes (root l)) ->
  forall fuel i ev,
    propagating ev = true -> (i < List.length (children P))%nat ->
    (List.length (siblings_after back (children P) i) < fuel)%nat ->
    focus_scan fuel app (addr_of P) (children P) back (Z.of_nat i) ev
    = Some (match find can_focus (flat_map nodes (siblings_after back (children P) i)) with
            | Some x => (focus_on app (lid l) (addr_of x), stop ev)
            | None => (app, ev)
            end).
Proof.
  intros Hwf Hl HP. induction fuel as [|fuel IH]; intros i ev Hp Hi Hf; [lia|].
  cbn [focus_scan]. rewrite Hp.
  replace ((0 <=? Z.of_nat i) && (Z.of_nat i <? len (children P))) with true.
  2:{ symmetry. apply andb_true_intro. split; [apply Z.leb_le; lia|].
      apply Z.ltb_lt. unfold len. lia. }
  cbn [andb].
  destruct (siblings_after_step back (children P) i) as [Hin Hout].
  cbv zeta in Hin, Hout.
  set (j := Z.of_nat i + (if back then -1 else 1)) in *.
  destruct ((0 <=? j) && (j <? len (children P))) eqn:Ej.
  - apply andb_prop in Ej. destruct Ej as [Ej0 Ej1].
    apply Z.leb_le in Ej0. apply Z.ltb_lt in Ej1.
    destruct (Hin (conj Ej0 Ej1)) as (s & Hs & Hsib).
    rewrite (layer_found app l P Hwf Hl HP). rewrite Hs.
    rewrite (focus_in_spec app l s Hwf Hl). rewrite Hsib. cbn [flat_map].
    rewrite find_over_app.
    destruct (find can_focus (nodes s)) as [x|]; cbn [fst snd].
    + apply focus_scan_done. cbn [propagating stop]. apply andb_false_r.
    + replace j with (Z.of_nat (Z.to_nat j)) at 1 by lia.
      apply IH; [exact Hp|unfold len in Ej1; lia|].
      rewrite Hsib in Hf. cbn [List.length] in Hf. lia.
  - rewrite Hout; [|intros [H0 H1]|exact Hi].
    + cbn [flat_map find]. apply focus_scan_done. rewrite Ej. reflexivity.
    + assert (Et : (0 <=? j) && (j <? len (children P)) = true); [|congruence].
      apply andb_true_intro. split; [apply Z.leb_le|apply Z.ltb_lt]; assumption.
Qed.

Lemma siblings_after_length back (cs : list Control) i :
  (i < List.length cs)%nat -> (List.length (siblings_after back cs i) < List.length cs)%nat.
Proof.
  intros Hi. unfold siblings_after. destruct back.
  - rewrite length_rev, length_firstn. lia.
  - rewrite length_skipn. lia.
Qed.

(** The body of [Panel.on_event] and [Composite.on_event], run by the
    container [P] when the event comes up from its child [i]. *)
Lemma focus_move_spec app l P back ev i c :
  wf app -> In l (layers app) -> In P (nodes (root l)) ->
  nth_error (children P) i = Some c ->
  propagating ev = true -> last ev = Some (CtrlRef (addr_of c)) ->
  focus_move app (addr_of P) (children P) back ev
  = Some (match find can_focus (flat_map nodes (siblings_after back (children P) i)) with
          | Some x => (focus_on app (lid l) (addr_of x), stop ev)
          | None => (app, ev)
          end).
Proof.
  intros Hwf Hl HP Hi Hp Hlast. unfold focus_move, App.find_ancestor. rewrite Hlast.
  rewrite find_ancestor_hit.
  2:{ apply existsb_exists. exists (CtrlRef (addr_of c)).
      split; [|apply ref_eqb_refl].
      apply (in_map (fun c => CtrlRef (addr_of c))). exact (nth_error_In _ _ Hi). }
  rewrite (index_of_nth (children P) i c (children_NoDup app l P Hwf Hl HP) Hi).
  assert (Hlt : (i < List.length (children P))%nat)
    by (apply nth_error_Some; congruence).
  apply (focus_scan_spec app l P back Hwf Hl HP); [exact Hp|exact Hlt|].
  pose proof (siblings_after_length back (children P) i Hlt). lia.
Qed.

(** A keystroke that the focused control [c] hands on, as the event
    [ev1], to the Panel or Composite [P] that holds it, when [P] runs its
    loop on it. *)
Lemma keystroke_through_container app l P i c k ev1 back :
  wf app -> App.active_layer app = Some l -> In P (nodes (root l)) ->
  nth_error (children P) i = Some c -> focused l = addr_of c ->
  on_event now app (CtrlObj c) (press k (CtrlRef (addr_of c))) = Some (app, ev1) ->
  propagating ev1 = true ->
  on_event now app (CtrlObj P) (set_last ev1 (CtrlRef (addr_of c)))
  = focus_move app (addr_of P) (children P) back (set_last ev1 (CtrlRef (addr_of c))) ->
  forall fuel, (2 <= fuel)%nat ->
    dispatch_event fuel now app (press k (CtrlRef (focused l)))
    = match find can_focus (flat_map nodes (siblings_after back (children P) i)) with
      | Some x =>
          Some (focus_on app (lid l) (addr_of x),
                set_last (stop (set_last ev1 (CtrlRef (addr_of c)))) (CtrlRef (addr_of P)))
      | None =>
          dispatch_loop (fuel - 2) now app
                        (set_last ev1 (CtrlRef (addr_of P)))
                        (App.get_parent app (CtrlRef (addr_of P)))
      end.
Proof.
  intros Hwf Hact HP Hi Hf Hc Hp1 HPev fuel Hfuel.
  pose proof (last_item_in _ _ Hact) as Hl.
  assert (Hpair : In (Some (CtrlRef (addr_of P)), CtrlObj c) (object_tree app)).
  { apply object_tree_in. right; right; right. exists l, P, c.
    split; [exact Hl|]. split; [exact HP|]. split; [exact (nth_error_In _ _ Hi)|]. auto. }
  destruct (proj2 (object_tree_ctrl app P) (in_app_nodes app l P Hl HP)) as (pp & HpairP).
  destruct fuel as [|[|fuel]]; try lia.
  unfold dispatch_event. cbn [target press Event_init]. rewrite Hf.
  eapply eq_trans.
  { exact (dispatch_step now app (press k (CtrlRef (addr_of c)))
             (Some (CtrlRef (addr_of P))) (CtrlObj c) app ev1 (S fuel)
             Hwf Hpair eq_refl Hc). }
  rewrite (get_parent_of app _ _ Hwf Hpair). cbn [ref_of].
  pose proof (focus_move_spec app l P back (set_last ev1 (CtrlRef (addr_of c))) i c
                Hwf Hl HP Hi Hp1 eq_refl) as Hmove.
  rewrite <- HPev in Hmove.
  replace (S (S fuel) - 2)%nat with fuel by lia.
  destruct (find can_focus (flat_map nodes (siblings_after back (children P) i))) as [x|].
  - eapply eq_trans.
    { exact (dispatch_step now app (set_last ev1 (CtrlRef (addr_of c))) pp (CtrlObj P)
               _ _ fuel Hwf HpairP Hp1 Hmove). }
    apply loop_stopped. reflexivity.
  - exact (dispatch_step now app (set_last ev1 (CtrlRef (addr_of c))) pp (CtrlObj P)
             _ _ fuel Hwf HpairP Hp1 Hmove).
Qed.

End FocusMoveFacts.

Section FocusKeys.
Variable now : datetime.t.

Ltac split_ignores H :=
  repeat match type of H with
    | _ && _ = true => let H1 := fresh "Hi" in
                       apply andb_prop in H; destruct H as [H1 H]; split_ignores H1
    | negb _ = true => apply negb_true_iff in H
    | _ || _ = false => let H1 := fresh "Hi" in
                        apply orb_false_elim in H; destruct H as [H1 H]; split_ignores H1
    end.

Ltac skip_tests :=
  repeat match goal with
    | H : ?b = false |- context [?b] =>
        rewrite H;
        cbn [andb orb key what type propagating fst snd is_code code_in existsb
             press Event_init]
    end.

(** A control that has no use for a key changes nothing on it and lets
    the event go on. *)
Lemma key_ignored app c k tgt :
  wf app -> In c (app_nodes app) -> ignores c k = true ->
  on_event now app (CtrlObj c) (press k tgt) = Some (app, press k tgt).
Proof.
  intros Hwf Hc Hk. destruct c; cbn [ignores existsb] in Hk; try discriminate;
    cbn [on_event]; split_ignores Hk.
  - reflexivity.
  - unfold SelectList.on_event, SelectList.on_down, SelectList.on_up.
    cbn [type press Event_init EventType_eqb key is_code]. skip_tests.
    rewrite (store_same app _ Hwf Hc). reflexivity.
  - unfold SelectDate.on_event, SelectDate.then_, SelectDate.on_what.
    cbn [type press Event_init EventType_eqb what is_code]. cbv zeta. skip_tests.
    cbn [bind fst snd]. rewrite (store_same app _ Hwf Hc). reflexivity.
  - unfold Combo_on_event, is_enter.
    cbn [type press Event_init EventType_eqb key code_in is_code existsb andb].
    skip_tests. reflexivity.
  - unfold DateCombo_on_event, is_enter.
    cbn [type press Event_init EventType_eqb key code_in is_code existsb andb].
    skip_tests. reflexivity.
  - unfold Edit.on_event, Edit.on_printable, Edit.on_enter, Edit.on_right, Edit.on_left,
      Edit.on_delete, Edit.on_backspace, Edit.on_ctrl_e, Edit.on_ctrl_a, is_enter.
    cbn [type press Event_init EventType_eqb key code_in is_code existsb].
    skip_tests.
    cbn [bind fst snd]. rewrite (store_same app _ Hwf Hc). reflexivity.
Qed.

Lemma Panel_turn app a cs ev k back :
  key ev = Some k -> Panel_direction k = Some back ->
  on_event now app (CtrlObj (Panel a cs)) ev = focus_move app a cs back ev.
Proof.
  intros Hk. cbn [on_event]. unfold Panel_on_event, Panel_direction, code_in.
  rewrite Hk. cbn [existsb is_code].
  destruct (k =? curses.KEY_UP), (k =? curses.KEY_DOWN), (k =? curses.ascii.TAB),
    (k =? SHIFT_TAB); cbn [orb]; intros E; inversion E; reflexivity.
Qed.

Lemma Composite_turn app a cs m ev k back :
  type ev = key_event -> key ev = Some k -> Composite_direction k = Some back ->
  on_event now app (CtrlObj (Composite a cs m)) ev = focus_move app a cs back ev.
Proof.
  intros Ht Hk. cbn [on_event]. unfold Composite_on_event, Composite_direction, code_in.
  rewrite Ht, Hk. cbn [EventType_eqb existsb is_code].
  destruct (k =? curses.KEY_LEFT), (k =? curses.KEY_RIGHT), (k =? curses.ascii.TAB),
    (k =? SHIFT_TAB); cbn [orb]; intros E; inversion E; reflexivity.
Qed.

Lemma active_layer_focus_on app l a :
  App.active_layer app = Some l ->
  App.active_layer (focus_on app (lid l) a) = Some (mkLayer (lid l) (root l) a).
Proof.
  intros Hact. pose proof (last_item_split _ _ Hact) as E.
  unfold App.active_layer, last_item, focus_on. cbn [layers].
  rewrite E, map_app, rev_app_distr. cbn [map rev Datatypes.app]. rewrite Z.eqb_refl.
  reflexivity.
Qed.

Lemma keystroke_of_dispatch fuel app l k r :
  App.active_layer app = Some l ->
  dispatch_event fuel now app (press k (CtrlRef (focused l))) = Some r ->
  keystroke fuel now app k = Some (fst r).
Proof. intros Hact Hd. unfold keystroke. rewrite Hact. cbn [bind]. rewrite Hd. reflexivity. Qed.

(** A key the focused control has no use for, in a Panel that holds the
    control: Down and Tab give the focus to the first control that can take
    it among the controls after it in the Panel and what lies below them,
    in document order; Up and Shift-Tab to the first one that can take it
    in the nearest control before it that holds one.  The event is stopped
    there, and nothing else changes. *)
Theorem Panel_keys_move_the_focus :
  forall (app : App) (l : Layer) (a : addr) (cs : list Control) (i : nat)
         (c x : Control) (k : Z) (back : bool) (fuel : nat),
    wf app -> App.active_layer app = Some l ->
    In (Panel a cs) (nodes (root l)) -> nth_error cs i = Some c ->
    focused l = addr_of c -> ignores c k = true ->
    Panel_direction k = Some back ->
    find can_focus (flat_map nodes (siblings_after back cs i)) = Some x ->
    (2 <= fuel)%nat ->
    keystroke fuel now app k = Some (focus_on app (lid l) (addr_of x)) /\
    App.active_layer (focus_on app (lid l) (addr_of x))
    = Some (mkLayer (lid l) (root l) (addr_of x)) /\
    can_focus x = true.
Proof.
  intros app l a cs i c x k back fuel Hwf Hact HP Hi Hf Hk Hdir Hx Hfuel.
  pose proof (last_item_in _ _ Hact) as Hl.
  assert (Hc : In c (app_nodes app)).
  { apply (in_app_nodes app l c Hl).
    apply (nodes_trans _ c (Panel a cs)); [|exact HP].
    apply (nodes_child (Panel a cs) c c); [exact (nth_error_In _ _ Hi)|apply nodes_self]. }
  split; [|split; [exact (active_layer_focus_on app l _ Hact)|
                   exact (proj2 (find_some _ _ Hx))]].
  pose proof (keystroke_through_container now app l (Panel a cs) i c k
                (press k (CtrlRef (addr_of c))) back Hwf Hact HP Hi Hf
                (key_ignored app c k _ Hwf Hc Hk) eq_refl
                (Panel_turn app a cs
                   (set_last (press k (CtrlRef (addr_of c))) (CtrlRef (addr_of c)))
                   k back eq_refl Hdir) fuel Hfuel) as Hd.
  cbn [children] in Hd. rewrite Hx in Hd.
  exact (keystroke_of_dispatch fuel app l k _ Hact Hd).
Qed.

Lemma Edit_enter_turn app e s enter tgt :
  wf app -> In (Edit e s) (app_nodes app) ->
  enter = ALT_ENTER \/ enter = curses.KEY_ENTER ->
  on_event now app (CtrlObj (Edit e s)) (press enter tgt)
  = Some (app, set_key (press enter tgt) curses.ascii.TAB).
Proof.
  intros Hwf Hc He. cbn [on_event].
  assert (E : Edit.on_event s (press enter tgt)
              = Some (s, set_key (press enter tgt) curses.ascii.TAB))
    by (destruct He as [-> | ->]; reflexivity).
  rewrite E. cbn [bind fst snd]. rewrite (store_same app _ Hwf Hc). reflexivity.
Qed.

(** Enter in an Edit changes nothing in the Edit and goes on as a Tab: in
    a Panel the focus moves to the first control that can take it after
    the Edit. *)
Theorem Enter_in_an_Edit_moves_to_the_next_control :
  forall (app : App) (l : Layer) (a : addr) (cs : list Control) (i : nat)
         (e : addr) (s : Edit.t) (x : Control) (enter : Z) (fuel : nat),
    wf app -> App.active_layer app = Some l ->
    In (Panel a cs) (nodes (root l)) -> nth_error cs i = Some (Edit e s) ->
    focused l = e ->
    enter = ALT_ENTER \/ enter = curses.KEY_ENTER ->
    find can_focus (flat_map nodes (skipn (S i) cs)) = Some x ->
    (2 <= fuel)%nat ->
    keystroke fuel now app enter = Some (focus_on app (lid l) (addr_of x)) /\
    map root (layers (focus_on app (lid l) (addr_of x))) = map root (layers app).
Proof.
  intros app l a cs i e s x enter fuel Hwf Hact HP Hi Hf He Hx Hfuel.
  pose proof (last_item_in _ _ Hact) as Hl.
  assert (Hc : In (Edit e s) (app_nodes app)).
  { apply (in_app_nodes app l _ Hl).
    apply (nodes_trans _ (Edit e s) (Panel a cs)); [|exact HP].
    apply (nodes_child (Panel a cs) (Edit e s) (Edit e s));
      [exact (nth_error_In _ _ Hi)|apply nodes_self]. }
  split.
  - pose proof (keystroke_through_container now app l (Panel a cs) i (Edit e s) enter
                  (set_key (press enter (CtrlRef e)) curses.ascii.TAB) false
                  Hwf Hact HP Hi Hf
                  (Edit_enter_turn app e s enter _ Hwf Hc He) eq_refl
                  (Panel_turn app a cs
                     (set_last (set_key (press enter (CtrlRef e)) curses.ascii.TAB)
                               (CtrlRef e))
                     curses.ascii.TAB false eq_refl eq_refl) fuel Hfuel) as Hd.
    cbn [children siblings_after] in Hd. rewrite Hx in Hd.
    exact (keystroke_of_dispatch fuel app l enter _ Hact Hd).
  - unfold focus_on. cbn [layers]. rewrite map_map. apply map_ext. intros z.
    destruct (lid z =? lid l); reflexivity.
Qed.





(** A key the focused control has no use for, in a Composite that holds
    the control: Right and Tab give the focus to the first control that can
    take it among the controls after it in the Composite, Left and
    Shift-Tab to the nearest one before it.  So Left at the start of an
    Edit and Right at its end leave the Edit. *)
Theorem Composite_keys_move_the_focus :
  forall (app : App) (l : Layer) (a : addr) (cs : list Control) (m : Z) (i : nat)
         (c x : Control) (k : Z) (back : bool) (fuel : nat),
    wf app -> App.active_layer app = Some l ->
    In (Composite a cs m) (nodes (root l)) -> nth_error cs i = Some c ->
    focused l = addr_of c -> ignores c k = true ->
    Composite_direction k = Some back ->
    find can_focus (flat_map nodes (siblings_after back cs i)) = Some x ->
    (2 <= fuel)%nat ->
    keystroke fuel now app k = Some (focus_on app (lid l) (addr_of x)) /\
    App.active_layer (focus_on app (lid l) (addr_of x))
    = Some (mkLayer (lid l) (root l) (addr_of x)) /\
    can_focus x = true.
Proof.
  intros app l a cs m i c x k back fuel Hwf Hact HP Hi Hf Hk Hdir Hx Hfuel.
  pose proof (last_item_in _ _ Hact) as Hl.
  assert (Hc : In c (app_nodes app)).
  { apply (in_app_nodes app l c Hl).
    apply (nodes_trans _ c (Composite a cs m)); [|exact HP].
    apply (nodes_child (Composite a cs m) c c);
      [exact (nth_error_In _ _ Hi)|apply nodes_self]. }
  split; [|split; [exact (active_layer_focus_on app l _ Hact)|
                   exact (proj2 (find_some _ _ Hx))]].
  pose proof (keystroke_through_container now app l (Composite a cs m) i c k
                (press k (CtrlRef (addr_of c))) back Hwf Hact HP Hi Hf
                (key_ignored app c k _ Hwf Hc Hk) eq_refl
                (Composite_turn app a cs m
                   (set_last (press k (CtrlRef (addr_of c))) (CtrlRef (addr_of c)))
                   k back eq_refl eq_refl Hdir) fuel Hfuel) as Hd.
  cbn [children] in Hd. rewrite Hx in Hd.
  exact (keystroke_of_dispatch fuel app l k _ Hact Hd).
Qed.

End FocusKeys.

Lemma Panel_keys_move_the_focus_witness :
  let root := Panel 1 [Edit 2 (Edit.init (lit "a")); Text 3 (lit "t");
                       Labeled 4 (lit "n") (Edit 5 (Edit.init (lit "b")))] in
  let app := App.init root 10 in
  keystroke 2 (SelectDate.date 2024 1 15) app curses.ascii.TAB = Some (focus_on app 10 5) /\
  App.active_layer (focus_on app 10 5) = Some (mkLayer 10 root 5).
Proof.
  cbv zeta.
  destruct (Panel_keys_move_the_focus (SelectDate.date 2024 1 15)
              (App.init (Panel 1 [Edit 2 (Edit.init (lit "a")); Text 3 (lit "t");
                                  Labeled 4 (lit "n") (Edit 5 (Edit.init (lit "b")))]) 10)
              (Layer.init 10 (Panel 1 [Edit 2 (Edit.init (lit "a")); Text 3 (lit "t");
                                       Labeled 4 (lit "n") (Edit 5 (Edit.init (lit "b")))]))
              1 [Edit 2 (Edit.init (lit "a")); Text 3 (lit "t");
                 Labeled 4 (lit "n") (Edit 5 (Edit.init (lit "b")))]
              0%nat (Edit 2 (Edit.init (lit "a"))) (Edit 5 (Edit.init (lit "b")))
              curses.ascii.TAB false 2%nat) as (Hk & Hl & _).
  - apply init_wf.
    + simpl. repeat constructor; simpl; intuition discriminate.
    + simpl. intros c [<-|[<-|[<-|[<-|[<-|[]]]]]]; reflexivity.
  - reflexivity.
  - left; reflexivity.
  - reflexivity.
  - reflexivity.
  - reflexivity.
  - reflexivity.
  - reflexivity.
  - lia.
  - split; [exact Hk|exact Hl].
Defined.

Lemma Enter_in_an_Edit_moves_to_the_next_control_witness :
  let root := Panel 1 [Edit 2 (Edit.init (lit "a")); Text 3 (lit "t");
                       Labeled 4 (lit "n") (Edit 5 (Edit.init (lit "b")))] in
  let app := App.init root 10 in
  keystroke 2 (SelectDate.date 2024 1 15) app ALT_ENTER = Some (focus_on app 10 5).
Proof.
  cbv zeta.
  apply (Enter_in_an_Edit_moves_to_the_next_control (SelectDate.date 2024 1 15)
           (App.init (Panel 1 [Edit 2 (Edit.init (lit "a")); Text 3 (lit "t");
                               Labeled 4 (lit "n") (Edit 5 (Edit.init (lit "b")))]) 10)
           (Layer.init 10 (Panel 1 [Edit 2 (Edit.init (lit "a")); Text 3 (lit "t");
                                    Labeled 4 (lit "n") (Edit 5 (Edit.init (lit "b")))]))
           1 [Edit 2 (Edit.init (lit "a")); Text 3 (lit "t");
              Labeled 4 (lit "n") (Edit 5 (Edit.init (lit "b")))]
           0%nat 2 (Edit.init (lit "a")) (Edit 5 (Edit.init (lit "b")))
           ALT_ENTER 2%nat).
  - apply init_wf.
    + simpl. repeat constructor; simpl; intuition discriminate.
    + simpl. intros c [<-|[<-|[<-|[<-|[<-|[]]]]]]; reflexivity.
  - reflexivity.
  - left; reflexivity.
  - reflexivity.
  - reflexivity.
  - left; reflexivity.
  - reflexivity.
  - lia.
Defined.


Lemma Composite_keys_move_the_focus_witness :
  let root := Composite 1 [Edit 2 (Edit.init (lit "ab")); Edit 3 (Edit.init (lit "c"))] 1 in
  let app := App.init root 10 in
  keystroke 2 (SelectDate.date 2024 1 15) app curses.KEY_RIGHT = Some (focus_on app 10 3).
Proof.
  cbv zeta.
  apply (Composite_keys_move_the_focus (SelectDate.date 2024 1 15)
           (App.init (Composite 1 [Edit 2 (Edit.init (lit "ab"));
                                   Edit 3 (Edit.init (lit "c"))] 1) 10)
           (Layer.init 10 (Composite 1 [Edit 2 (Edit.init (lit "ab"));
                                        Edit 3 (Edit.init (lit "c"))] 1))
           1 [Edit 2 (Edit.init (lit "ab")); Edit 3 (Edit.init (lit "c"))] 1
           0%nat (Edit 2 (Edit.init (lit "ab"))) (Edit 3 (Edit.init (lit "c")))
           curses.KEY_RIGHT false 2%nat).
  - apply init_wf.
    + simpl. repeat constructor; simpl; intuition discriminate.
    + simpl. intros c [<-|[<-|[<-|[]]]]; reflexivity.
  - reflexivity.
  - left; reflexivity.
  - reflexivity.
  - reflexivity.
  - reflexivity.
  - reflexivity.
  - reflexivity.
  - lia.
Defined.

(** ** The colour pairs *)

Module ColorsFacts.
Import Colors.




Section Accepts.
Variable accepts : Z -> Z -> Z -> bool.





End Accepts.


End ColorsFacts.

(** ** Edit: typing and moving the cursor *)

Module EditKeysFacts.
Import Edit.

Lemma slice_to_prefix {A} (pre post : list A) : slice_to (pre ++ post) (len pre) = pre.
Proof.
  pose proof (len_nonneg pre). pose proof (len_nonneg post).
  rewrite slice_to_firstn by (rewrite len_app; lia).
  unfold len. rewrite Nat2Z.id. rewrite firstn_app, Nat.sub_diag, firstn_all.
  cbn [firstn]. apply app_nil_r.
Qed.

Lemma slice_from_prefix {A} (pre post : list A) : slice_from (pre ++ post) (len pre) = post.
Proof.
  pose proof (len_nonneg pre).
  rewrite slice_from_skipn by lia.
  unfold len. rewrite Nat2Z.id. rewrite skipn_app, Nat.sub_diag, skipn_all.
  reflexivity.
Qed.

Ltac no_test :=
  repeat match goal with
    | |- context [?k =? ?c] =>
        let E := fresh "E" in
        assert (E : (k =? c) = false)
          by (apply Z.eqb_neq;
              unfold CTRL_A, CTRL_E, ALT_BS, ALT_ENTER, curses.KEY_BACKSPACE,
                curses.ascii.DEL, curses.KEY_LEFT, curses.KEY_RIGHT, curses.KEY_ENTER,
                curses.ascii.TAB; lia);
        rewrite E; clear E; cbn [andb orb key fst snd]
    end.

Lemma printable_skips_the_tests self k tgt :
  32 <= k < 127 ->
  on_enter (on_right (on_left (on_delete (on_backspace
    (on_ctrl_e (on_ctrl_a (self, press k tgt)))))))
  = (self, press k tgt).
Proof.
  intros Hk.
  unfold on_ctrl_a. cbn [key press Event_init is_code]. no_test.
  unfold on_ctrl_e. cbn [key press Event_init is_code]. no_test.
  unfold on_backspace. cbn [key press Event_init code_in is_code existsb]. no_test.
  unfold on_delete. cbn [key press Event_init is_code]. no_test.
  unfold on_left. cbn [key press Event_init is_code]. no_test.
  unfold on_right. cbn [key press Event_init is_code]. no_test.
  unfold on_enter, is_enter. cbn [key press Event_init code_in is_code existsb]. no_test.
  reflexivity.
Qed.

(** A printable key puts its character in front of the cursor. *)
Lemma on_event_printable pre post k tgt :
  32 <= k < 127 ->
  on_event (mk (pre ++ post) (len pre)) (press k tgt)
  = Some (mk ((pre ++ [chr k]) ++ post) (len (pre ++ [chr k])), stop (press k tgt)).
Proof.
  intros Hk. unfold on_event. cbn [type press Event_init EventType_eqb].
  change (Event_init key_event (Some k) tgt) with (press k tgt).
  rewrite (printable_skips_the_tests _ k tgt Hk).
  unfold on_printable. cbn [key press Event_init].
  replace ((32 <=? k) && (k <? 127)) with true
    by (symmetry; apply andb_true_intro; split; [apply Z.leb_le|apply Z.ltb_lt]; lia).
  cbn [value cursor]. rewrite slice_to_prefix, slice_from_prefix.
  rewrite len_app. change (len [chr k]) with 1. rewrite <- app_assoc. reflexivity.
Qed.

(** Typing printable characters (codes 32 to 126) into an Edit whose
    cursor is inside its value puts them in at the cursor, in the order
    typed, and leaves the cursor after the last one; each key is consumed.
    Typed into a new Edit they are appended to its value. *)
Theorem typing_inserts_at_the_cursor :
  forall (self : t) (ks : list Z) (tgt : ref),
    cursor_ok self -> Forall (fun k => 32 <= k < 127) ks ->
    run self (map (fun k => press k tgt) ks)
    = Some (mk (slice_to (value self) (cursor self) ++ map chr ks
                ++ slice_from (value self) (cursor self))
               (cursor self + len ks)) /\
    (forall k, 32 <= k < 127 ->
       exists self', on_event self (press k tgt) = Some (self', stop (press k tgt)) /\
                     len (value self') = len (value self) + 1) /\
    (forall v, run (init v) (map (fun k => press k tgt) ks)
               = Some (mk (v ++ map chr ks) (len v + len ks))).
Proof.
  assert (Hrun : forall ks tgt pre post,
             Forall (fun k => 32 <= k < 127) ks ->
             run (mk (pre ++ post) (len pre)) (map (fun k => press k tgt) ks)
             = Some (mk (pre ++ map chr ks ++ post) (len pre + len ks))).
  { induction ks as [|k ks IH]; intros tgt pre post Hks.
    - cbn [map run app]. change (len (@nil Z)) with 0. rewrite Z.add_0_r. reflexivity.
    - inversion Hks as [|? ? Hk Hrest]; subst. cbn [map run].
      rewrite (on_event_printable pre post k tgt Hk).
      rewrite (IH tgt (pre ++ [chr k]) post Hrest).
      rewrite len_app. change (len [chr k]) with 1. rewrite (len_cons k ks).
      rewrite <- app_assoc. cbn [app]. f_equal. f_equal. lia. }
  intros [v c] ks tgt Hc Hks. unfold cursor_ok in Hc. cbn [value cursor] in *.
  assert (Hsplit : v = slice_to v c ++ slice_from v c) by (symmetry; apply slice_to_from).
  assert (Hlen : len (slice_to v c) = c) by (rewrite len_slice_to by lia; lia).
  split; [|split].
  - pose proof (Hrun ks tgt (slice_to v c) (slice_from v c) Hks) as H.
    rewrite Hlen in H. rewrite <- Hsplit in H. exact H.
  - intros k Hk.
    pose proof (on_event_printable (slice_to v c) (slice_from v c) k tgt Hk) as H.
    rewrite len_app, Hlen in H. rewrite <- Hsplit in H.
    eexists. split; [exact H|].
    cbn [value]. rewrite !len_app. change (len [chr k]) with 1.
    pose proof (f_equal len Hsplit) as Hl. rewrite len_app in Hl. lia.
  - intros v0. unfold init.
    rewrite <- (app_nil_r v0) at 1.
    rewrite (Hrun ks tgt v0 [] Hks). rewrite app_nil_r. reflexivity.
Qed.

Lemma typing_inserts_at_the_cursor_witness :
  run (mk (lit "held") 3) (map (fun k => press k (CtrlRef 0)) [108; 111; 33])
  = Some (mk (lit "hello!d") 6).
Proof.
  destruct (typing_inserts_at_the_cursor (mk (lit "held") 3) [108; 111; 33] (CtrlRef 0))
    as (H & _).
  - unfold cursor_ok; cbn [value cursor]. change (len (lit "held")) with 4. lia.
  - repeat constructor; lia.
  - vm_compute in H. vm_compute. exact H.
Defined.

Ltac eval_tests :=
  repeat match goal with
    | |- context [Z.eqb ?a ?b] =>
        let r := eval vm_compute in (Z.eqb a b) in progress change (Z.eqb a b) with r
    | |- context [Z.leb ?a ?b] =>
        let r := eval vm_compute in (Z.leb a b) in progress change (Z.leb a b) with r
    end;
  cbn [andb orb].

Ltac one f :=
  unfold f, is_enter;
  cbn [key what type propagating press Event_init is_code code_in existsb stop set_key
       value cursor];
  eval_tests.

(** The keys that move the cursor.  Ctrl-A puts it at the start and
    Ctrl-E at the end.  Left moves it one back and Right one forward and
    consume the key; at the start Left, and at the end Right, change
    nothing and let the key go on to the parent.  None of them changes the
    value; and Left then Right, away from the start, leaves the Edit as it
    was. *)
Theorem cursor_keys_move_within_the_value :
  forall (self : t) (tgt : ref),
    on_event self (press CTRL_A tgt) = Some (mk (value self) 0, stop (press CTRL_A tgt)) /\
    on_event self (press CTRL_E tgt)
    = Some (mk (value self) (len (value self)), stop (press CTRL_E tgt)) /\
    (0 < cursor self ->
     on_event self (press curses.KEY_LEFT tgt)
     = Some (mk (value self) (cursor self - 1), stop (press curses.KEY_LEFT tgt))) /\
    (cursor self <= 0 ->
     on_event self (press curses.KEY_LEFT tgt) = Some (self, press curses.KEY_LEFT tgt)) /\
    (cursor self < len (value self) ->
     on_event self (press curses.KEY_RIGHT tgt)
     = Some (mk (value self) (cursor self + 1), stop (press curses.KEY_RIGHT tgt))) /\
    (len (value self) <= cursor self ->
     on_event self (press curses.KEY_RIGHT tgt) = Some (self, press curses.KEY_RIGHT tgt)) /\
    (0 < cursor self <= len (value self) ->
     run self [press curses.KEY_LEFT tgt; press curses.KEY_RIGHT tgt] = Some self).
Proof.
  intros [v c] tgt. cbn [value cursor].
  assert (HL : 0 < c ->
               on_event (mk v c) (press curses.KEY_LEFT tgt)
               = Some (mk v (c - 1), stop (press curses.KEY_LEFT tgt))).
  { intros Hc. unfold on_event. cbn [type press Event_init EventType_eqb].
    one on_ctrl_a. one on_ctrl_e. one on_backspace. one on_delete. one on_left.
    replace (c >? 0) with true by (symmetry; apply Z.gtb_lt; lia).
    one on_right. one on_enter. one on_printable. reflexivity. }
  assert (HR : forall c', c' < len v ->
               on_event (mk v c') (press curses.KEY_RIGHT tgt)
               = Some (mk v (c' + 1), stop (press curses.KEY_RIGHT tgt))).
  { intros c' Hc. unfold on_event. cbn [type press Event_init EventType_eqb].
    one on_ctrl_a. one on_ctrl_e. one on_backspace. one on_delete. one on_left.
    one on_right.
    replace (c' <? len v) with true by (symmetry; apply Z.ltb_lt; lia).
    one on_enter. one on_printable. reflexivity. }
  split; [|split; [|split; [exact HL|split; [|split; [apply HR|split]]]]].
  - unfold on_event. cbn [type press Event_init EventType_eqb].
    one on_ctrl_a. one on_ctrl_e. one on_backspace. one on_delete. one on_left.
    one on_right. one on_enter. one on_printable. reflexivity.
  - unfold on_event. cbn [type press Event_init EventType_eqb].
    one on_ctrl_a. one on_ctrl_e. one on_backspace. one on_delete. one on_left.
    one on_right. one on_enter. one on_printable. reflexivity.
  - intros Hc. unfold on_event. cbn [type press Event_init EventType_eqb].
    one on_ctrl_a. one on_ctrl_e. one on_backspace. one on_delete. one on_left.
    replace (c >? 0) with false by (symmetry; rewrite Z.gtb_ltb; apply Z.ltb_ge; lia).
    one on_right. one on_enter. one on_printable. reflexivity.
  - intros Hc. unfold on_event. cbn [type press Event_init EventType_eqb].
    one on_ctrl_a. one on_ctrl_e. one on_backspace. one on_delete. one on_left.
    one on_right.
    replace (c <? len v) with false by (symmetry; apply Z.ltb_ge; lia).
    one on_enter. one on_printable. reflexivity.
  - intros Hc. cbn [run]. rewrite (HL ltac:(lia)). rewrite (HR (c - 1) ltac:(lia)).
    f_equal. f_equal. lia.
Qed.

Lemma cursor_keys_move_within_the_value_witness :
  on_event (mk (lit "hello") 0) (press curses.KEY_LEFT (CtrlRef 0))
  = Some (mk (lit "hello") 0, press curses.KEY_LEFT (CtrlRef 0)) /\
  run (mk (lit "hello") 2) [press curses.KEY_LEFT (CtrlRef 0); press curses.KEY_RIGHT (CtrlRef 0)]
  = Some (mk (lit "hello") 2).
Proof.
  destruct (cursor_keys_move_within_the_value (mk (lit "hello") 0) (CtrlRef 0))
    as (_ & _ & _ & H0 & _).
  destruct (cursor_keys_move_within_the_value (mk (lit "hello") 2) (CtrlRef 0))
    as (_ & _ & _ & _ & _ & _ & H2).
  split.
  - apply H0. cbn [cursor]. lia.
  - apply H2. cbn [value cursor]. change (len (lit "hello")) with 5. lia.
Defined.

End EditKeysFacts.

(** ** Dates are determined by their ordinal: the arrow keys of a
    SelectDate undo one another *)

Module DateRoundTrip.
Import datetime.

Lemma year_length y :
  days_before_year (y + 1)
  = days_before_year y + (if is_leap y then 366 else 365).
Proof.
  unfold days_before_year, is_leap; cbv zeta.
  replace (y + 1 - 1) with y by lia.
  destruct (Z.eqb_spec (y mod 4) 0) as [H4|H4];
    destruct (Z.eqb_spec (y mod 100) 0) as [H100|H100];
    destruct (Z.eqb_spec (y mod 400) 0) as [H400|H400];
    cbn [andb orb negb];
    Z.to_euclidean_division_equations; lia.
Qed.

Lemma days_before_year_mono y y' :
  y <= y' -> days_before_year y <= days_before_year y'.
Proof.
  intros H.
  replace y' with (y + Z.of_nat (Z.to_nat (y' - y))) by lia.
  induction (Z.to_nat (y' - y)) as [|n IH].
  - rewrite Z.add_0_r. lia.
  - rewrite Nat2Z.inj_succ.
    replace (y + Z.succ (Z.of_nat n)) with (y + Z.of_nat n + 1) by lia.
    rewrite year_length. destruct (is_leap _); lia.
Qed.

Lemma month_cases m :
  1 <= m <= 12 ->
  m = 1 \/ m = 2 \/ m = 3 \/ m = 4 \/ m = 5 \/ m = 6 \/
  m = 7 \/ m = 8 \/ m = 9 \/ m = 10 \/ m = 11 \/ m = 12.
Proof. lia. Qed.

Ltac month_split H :=
  destruct (month_cases _ H) as
    [->|[->|[->|[->|[->|[->|[->|[->|[->|[->|[->| ->]]]]]]]]]]].

Lemma day_of_year_range y m d :
  1 <= m <= 12 -> 1 <= d <= days_in_month y m ->
  1 <= days_before_month y m + d <= (if is_leap y then 366 else 365).
Proof.
  intros Hm. unfold days_in_month, days_before_month.
  month_split Hm; destruct (is_leap y); cbv - [Z.add Z.le]; lia.
Qed.

Lemma day_of_year_inj y m d m' d' :
  1 <= m <= 12 -> 1 <= d <= days_in_month y m ->
  1 <= m' <= 12 -> 1 <= d' <= days_in_month y m' ->
  days_before_month y m + d = days_before_month y m' + d' ->
  m = m' /\ d = d'.
Proof.
  intros Hm Hd Hm' Hd'. revert Hd Hd'.
  unfold days_in_month, days_before_month.
  destruct (is_leap y);
    month_split Hm; month_split Hm'; cbv - [Z.add Z.le]; lia.
Qed.

Lemma ymd2ord_inj y m d y' m' d' :
  1 <= m <= 12 -> 1 <= d <= days_in_month y m ->
  1 <= m' <= 12 -> 1 <= d' <= days_in_month y' m' ->
  ymd2ord y m d = ymd2ord y' m' d' ->
  y = y' /\ m = m' /\ d = d'.
Proof.
  intros Hm Hd Hm' Hd'. unfold ymd2ord. intros E.
  pose proof (day_of_year_range y m d Hm Hd) as R.
  pose proof (day_of_year_range y' m' d' Hm' Hd') as R'.
  pose proof (year_length y) as L. pose proof (year_length y') as L'.
  assert (Hy : y = y').
  { destruct (Z.lt_trichotomy y y') as [Hlt|[Heq|Hgt]]; [|exact Heq|].
    - pose proof (days_before_year_mono (y + 1) y' ltac:(lia)). lia.
    - pose proof (days_before_year_mono (y' + 1) y ltac:(lia)). lia. }
  subst y'. split; [reflexivity|].
  apply (day_of_year_inj y); try assumption. lia.
Qed.

(** A valid datetime is determined by its ordinal and its time of day. *)
Lemma valid_determined (v v' : t) :
  valid v -> valid v' -> toordinal v = toordinal v' ->
  hour v = hour v' -> minute v = minute v' -> second v = second v' ->
  microsecond v = microsecond v' -> v = v'.
Proof.
  intros (_ & Hm & Hd & _) (_ & Hm' & Hd' & _) E.
  destruct (ymd2ord_inj _ _ _ _ _ _ Hm Hd Hm' Hd' E) as (Ey & Em & Ed).
  destruct v, v'; simpl in *. intros; subst; reflexivity.
Qed.

End DateRoundTrip.

Module SelectDateRoundTrip.
Import SelectDate.

Local Abbreviation arrows :=
  [(curses.KEY_LEFT, -1); (curses.KEY_RIGHT, 1);
   (curses.KEY_UP, -7); (curses.KEY_DOWN, 7)].

(** On a SelectDate holding a valid date, two arrow keys in a row move
    the value by the sum of their day counts, as long as both dates are in
    the range of [datetime]; the date reached is the only valid one with
    that ordinal and the time of day of the start, so keys whose day
    counts cancel (Right then Left, Down then Up, and the reverse) give
    back exactly the value the widget had. *)
Theorem SelectDate_arrow_keys_add_up now self tgt ca a cb b :
  datetime.valid (value self) ->
  In (ca, a) arrows -> In (cb, b) arrows ->
  1 <= datetime.toordinal (value self) + a <= datetime.MAXORDINAL ->
  1 <= datetime.toordinal (value self) + a + b <= datetime.MAXORDINAL ->
  exists s1 s2,
    on_event now self (press ca tgt) = Some (s1, stop (press ca tgt)) /\
    on_event now s1 (press cb tgt) = Some (s2, stop (press cb tgt)) /\
    datetime.valid (value s2) /\
    datetime.toordinal (value s2) = datetime.toordinal (value self) + a + b /\
    (forall v, datetime.valid v ->
               datetime.toordinal v = datetime.toordinal (value s2) ->
               datetime.hour v = datetime.hour (value self) ->
               datetime.minute v = datetime.minute (value self) ->
               datetime.second v = datetime.second (value self) ->
               datetime.microsecond v = datetime.microsecond (value self) ->
               v = value s2) /\
    (a + b = 0 -> s2 = self).
Proof.
  intros Hv Ha Hb Ra Rb.
  rewrite (SelectDateFacts.on_event_arrow now self (press ca tgt) ca a
             eq_refl eq_refl Ha).
  destruct (datetimeFacts.add_days (value self) a Hv) as [Hin _].
  destruct (Hin Ra) as (v1 & -> & Ho1 & Hv1 & Hh1 & Hm1 & Hs1 & Hu1).
  exists (mk v1).
  rewrite (SelectDateFacts.on_event_arrow now (mk v1) (press cb tgt) cb b
             eq_refl eq_refl Hb).
  cbn [value].
  destruct (datetimeFacts.add_days v1 b Hv1) as [Hin2 _].
  cbv zeta in Hin2. rewrite Ho1 in Hin2.
  destruct (Hin2 Rb) as (v2 & -> & Ho2 & Hv2 & Hh2 & Hm2 & Hs2 & Hu2).
  exists (mk v2). cbn [value].
  split; [reflexivity|]. split; [reflexivity|].
  split; [exact Hv2|]. split; [exact Ho2|]. split.
  - intros v Hvv Ho Hh Hm Hs Hu.
    apply DateRoundTrip.valid_determined; try assumption; congruence.
  - intros E0. destruct self as [v0]. cbn [value] in *. f_equal.
    apply DateRoundTrip.valid_determined; try assumption; try congruence. lia.
Qed.

Lemma SelectDate_arrow_keys_add_up_witness :
  exists s1 s2,
    on_event (date 2024 1 15) (mk (date 2024 2 29))
             (press curses.KEY_RIGHT (CtrlRef 0))
    = Some (s1, stop (press curses.KEY_RIGHT (CtrlRef 0))) /\
    on_event (date 2024 1 15) s1 (press curses.KEY_LEFT (CtrlRef 0))
    = Some (s2, stop (press curses.KEY_LEFT (CtrlRef 0))) /\
    s1 = mk (date 2024 3 1) /\ s2 = mk (date 2024 2 29).
Proof.
  destruct (SelectDate_arrow_keys_add_up (date 2024 1 15) (mk (date 2024 2 29))
              (CtrlRef 0) curses.KEY_RIGHT 1 curses.KEY_LEFT (-1))
    as (s1 & s2 & E1 & E2 & _ & _ & _ & Hback).
  - unfold datetime.valid; vm_compute. repeat split; discriminate.
  - right; left; reflexivity.
  - left; reflexivity.
  - vm_compute. split; discriminate.
  - vm_compute. split; discriminate.
  - exists s1, s2. split; [exact E1|]. split; [exact E2|].
    split; [|apply Hback; reflexivity].
    vm_compute in E1. injection E1 as <-. reflexivity.
Defined.

End SelectDateRoundTrip.

(** ** Escape: the App exits unless a Popup closes its layer *)

Section EscapeAndPopups.
Variable now : datetime.t.

Lemma rises_climbs app Q top r n m :
  rises app Q top r n -> climbs app Q top m -> climbs app Q r (n + m).
Proof.
  intros Hr Hc. induction Hr as [|r p o n Hin Ho HQ Hr IH]; [exact Hc|].
  cbn [Nat.add]. exact (climbs_step app Q r p o (n + m) Hin Ho HQ IH).
Qed.

Lemma rises_snoc app Q c ch r n :
  rises app Q (CtrlRef (addr_of ch)) r n ->
  In (Some (CtrlRef (addr_of c)), CtrlObj ch) (object_tree app) ->
  Q (CtrlObj ch) ->
  rises app Q (CtrlRef (addr_of c)) r (S n).
Proof.
  intros Hr Hin HQ. induction Hr as [|r p o n Hin' Ho HQ' Hr IH].
  - apply (rises_step app Q _ _ (CtrlRef (addr_of c)) (CtrlObj ch) 0);
      [exact Hin|reflexivity|exact HQ|constructor].
  - exact (rises_step app Q _ r p o (S n) Hin' Ho HQ' IH).
Qed.

(** From a control up to a control above it, when the controls between
    the two that hold the first one satisfy [Q]. *)
Lemma nodes_rise app l (Q : obj -> Prop) a :
  In l (layers app) ->
  forall c,
    (forall y, In y (nodes c) -> In y (nodes (root l))) ->
    (forall ch y, In ch (children c) -> In y (nodes ch) ->
                  contains y a = true -> Q (CtrlObj y)) ->
    forall x, In x (nodes c) -> addr_of x = a ->
              exists n, rises app Q (CtrlRef (addr_of c)) (CtrlRef a) n.
Proof.
  intros Hl. induction c as [c IH] using Control_children_ind.
  intros Hsub HQ x Hx Ha. rewrite Forall_forall in IH.
  rewrite nodes_unfold in Hx. destruct Hx as [<-|Hx].
  - subst a. exists 0%nat. constructor.
  - apply in_flat_map in Hx. destruct Hx as (ch & Hch & Hx).
    destruct (IH ch Hch) with (x := x) as (n & Hn); [| |exact Hx|exact Ha|].
    + intros y Hy. apply Hsub. exact (nodes_child c ch y Hch Hy).
    + intros ch2 y Hch2 Hy Hc.
      exact (HQ ch y Hch (nodes_child ch ch2 y Hch2 Hy) Hc).
    + exists (S n). apply (rises_snoc app Q c ch); [exact Hn| |].
      * apply object_tree_in. right; right; right.
        exists l, c, ch. auto using nodes_self.
      * apply (HQ ch ch Hch (nodes_self ch)).
        apply contains_is_membership_in_the_tree_aux. exists x. auto.
Qed.

(** Bubbling up to an object: the loop of [dispatch_event] goes through
    the objects that do not react to the event. *)
Lemma dispatch_loop_rise app (Q : obj -> Prop) top ev r n :
  wf app ->
  (forall p o l, In (Some p, o) (object_tree app) -> Q o ->
                 on_event now app o (with_last ev l) = Some (app, with_last ev l)) ->
  propagating ev = true ->
  rises app Q top r n ->
  forall fuel l,
  exists l',
    dispatch_loop (n + fuel) now app (with_last ev l) (Some r)
    = dispatch_loop fuel now app (with_last ev l') (Some top).
Proof.
  intros Hwf Hnoop Hprop Hr.
  induction Hr as [|r p o n Hin Ho HQ Hr IH]; intros fuel l.
  - exists l. reflexivity.
  - cbn [Nat.add dispatch_loop].
    change (propagating (with_last ev l)) with (propagating ev). rewrite Hprop.
    subst r. unfold App.lookup, App.get_parent.
    rewrite (find_pair_of app (Some p) o Hwf Hin). cbn [bind].
    rewrite (Hnoop p o l Hin HQ). cbn [bind fst snd].
    rewrite (find_pair_of app (Some p) o Hwf Hin).
    apply (IH fuel (Some (ref_of o))).
Qed.

Lemma NoDup_app_apart {A} (l1 l2 : list A) x :
  NoDup (l1 ++ l2) -> In x l1 -> In x l2 -> False.
Proof.
  induction l1 as [|y l1 IH]; cbn [app]; intros Hnd H1 H2; [contradiction|].
  inversion Hnd as [|? ? Hny Hnd']; subst.
  destruct H1 as [->|H1]; [|exact (IH Hnd' H1 H2)].
  apply Hny. apply in_or_app. right; exact H2.
Qed.

(** A control of the active layer is no longer in the application once
    that layer is popped. *)
Lemma popped_absent app l c :
  wf app -> App.active_layer app = Some l -> In c (nodes (root l)) ->
  App.get_parent (mkApp (exit app) (removelast (layers app)) (next_addr app))
                 (CtrlRef (addr_of c)) = None.
Proof.
  intros (Hnd & _) Hact Hc. apply get_parent_absent. intros p o Hin E.
  destruct o as [|l0|c0]; try discriminate.
  assert (Hc0 : In c0 (app_nodes (mkApp (exit app) (removelast (layers app))
                                       (next_addr app))))
    by (apply object_tree_ctrl; eauto).
  cbn [ref_of] in E. inversion E as [Ea].
  unfold app_nodes in Hnd, Hc0. cbn [layers] in Hc0.
  rewrite (last_item_split _ _ Hact) in Hnd.
  rewrite flat_map_app, map_app in Hnd. cbn [flat_map] in Hnd.
  rewrite app_nil_r in Hnd.
  apply (NoDup_app_apart _ _ (addr_of c) Hnd).
  - rewrite <- Ea. apply in_map. exact Hc0.
  - apply in_map. exact Hc.
Qed.

(** Escape at a Popup of the active layer: [on_close(False, self)], then
    the layer is popped; the Popup has no parent any more and the loop
    ends there. *)
Lemma popup_escape app l a x y inner cb cap tgt lst fuel :
  wf app -> App.active_layer app = Some l ->
  In (Popup a x y inner cb cap) (nodes (root l)) ->
  exists ev',
    dispatch_loop (S fuel) now app (with_last (press curses.ascii.ESC tgt) lst)
                  (Some (CtrlRef a))
    = Some (mkApp (exit app) (removelast (layers app)) (next_addr app), ev') /\
    propagating ev' = true.
Proof.
  intros Hwf Hact HP.
  assert (Hl : In l (layers app)) by exact (last_item_in _ _ Hact).
  destruct (proj2 (object_tree_ctrl app (Popup a x y inner cb cap))
                  (in_app_nodes app l _ Hl HP)) as (p & Hin).
  cbn [dispatch_loop].
  change (propagating (with_last (press curses.ascii.ESC tgt) lst)) with true.
  cbv iota.
  change (CtrlRef a) with (ref_of (CtrlObj (Popup a x y inner cb cap))).
  rewrite (lookup_of app p _ Hwf Hin). cbn [bind on_event].
  unfold Popup_on_event.
  change (EventType_eqb (type (with_last (press curses.ascii.ESC tgt) lst)) key_event)
    with true.
  change (is_code (key (with_last (press curses.ascii.ESC tgt) lst)) curses.ascii.ESC)
    with true.
  change (is_enter (with_last (press curses.ascii.ESC tgt) lst)) with false.
  cbv iota.
  assert (Hcb : call_on_close app cb false inner = Some app)
    by (destruct cb; reflexivity).
  rewrite Hcb. cbn [bind].
  assert (Hpop : App.pop_layer app
                 = Some (mkApp (exit app) (removelast (layers app)) (next_addr app))).
  { unfold App.pop_layer. destruct (layers app); [contradiction|reflexivity]. }
  rewrite Hpop. cbn [bind fst snd].
  pose proof (popped_absent app l _ Hwf Hact HP) as Habs. cbn [addr_of] in Habs.
  cbn [ref_of addr_of]. rewrite Habs.
  eexists. split; [destruct fuel; reflexivity|reflexivity].
Qed.

(** No Popup is or holds the target: the event reaches the App. *)
Lemma escape_reaches_App app l x :
  wf app -> In l (layers app) -> In x (nodes (root l)) ->
  (forall q, In q (nodes (root l)) -> is_popup q = true ->
             contains q (addr_of x) = false) ->
  exists n, forall fuel, (n < fuel)%nat ->
    exists ev',
      dispatch_event fuel now app (press curses.ascii.ESC (CtrlRef (addr_of x)))
      = Some (mkApp true (layers app) (next_addr app), ev') /\
      propagating ev' = false.
Proof.
  intros Hwf Hl Hx Hnp.
  assert (HQ : forall y, In y (nodes (root l)) -> contains y (addr_of x) = true ->
                         not_popup (CtrlObj y)).
  { intros y Hy Hc c E. inversion E; subst c.
    destruct (is_popup y) eqn:Ep; [|reflexivity].
    rewrite (Hnp y Hy Ep) in Hc. discriminate. }
  destruct (nodes_rise app l not_popup (addr_of x) Hl (root l)) with (x := x)
    as (n & Hn); auto.
  { intros ch y Hch Hy. apply HQ. exact (nodes_child _ ch y Hch Hy). }
  assert (Hroot : climbs app not_popup (CtrlRef (addr_of (root l))) 2).
  { apply (climbs_step app not_popup _ (LayerRef (lid l)) (CtrlObj (root l)) 1); auto.
    - apply object_tree_in. right; right; left. eauto.
    - apply HQ; [apply nodes_self|].
      apply contains_is_membership_in_the_tree_aux. exists x. auto.
    - apply (climbs_step app not_popup _ AppRef (LayerObj l) 0); auto.
      + apply object_tree_in. right; left. eauto.
      + intros c E; discriminate.
      + constructor. }
  pose proof (rises_climbs _ _ _ _ _ _ Hn Hroot) as Hclimb.
  exists (n + 2)%nat. intros fuel Hfuel. unfold dispatch_event.
  destruct (dispatch_loop_climb now app not_popup
              (press curses.ascii.ESC (CtrlRef (addr_of x)))
              (CtrlRef (addr_of x)) (n + 2) Hwf) with (fuel := fuel) (l := @None ref)
    as (l' & Hd); auto.
  - intros p o l0 Hin Ho.
    exact (on_event_escape_noop now app (Some p) o _ l0 Hwf Hin
             (pair_not_app app p o Hin) Ho).
  - change (with_last (press curses.ascii.ESC (CtrlRef (addr_of x))) None)
      with (press curses.ascii.ESC (CtrlRef (addr_of x))) in Hd.
    cbn [target press Event_init]. cbn [target press Event_init] in Hd.
    rewrite Hd. rewrite App_on_event_escape by reflexivity.
    eexists. split; reflexivity.
Qed.

Lemma focused_in_tree l :
  layer_ok l -> exists x, In x (nodes (root l)) /\ addr_of x = focused l.
Proof.
  intros [E|(c & Hc & E & _)].
  - exists (root l). split; [apply nodes_self|symmetry; exact E].
  - exists c. auto.
Qed.

(** The Escape keystroke when no Popup is or holds the focused control. *)
Lemma escape_bubbles app l :
  wf app -> App.active_layer app = Some l -> layer_ok l ->
  (forall q, In q (nodes (root l)) -> is_popup q = true ->
             contains q (focused l) = false) ->
  exists n, forall fuel, (n < fuel)%nat ->
    keystroke fuel now app curses.ascii.ESC
    = Some (mkApp true (layers app) (next_addr app)).
Proof.
  intros Hwf Hact Hok Hnp.
  destruct (focused_in_tree l Hok) as (x & Hx & Ex).
  rewrite <- Ex in Hnp.
  destruct (escape_reaches_App app l x Hwf (last_item_in _ _ Hact) Hx Hnp) as (n & Hn).
  exists n. intros fuel Hfuel. unfold keystroke. rewrite Hact. cbn [bind].
  rewrite <- Ex. destruct (Hn fuel Hfuel) as (ev' & -> & _). reflexivity.
Qed.

(** The Escape keystroke when a Popup is or holds the focused control and
    no Popup below it does. *)
Lemma escape_closes app l a x y inner cb cap :
  wf app -> App.active_layer app = Some l ->
  In (Popup a x y inner cb cap) (nodes (root l)) ->
  contains (Popup a x y inner cb cap) (focused l) = true ->
  (forall q, In q (nodes inner) -> is_popup q = true ->
             contains q (focused l) = false) ->
  exists n, forall fuel, (n < fuel)%nat ->
    keystroke fuel now app curses.ascii.ESC
    = Some (mkApp (exit app) (removelast (layers app)) (next_addr app)).
Proof.
  intros Hwf Hact HP Hc Hnp.
  assert (Hl : In l (layers app)) by exact (last_item_in _ _ Hact).
  apply contains_is_membership_in_the_tree_aux in Hc. destruct Hc as (c & Hc & Ec).
  destruct (nodes_rise app l not_popup (focused l) Hl (Popup a x y inner cb cap))
    with (x := c) as (n & Hn); auto.
  { intros z Hz. exact (nodes_trans _ _ _ Hz HP). }
  { cbn [children]. intros ch z [<-|[]] Hz Hcz q E. inversion E; subst q.
    destruct (is_popup z) eqn:Ep; [|reflexivity].
    rewrite (Hnp z Hz Ep) in Hcz. discriminate. }
  exists n. intros fuel Hfuel. unfold keystroke. rewrite Hact. cbn [bind].
  unfold dispatch_event. cbn [target press Event_init].
  replace fuel with (n + S (fuel - S n))%nat by lia.
  destruct (dispatch_loop_rise app not_popup (CtrlRef a)
              (press curses.ascii.ESC (CtrlRef (focused l)))
              (CtrlRef (focused l)) n Hwf) with (fuel := S (fuel - S n)) (l := @None ref)
    as (l' & Hd); auto.
  - intros p o l0 Hin Ho.
    exact (on_event_escape_noop now app (Some p) o _ l0 Hwf Hin
             (pair_not_app app p o Hin) Ho).
  - change (with_last (press curses.ascii.ESC (CtrlRef (focused l))) None)
      with (press curses.ascii.ESC (CtrlRef (focused l))) in Hd.
    cbn [press Event_init] in Hd. rewrite Hd.
    destruct (popup_escape app l a x y inner cb cap (CtrlRef (focused l)) l'
                (fuel - S n) Hwf Hact HP) as (ev' & He & _).
    cbn [press Event_init] in He. rewrite He. reflexivity.
Qed.

End EscapeAndPopups.

Section EscapeClaim.
Variable now : datetime.t.

Lemma popup_holds_spec c a :
  popup_holds c a = true <->
  exists q, In q (nodes c) /\ is_popup q = true /\ contains q a = true.
Proof.
  unfold popup_holds. rewrite existsb_exists. split.
  - intros (q & Hq & E). apply andb_prop in E. exists q. tauto.
  - intros (q & Hq & E1 & E2). exists q. rewrite E1, E2. auto.
Qed.

(** When a Popup holds the control, an innermost one does. *)
Lemma innermost_popup a :
  forall c, popup_holds c a = true ->
  exists a0 x y inner cb cap,
    In (Popup a0 x y inner cb cap) (nodes c) /\
    contains (Popup a0 x y inner cb cap) a = true /\
    popup_holds inner a = false.
Proof.
  induction c as [c IH] using Control_children_ind. rewrite Forall_forall in IH.
  intros H.
  destruct (existsb (fun ch => popup_holds ch a) (children c)) eqn:E.
  - apply existsb_exists in E. destruct E as (ch & Hch & Hh).
    destruct (IH ch Hch Hh) as (a0 & x & y & inner & cb & cap & Hin & Hc & Hno).
    exists a0, x, y, inner, cb, cap.
    split; [exact (nodes_child c ch _ Hch Hin)|]. auto.
  - apply popup_holds_spec in H. destruct H as (q & Hq & Hp & Hc).
    rewrite nodes_unfold in Hq. destruct Hq as [<-|Hq].
    + destruct c as [| | | | | |a0 x y inner cb cap| | |]; try discriminate.
      exists a0, x, y, inner, cb, cap.
      split; [apply nodes_self|]. split; [exact Hc|].
      cbn [children existsb] in E. rewrite orb_false_r in E. exact E.
    + apply in_flat_map in Hq. destruct Hq as (ch & Hch & Hq).
      assert (Hh : popup_holds ch a = true)
        by (apply popup_holds_spec; exists q; auto).
      assert (Ht : existsb (fun ch => popup_holds ch a) (children c) = true)
        by (apply existsb_exists; exists ch; auto).
      rewrite Ht in E. discriminate.
Qed.

Lemma escape_keystroke app l :
  wf app -> App.active_layer app = Some l -> layer_ok l ->
  exists n, forall fuel, (n < fuel)%nat ->
    keystroke fuel now app curses.ascii.ESC
    = Some (if popup_holds (root l) (focused l)
            then mkApp (exit app) (removelast (layers app)) (next_addr app)
            else mkApp true (layers app) (next_addr app)).
Proof.
  intros Hwf Hact Hok.
  destruct (popup_holds (root l) (focused l)) eqn:E.
  - destruct (innermost_popup _ _ E)
      as (a0 & x & y & inner & cb & cap & Hin & Hc & Hno).
    apply (escape_closes now app l a0 x y inner cb cap Hwf Hact Hin Hc).
    intros q Hq Hp. destruct (contains q (focused l)) eqn:Ec; [|reflexivity].
    assert (Hh : popup_holds inner (focused l) = true)
      by (apply popup_holds_spec; exists q; auto).
    rewrite Hh in Hno. discriminate.
  - apply (escape_bubbles now app l Hwf Hact Hok).
    intros q Hq Hp. destruct (contains q (focused l)) eqn:Ec; [|reflexivity].
    assert (Hh : popup_holds (root l) (focused l) = true)
      by (apply popup_holds_spec; exists q; auto).
    rewrite Hh in E. discriminate.
Qed.

(** C2 (amended): an Escape key event that reaches the App makes
    [App.on_event] set [exit] to true and stop the event, whether the
    active layer is the only layer or a Popup layer is on top, and no
    layer is closed; Escape dispatched from a control that no Popup is or
    holds always reaches the App, whatever the stack of layers.  A layer
    is closed on Escape only by the handler of a Popup, which runs before
    the event could reach the App: in an application whose objects sit at
    one place each and whose focus is in the tree of the active layer,
    the Escape keystroke closes the top layer and leaves [exit] and
    everything else as it was when a Popup of the active layer is or holds
    the focused control, and otherwise sets [exit] to true and keeps every
    layer.  In particular Escape on [App(root)] gives [exit = true] unless
    a Popup is or holds the focused control. *)
Theorem App_escape_exits_unless_a_Popup_closes :
  (forall app ev,
      key ev = Some curses.ascii.ESC ->
      App_on_event app ev = Some (mkApp true (layers app) (next_addr app), stop ev)) /\
  (forall app l x,
      wf app -> In l (layers app) -> In x (nodes (root l)) ->
      popup_holds (root l) (addr_of x) = false ->
      exists n, forall fuel, (n < fuel)%nat ->
        exists ev',
          dispatch_event fuel now app (press curses.ascii.ESC (CtrlRef (addr_of x)))
          = Some (mkApp true (layers app) (next_addr app), ev') /\
          propagating ev' = false) /\
  (forall app l,
      wf app -> App.active_layer app = Some l -> layer_ok l ->
      exists n, forall fuel, (n < fuel)%nat ->
        keystroke fuel now app curses.ascii.ESC
        = Some (if popup_holds (root l) (focused l)
                then mkApp (exit app) (removelast (layers app)) (next_addr app)
                else mkApp true (layers app) (next_addr app))) /\
  (forall root fresh,
      NoDup (map addr_of (nodes root)) ->
      (forall c, In c (nodes root) -> addr_of c < fresh) ->
      popup_holds root (focused (Layer.init fresh root)) = false ->
      exists n, forall fuel, (n < fuel)%nat ->
        exists app',
          keystroke fuel now (App.init root fresh) curses.ascii.ESC = Some app' /\
          exit app' = true /\ layers app' = layers (App.init root fresh)).
Proof.
  split; [exact (App_on_event_escape)|]. split; [|split; [exact escape_keystroke|]].
  - intros app l x Hwf Hl Hx Hno.
    apply (escape_reaches_App now app l x Hwf Hl Hx).
    intros q Hq Hp. destruct (contains q (addr_of x)) eqn:Ec; [|reflexivity].
    assert (Hh : popup_holds (root l) (addr_of x) = true)
      by (apply popup_holds_spec; exists q; auto).
    rewrite Hh in Hno. discriminate.
  - intros root fresh Hnd Hlt Hno.
    destruct (escape_keystroke (App.init root fresh) (Layer.init fresh root))
      as (n & Hn).
    + apply init_wf; assumption.
    + reflexivity.
    + apply init_ok.
    + rewrite (proj2 (init_keeps fresh root)), Hno in Hn.
      exists n. intros fuel Hfuel. eexists. split; [exact (Hn fuel Hfuel)|].
      split; reflexivity.
Qed.

End EscapeClaim.

(** C2 (as stated, with a Popup layer on top): Enter on a Combo opens its
    Popup in a second layer.  An Escape key event dispatched there to the
    Combo, or to the layer of the Popup, is consumed by no widget and
    reaches the App, which sets [exit] and closes no layer: the two layers
    stay, where the claim has the top layer closed and no exit.  (The
    Escape keystroke of the run loop goes to the focused control inside
    the Popup, whose handler closes the layer before the App sees the
    event.) *)
Lemma App_escape_exits_with_Popup_layer_on_top :
  let now := SelectDate.date 2024 1 15 in
  let combo := Combo 1 (Combo.mk [lit "a"; lit "b"] 0 (Some (mkRect 5 3 10 1))) in
  let popup := Popup 12 3 2 (SelectList 11 (SelectList.init_default [lit "a"; lit "b"] 0))
                     (Combo_cb 1) [] in
  let app := mkApp false [mkLayer 10 combo 1; mkLayer 13 popup 11] 14 in
  keystroke 4 now (App.init combo 10) ALT_ENTER = Some app /\
  option_map fst (dispatch_event 4 now app (press curses.ascii.ESC (CtrlRef 1)))
  = Some (mkApp true (layers app) 14) /\
  option_map fst (dispatch_event 4 now app (press curses.ascii.ESC (LayerRef 13)))
  = Some (mkApp true (layers app) 14) /\
  keystroke 4 now app curses.ascii.ESC = Some (mkApp false [mkLayer 10 combo 1] 14).
Proof. cbv zeta. repeat split. Qed.

Lemma App_escape_exits_unless_a_Popup_closes_witness :
  let now := SelectDate.date 2024 1 15 in
  let combo := Combo 1 (Combo.mk [lit "a"; lit "b"] 0 (Some (mkRect 5 3 10 1))) in
  let popup := Popup 12 3 2 (SelectList 11 (SelectList.init_default [lit "a"; lit "b"] 0))
                     (Combo_cb 1) [] in
  let app := mkApp false [mkLayer 10 combo 1; mkLayer 13 popup 11] 14 in
  (exists n, forall fuel, (n < fuel)%nat ->
     keystroke fuel now app curses.ascii.ESC = Some (mkApp false [mkLayer 10 combo 1] 14)) /\
  (exists n, forall fuel, (n < fuel)%nat ->
     exists ev',
       dispatch_event fuel now app (press curses.ascii.ESC (CtrlRef 1))
       = Some (mkApp true (layers app) 14, ev') /\ propagating ev' = false).
Proof.
  cbv zeta.
  pose proof (App_escape_exits_unless_a_Popup_closes (SelectDate.date 2024 1 15))
    as (_ & Hd & Hk & _).
  set (combo := Combo 1 (Combo.mk [lit "a"; lit "b"] 0 (Some (mkRect 5 3 10 1)))).
  set (popup := Popup 12 3 2 (SelectList 11 (SelectList.init_default [lit "a"; lit "b"] 0))
                      (Combo_cb 1) []).
  set (app := mkApp false [mkLayer 10 combo 1; mkLayer 13 popup 11] 14).
  assert (Hwf : wf app).
  { unfold wf, app_nodes. cbn.
    split; [repeat constructor; cbn; intuition discriminate|].
    split; [repeat constructor; cbn; intuition discriminate|].
    split.
    - intros c [<-|[<-|[<-|[]]]]; reflexivity.
    - intros l [<-|[<-|[]]]; reflexivity. }
  split.
  - apply (Hk app (mkLayer 13 popup 11) Hwf eq_refl).
    right. exists (SelectList 11 (SelectList.init_default [lit "a"; lit "b"] 0)).
    cbn. auto.
  - apply (Hd app (mkLayer 10 combo 1) combo Hwf).
    + left; reflexivity.
    + left; reflexivity.
    + reflexivity.
Defined.
